(** * ParseSIL: the textual SIL parser of lib/Parse/ParseSIL.cpp

    A shallow embedding of [SILParserFunctionState] (basic-block name
    resolution, SIL types, opcodes, instructions, basic blocks) and of
    [Parser::parseDeclSIL], followed by the properties established about
    them.

    C++ functions that return [bool] with [true] meaning "an error was
    diagnosed" and deliver their values through reference parameters are
    embedded as computations in a state-and-error monad: [Ok v] stands for
    [return false] with the out-parameters set to [v], [Error] for
    [return true]. *)

From stdpp Require Import gmap strings list fin_maps.
From Stdlib Require Import Permutation.

Set Default Proof Using "Type".

(** ** Source locations, identifiers, tokens *)

Definition SourceLoc := nat.
Definition Identifier := string.

(** The token kinds the SIL grammar looks at, and [kw_return] as the
    representative of the Swift keywords whose text is also a SIL opcode. *)
Inductive tok : Set :=
| tok_unknown | tok_eof
| tok_identifier | tok_integer_literal
| tok_oper_binary | tok_oper_postfix | tok_oper_prefix
| tok_l_paren | tok_r_paren | tok_l_brace | tok_r_brace
| tok_l_square | tok_r_square
| tok_comma | tok_colon | tok_equal
| tok_sil_dollar | tok_sil_at_sign | tok_sil_local_name
| tok_kw_sil | tok_kw_return.

#[global] Instance tok_eq_dec : EqDecision tok.
Proof. solve_decision. Defined.

Record Token := mkToken {
  getKind : tok;
  getText : string;
  getLoc : SourceLoc;
  isAtStartOfLine : bool
}.

(** [Token::is] and [Token::isNot] ([is] is reserved in Rocq). *)
Definition is_ (K : tok) (T : Token) : bool := bool_decide (getKind T = K).
Definition isNot (K : tok) (T : Token) : bool := negb (is_ K T).
Definition isAnyOperator (T : Token) : bool :=
  is_ tok_oper_binary T || is_ tok_oper_postfix T || is_ tok_oper_prefix T.

(** ** Diagnostics *)

Inductive Diag : Set :=
| undefined_basicblock_use (Name : Identifier)
| basicblock_redefinition (Name : Identifier)
| expected_sil_linkage_or_function
| expected_identifier_sil_type_attributes
| malformed_sil_uncurry_attribute
| unknown_sil_type_attribute
| expected_bracket_sil_type_attributes
| expected_sil_type
| expected_sil_colon_value_ref
| expected_sil_value_name
| expected_sil_instr_opcode
| expected_sil_instr_name
| expected_sil_instr_start_of_line
| expected_equal_in_sil_instr
| expected_tok_in_sil_instr (Expected OpcodeName : string)
| expected_sil_block_name
| expected_sil_block_colon
| expected_sil_function_name
| expected_sil_rbrace
| note_opening (Closer : tok)
| frontend_diag (Message : string).

#[global] Instance Diag_eq_dec : EqDecision Diag.
Proof. solve_decision. Defined.

Definition Diagnostic : Set := SourceLoc * Diag.

(** ** The SIL module: the arena that owns blocks and functions *)

(** A [SILBasicBlock*] is the address of the block in the module's arena;
    [option SILBasicBlock] is a possibly-null pointer, [None] being
    [nullptr]. A [SILFunction*] is the index of the function in the
    module's function list. *)
Definition SILBasicBlock := positive.
Definition SILFunctionPtr := nat.

Inductive SILLinkage : Set := External | Internal | ClangThunk.

Inductive ValueKind : Set := SILArgument | TupleInst | ReturnInst.

#[global] Instance ValueKind_eq_dec : EqDecision ValueKind.
Proof. solve_decision. Defined.

Record SILInstruction := mkInst { InstKind : ValueKind }.

Record BlockData := mkBlock {
  Parent : option SILFunctionPtr;
  Insts : list SILInstruction
}.

Record SILFunction (SILType : Type) := mkFunction {
  FnLinkage : SILLinkage;
  FnName : string;
  FnType : SILType
}.
Arguments mkFunction {SILType}.
Arguments FnLinkage {SILType}.
Arguments FnName {SILType}.
Arguments FnType {SILType}.

Record SILModule (SILType : Type) := mkModule {
  Blocks : gmap SILBasicBlock BlockData;
  Functions : list (SILFunction SILType)
}.
Arguments mkModule {SILType}.
Arguments Blocks {SILType}.
Arguments Functions {SILType}.

(** ** The translation unit and its parse stage *)

Inductive ASTStage_t : Set := Parsing | Parsed | NameBound | TypeChecked.

#[global] Instance ASTStage_eq_dec : EqDecision ASTStage_t.
Proof. solve_decision. Defined.

Record TranslationUnit (Decls : Type) := mkTU {
  ASTStage : ASTStage_t;
  TUDecls : Decls
}.
Arguments mkTU {Decls}.
Arguments ASTStage {Decls}.
Arguments TUDecls {Decls}.

Definition setASTStage {Decls} (st : ASTStage_t) (tu : TranslationUnit Decls) :=
  mkTU st (TUDecls tu).

(** ** Results *)

(** [Ok v]: the C++ function returned [false]. [Error]: it returned
    [true]. [Abort]: an [assert] failed. [OutOfFuel]: the bound given to a
    loop of the model was too small (shown below not to happen). *)
Inductive result (A : Type) : Type :=
| Ok (a : A)
| Error
| Abort
| OutOfFuel.
Arguments Ok {A}.
Arguments Error {A}.
Arguments Abort {A}.
Arguments OutOfFuel {A}.

Definition M (S A : Type) : Type := S → result A * S.

Definition ret {S A} (a : A) : M S A := λ s, (Ok a, s).
Definition fail {S A} : M S A := λ s, (Error, s).
Definition abort {S A} : M S A := λ s, (Abort, s).
Definition out_of_fuel {S A} : M S A := λ s, (OutOfFuel, s).

Definition bind {S A B} (c : M S A) (k : A → M S B) : M S B :=
  λ s, match c s with
       | (Ok a, s') => k a s'
       | (Error, s') => (Error, s')
       | (Abort, s') => (Abort, s')
       | (OutOfFuel, s') => (OutOfFuel, s')
       end.

Definition get {S} : M S S := λ s, (Ok s, s).
Definition gets {S A} (f : S → A) : M S A := λ s, (Ok (f s), s).
Definition modify {S} (f : S → S) : M S unit := λ s, (Ok tt, f s).

Declare Scope sil_scope.
Delimit Scope sil_scope with sil.
Notation "x <- c1 ;; c2" := (bind c1 (λ x, c2))
  (at level 100, c1 at next level, right associativity) : sil_scope.
Notation "c1 ;; c2" := (bind c1 (λ _, c2))
  (at level 100, right associativity) : sil_scope.
Open Scope sil_scope.

(** A range-based [for] over a container whose body cannot fail. *)
Fixpoint forEach {S A} (l : list A) (body : A → M S unit) : M S unit :=
  match l with
  | [] => ret tt
  | x :: l' => body x ;; forEach l' body
  end.

(** A call whose [bool] result the caller drops. *)
Definition ignoreResult {S A} (c : M S A) : M S unit :=
  λ s, match c s with
       | (Ok _, s') | (Error, s') => (Ok tt, s')
       | (Abort, s') => (Abort, s')
       | (OutOfFuel, s') => (OutOfFuel, s')
       end.

(** Running a computation on a component of a larger state. *)
Definition zoom {S T A} (proj : S → T) (upd : T → S → S) (c : M T A) : M S A :=
  λ s, let '(r, t) := c (proj s) in (r, upd t s).

(** ** The parser state

    [Tok] is the current token and [L] the tokens the lexer has not yet
    produced; [Diags] collects what the diagnostic engine was given, in
    order; [TU] and [SIL] are the objects behind [Parser::TU] and
    [Parser::SIL]; [InSILBody] is the lexer's SIL-body mode. *)
Record Parser (SILType Decls : Type) := mkParser {
  Tok : Token;
  L : list Token;
  EofLoc : SourceLoc;
  Diags : list Diagnostic;
  TU : TranslationUnit Decls;
  SIL : SILModule SILType;
  InSILBody : bool
}.
Arguments mkParser {SILType Decls}.
Arguments Tok {SILType Decls}.
Arguments L {SILType Decls}.
Arguments EofLoc {SILType Decls}.
Arguments Diags {SILType Decls}.
Arguments TU {SILType Decls}.
Arguments SIL {SILType Decls}.
Arguments InSILBody {SILType Decls}.

Section ParserState.
Context {SILType Decls : Type}.
#[local] Abbreviation Parser := (Parser SILType Decls).

Definition setToken (T : Token) (Rest : list Token) (p : Parser) : Parser :=
  mkParser T Rest (EofLoc p) (Diags p) (TU p) (SIL p) (InSILBody p).
Definition addDiags (ds : list Diagnostic) (p : Parser) : Parser :=
  mkParser (Tok p) (L p) (EofLoc p) (Diags p ++ ds) (TU p) (SIL p) (InSILBody p).
Definition setTU (tu : TranslationUnit Decls) (p : Parser) : Parser :=
  mkParser (Tok p) (L p) (EofLoc p) (Diags p) tu (SIL p) (InSILBody p).
Definition setSIL (m : SILModule SILType) (p : Parser) : Parser :=
  mkParser (Tok p) (L p) (EofLoc p) (Diags p) (TU p) m (InSILBody p).
Definition setInSILBody (b : bool) (p : Parser) : Parser :=
  mkParser (Tok p) (L p) (EofLoc p) (Diags p) (TU p) (SIL p) b.

(** Modelled from the spec: the token-stream and diagnostics
    collaborators of section 6 ([Parser] and [Lexer] are declared in
    Parser.h and Lexer.h, which are not part of the sources at hand): the
    current token, one token of lookahead, consuming, consume-if-kind,
    and a diagnostic sink that records and does not abort. Once the
    buffer is exhausted the lexer keeps producing [eof]. *)
Definition lex (Rest : list Token) (Eof : SourceLoc) : Token * list Token :=
  match Rest with
  | T :: Rest' => (T, Rest')
  | [] => (mkToken tok_eof "" Eof true, [])
  end.

(** Modelled from the spec: [diagnose(Loc, D)] hands a diagnostic to the
    sink, which records it; parsing goes on. *)
Definition diagnose (Loc : SourceLoc) (D : Diag) : M Parser unit :=
  modify (addDiags [(Loc, D)]).

(** Modelled from the spec: [peekToken()], the one token of lookahead. *)
Definition peekToken (p : Parser) : Token := (lex (L p) (EofLoc p)).1.

(** What is left to consume: the current token unless it is [eof], and
    the tokens behind it. It bounds the iterations of the loops below. *)
Definition remaining (p : Parser) : nat :=
  2 * length (L p) + (if is_ tok_eof (Tok p) then 0 else 1).

(** Modelled from the spec: [consumeToken()] makes the next token of the
    lexer the current one and gives the location of the token consumed. *)
Definition consumeToken : M Parser SourceLoc :=
  λ p, let '(T, Rest) := lex (L p) (EofLoc p) in
       (Ok (getLoc (Tok p)), setToken T Rest p).

(** Modelled from the spec: [consumeToken(K)] consumes a token the caller
    knows to be of kind [K]; a token of another kind is an assertion
    failure. *)
Definition consumeTokenOfKind (K : tok) : M Parser SourceLoc :=
  λ p, if is_ K (Tok p) then consumeToken p else (Abort, p).

(** Modelled from the spec: consume-if-kind. *)
Definition consumeIf (K : tok) : M Parser bool :=
  λ p, if is_ K (Tok p) then (consumeToken ;; ret true) p else (Ok false, p).

(** Modelled from the spec: [parseToken(K, D)] consumes a token of kind
    [K]; on any other token it reports [D] at that token, consumes
    nothing and returns [true]. *)
Definition parseToken (K : tok) (D : Diag) : M Parser SourceLoc :=
  λ p, if is_ K (Tok p) then consumeToken p
       else (diagnose (getLoc (Tok p)) D ;; fail) p.

(** Modelled from the spec: [parseIdentifier(Result, Loc, D)] consumes an
    identifier token and delivers its text and location; on any other
    token it reports [D] at that token and returns [true]. *)
Definition parseIdentifier (D : Diag) : M Parser (Identifier * SourceLoc) :=
  λ p, if is_ tok_identifier (Tok p)
       then (consumeToken ;; ret (getText (Tok p), getLoc (Tok p))) p
       else (diagnose (getLoc (Tok p)) D ;; fail) p.

(** Modelled from the spec: [parseMatchingToken(K, TokLoc, D, OtherLoc)]
    is [parseToken] for a closing delimiter; a mismatch is diagnosed
    with both the error location and the opening location. *)
Definition parseMatchingToken (K : tok) (D : Diag) (OtherLoc : SourceLoc)
  : M Parser SourceLoc :=
  λ p, if is_ K (Tok p) then consumeToken p
       else (diagnose (getLoc (Tok p)) D ;;
             diagnose OtherLoc (note_opening K) ;; fail) p.
End ParserState.

(** ** Collaborators

    The general type parser, the type checker and type lowering live in
    other parts of the compiler; [StringRef::getAsInteger] is LLVM's. They
    are parameters of the development. [performTypeLocChecking] receives
    the translation unit and the parsed type; it returns [true] on
    error, the checked type, the translation unit as it left it and the
    diagnostics it emitted. [getAsInteger] is [None] where the C++ returns
    [true] (the text is not an unsigned decimal number that fits). *)
Class Frontend := {
  TypeLoc : Type;
  SILType : Type;
  Decls : Type;
  parseType : Diag → M (Parser SILType Decls) TypeLoc;
  performTypeLocChecking :
    TranslationUnit Decls → TypeLoc →
    bool * TypeLoc * TranslationUnit Decls * list Diagnostic;
  getLoweredType : TypeLoc → nat → SILType;
  getAddressType : SILType → SILType;
  getAsInteger : string → option nat
}.

(** [new (SILMod) SILBasicBlock(F)] takes its storage from the module's
    allocator: the address is one that no live block has. *)
Class Arena := {
  allocate : gset SILBasicBlock → SILBasicBlock;
  allocate_fresh : ∀ X, allocate X ∉ X
}.

(** [llvm::DenseMap] iterates over its buckets; the bucket of an entry is
    computed from its key, here the address of a block. [buckets X] is the
    order in which a table with key set [X] is visited. *)
Class DenseMapOrder := {
  buckets : gset SILBasicBlock → list SILBasicBlock;
  buckets_perm : ∀ X, buckets X ≡ₚ elements X
}.

(** ** SILParserFunctionState *)

(** The members of the class. [P] is the parser the state refers to
    ([Parser &P]); the module [SILMod] is [*P.SIL] and is reached through
    [P]. A null [F] is [None]. [NumDiagnoseProblems] is a ghost field: it
    counts the calls of [diagnoseProblems] and is read by no code. *)
Record SILParserFunctionState (SILType Decls : Type) := mkState {
  P : Parser SILType Decls;
  F : option SILFunctionPtr;
  HadError : bool;
  BlocksByName : gmap Identifier (option SILBasicBlock);
  UndefinedBlocks : gmap SILBasicBlock (SourceLoc * Identifier);
  NumDiagnoseProblems : nat
}.
Arguments mkState {SILType Decls}.
Arguments P {SILType Decls}.
Arguments F {SILType Decls}.
Arguments HadError {SILType Decls}.
Arguments BlocksByName {SILType Decls}.
Arguments UndefinedBlocks {SILType Decls}.
Arguments NumDiagnoseProblems {SILType Decls}.

Section FunctionState.
Context {SILType Decls : Type}.
#[local] Abbreviation Parser := (Parser SILType Decls).
#[local] Abbreviation State := (SILParserFunctionState SILType Decls).

Definition SILMod (s : State) : SILModule SILType := SIL (P s).

Definition setP (p : Parser) (s : State) : State :=
  mkState p (F s) (HadError s) (BlocksByName s) (UndefinedBlocks s)
          (NumDiagnoseProblems s).
Definition setF (f : option SILFunctionPtr) (s : State) : State :=
  mkState (P s) f (HadError s) (BlocksByName s) (UndefinedBlocks s)
          (NumDiagnoseProblems s).
Definition setHadError (b : bool) (s : State) : State :=
  mkState (P s) (F s) b (BlocksByName s) (UndefinedBlocks s)
          (NumDiagnoseProblems s).
Definition setBlocksByName (m : gmap Identifier (option SILBasicBlock))
    (s : State) : State :=
  mkState (P s) (F s) (HadError s) m (UndefinedBlocks s)
          (NumDiagnoseProblems s).
Definition setUndefinedBlocks (m : gmap SILBasicBlock (SourceLoc * Identifier))
    (s : State) : State :=
  mkState (P s) (F s) (HadError s) (BlocksByName s) m
          (NumDiagnoseProblems s).
Definition countDiagnoseProblems (s : State) : State :=
  mkState (P s) (F s) (HadError s) (BlocksByName s) (UndefinedBlocks s)
          (S (NumDiagnoseProblems s)).

(** [SILParserFunctionState(Parser &P)]: empty tables, no error. *)
Definition newState (p : Parser) : State := mkState p None false ∅ ∅ 0.

(** A call [P.method(...)] made from a member function. *)
Definition inP {A} (c : M Parser A) : M State A := zoom P setP c.

(** [new (SILMod) SILBasicBlock(F)]: a block without instructions at a
    fresh address of the module. *)
Definition newSILBasicBlock `{AR : Arena} : M State SILBasicBlock :=
  λ s, let BB := allocate (dom (Blocks (SILMod s))) in
       let Mod := mkModule (<[BB := mkBlock (F s) []]> (Blocks (SILMod s)))
                           (Functions (SILMod s)) in
       (Ok BB, setP (setSIL Mod (P s)) s).

(** [SILBasicBlock *&BB = BlocksByName[Name]]: [DenseMap::operator[]]
    enters a null pointer for a name the table does not have, and gives
    the stored pointer. Assigning through the reference is [assignBB]. *)
Definition subscript (Name : Identifier) : M State (option SILBasicBlock) :=
  λ s, match BlocksByName s !! Name with
       | Some BB => (Ok BB, s)
       | None => (Ok None, setBlocksByName (<[Name := None]> (BlocksByName s)) s)
       end.

Definition assignBB (Name : Identifier) (BB : SILBasicBlock) : M State unit :=
  modify (λ s, setBlocksByName (<[Name := Some BB]> (BlocksByName s)) s).

(** [UndefinedBlocks.erase(BB)]: whether an entry was removed. *)
Definition erase (BB : SILBasicBlock) : M State bool :=
  λ s, match UndefinedBlocks s !! BB with
       | Some _ => (Ok true, setUndefinedBlocks (delete BB (UndefinedBlocks s)) s)
       | None => (Ok false, s)
       end.

Definition getBBForDefinition `{AR : Arena} (Name : Identifier) (Loc : SourceLoc)
    : M State SILBasicBlock :=
  BB <- subscript Name ;;
  match BB with
  | None =>
      (* never named yet: create it *)
      New <- newSILBasicBlock ;; assignBB Name New ;; ret New
  | Some BB =>
      Erased <- erase BB ;;
      if negb Erased then
        (* a redefinition: a new block, not entered in the table *)
        inP (diagnose Loc (basicblock_redefinition Name)) ;;
        modify (setHadError true) ;;
        newSILBasicBlock
      else ret BB
  end.

Definition getBBForReference `{AR : Arena} (Name : Identifier) (Loc : SourceLoc)
    : M State SILBasicBlock :=
  BB <- subscript Name ;;
  match BB with
  | Some BB => ret BB
  | None =>
      New <- newSILBasicBlock ;;
      assignBB Name New ;;
      modify (λ s, setUndefinedBlocks (<[New := (Loc, Name)]> (UndefinedBlocks s)) s) ;;
      ret New
  end.

(** The entries of [UndefinedBlocks] in the order the table's iterator
    visits them. *)
Definition entries `{DO : DenseMapOrder}
    (U : gmap SILBasicBlock (SourceLoc * Identifier))
    : list (SILBasicBlock * (SourceLoc * Identifier)) :=
  omap (λ BB, (λ E, (BB, E)) <$> U !! BB) (buckets (dom U)).

(** [return HadError;] of a function whose [true] means failure. *)
Definition returnHadError : M State unit :=
  λ s, if HadError s then (Error, s) else (Ok tt, s).

Definition diagnoseProblems `{DO : DenseMapOrder} : M State unit :=
  modify countDiagnoseProblems ;;
  U <- gets UndefinedBlocks ;;
  (if bool_decide (U ≠ ∅) then
     forEach (entries U) (λ Entry,
       inP (diagnose Entry.2.1 (undefined_basicblock_use Entry.2.2))) ;;
     modify (setHadError true)
   else ret tt) ;;
  returnHadError.

End FunctionState.

(** ** SIL parsing logic *)

Section Parsing.
Context `{FE : Frontend} `{AR : Arena} `{DO : DenseMapOrder}.
#[local] Abbreviation Parser' := (Parser SILType Decls).
#[local] Abbreviation State' := (SILParserFunctionState SILType Decls).

Definition curTok : M State' Token := gets (λ s, Tok (P s)).

(** [static bool parseSILLinkage(SILLinkage &Result, Parser &P)] *)
Definition parseSILLinkage : M Parser' SILLinkage :=
  λ p, if isNot tok_identifier (Tok p) then ret External p
       else if decide (getText (Tok p) = "internal") then
         (consumeTokenOfKind tok_identifier ;; ret Internal) p
       else if decide (getText (Tok p) = "clang_thunk") then
         (consumeTokenOfKind tok_identifier ;; ret ClangThunk) p
       else (diagnose (getLoc (Tok p)) expected_sil_linkage_or_function ;; fail) p.

Definition startswith (Prefix s : string) : bool := String.prefix Prefix s.

(** The [do ... while (P.Tok.is(tok::comma))] loop of [parseSILType]; the
    two results are [IsSRet] and [UncurryLevel]. *)
Fixpoint parseSILTypeAttributes (fuel : nat) (IsSRet : bool) (UncurryLevel : nat)
    : M State' (bool * nat) :=
  match fuel with
  | 0 => out_of_fuel
  | S fuel =>
      inP consumeToken ;;
      Attr <- inP (parseIdentifier expected_identifier_sil_type_attributes) ;;
      Flags <-
        (if decide (Attr.1 = "sil_sret") then
           inP (consumeTokenOfKind tok_identifier) ;;
           ret (true, UncurryLevel)
         else if decide (Attr.1 = "sil_uncurry") then
           inP (parseToken tok_identifier malformed_sil_uncurry_attribute) ;;
           inP (parseToken tok_equal malformed_sil_uncurry_attribute) ;;
           T <- curTok ;;
           match (if isNot tok_integer_literal T then None
                  else getAsInteger (getText T)) with
           | None =>
               inP (diagnose (getLoc T) malformed_sil_uncurry_attribute) ;; fail
           | Some Level =>
               inP (consumeTokenOfKind tok_integer_literal) ;;
               ret (IsSRet, Level)
           end
         else
           inP (diagnose Attr.2 unknown_sil_type_attribute) ;; fail) ;;
      T <- curTok ;;
      if is_ tok_comma T then parseSILTypeAttributes fuel Flags.1 Flags.2
      else ret Flags
  end.

(** The block of [parseSILType] that holds the [llvm::SaveAndRestore]:
    the assertion, the constructor (save, then set [Parsed]), the call,
    and the destructor (restore), which runs on both ways out. *)
Definition typeCheckingScope (Ty : TypeLoc) : M Parser' TypeLoc :=
  λ p, if bool_decide (ASTStage (TU p) = Parsing) then
         let Saved := ASTStage (TU p) in
         let p1 := setTU (setASTStage Parsed (TU p)) p in
         let '(Err, Ty', tu, ds) := performTypeLocChecking (TU p1) Ty in
         let p2 := setTU (setASTStage Saved tu) (addDiags ds p1) in
         if Err : bool then (Error, p2) else (Ok Ty', p2)
       else (Abort, p).

Definition parseSILType : M State' SILType :=
  p <- gets P ;;
  Attrs <-
    (if is_ tok_l_square (Tok p) && is_ tok_identifier (peekToken p) &&
        startswith "sil_" (getText (peekToken p)) then
       let LeftLoc := getLoc (Tok p) in
       Flags <- parseSILTypeAttributes (S (remaining p)) false 0 ;;
       inP (parseMatchingToken tok_r_square
              expected_bracket_sil_type_attributes LeftLoc) ;;
       ret Flags
     else ret (false, 0)) ;;
  T <- curTok ;;
  isAddress <-
    (if isAnyOperator T && bool_decide (getText T = "*") then
       inP consumeToken ;; ret true
     else ret false) ;;
  inP (parseToken tok_sil_dollar expected_sil_type) ;;
  Ty <- inP (parseType expected_sil_type) ;;
  Ty <- inP (typeCheckingScope Ty) ;;
  let Result := getLoweredType Ty Attrs.2 in
  ret (if isAddress : bool then getAddressType Result else Result).

Definition parseTypedValueRef : M State' unit :=
  parseSILType ;;
  inP (parseToken tok_colon expected_sil_colon_value_ref) ;;
  inP (parseToken tok_sil_local_name expected_sil_value_name) ;;
  ret tt.

(** [llvm::StringSwitch<ValueKind>(OpcodeName)] with its two cases. *)
Definition StringSwitch (OpcodeName : string) : ValueKind :=
  if decide (OpcodeName = "tuple") then TupleInst
  else if decide (OpcodeName = "return") then ReturnInst
  else SILArgument.

(** The out-parameters are [Opcode], [OpcodeLoc] and [OpcodeName]. *)
Definition parseSILOpcode : M State' (ValueKind * SourceLoc * string) :=
  T <- curTok ;;
  let OpcodeLoc := getLoc T in
  let OpcodeName := getText T in
  let Opcode := StringSwitch OpcodeName in
  if bool_decide (Opcode ≠ SILArgument) then
    inP consumeToken ;; ret (Opcode, OpcodeLoc, OpcodeName)
  else
    inP (diagnose OpcodeLoc expected_sil_instr_opcode) ;; fail.

(** [while (P.Tok.isNot(tok::r_paren)) if (parseTypedValueRef()) return true;] *)
Fixpoint parseTupleOperands (fuel : nat) : M State' unit :=
  match fuel with
  | 0 => out_of_fuel
  | S fuel =>
      T <- curTok ;;
      if isNot tok_r_paren T then parseTypedValueRef ;; parseTupleOperands fuel
      else ret tt
  end.

Definition parseSILInstruction (BB : SILBasicBlock) : M State' unit :=
  T <- curTok ;;
  if isNot tok_sil_local_name T then
    inP (diagnose (getLoc T) expected_sil_instr_name) ;; fail
  else if negb (isAtStartOfLine T) then
    inP (diagnose (getLoc T) expected_sil_instr_start_of_line) ;; fail
  else
    inP (consumeTokenOfKind tok_sil_local_name) ;;
    inP (parseToken tok_equal expected_equal_in_sil_instr) ;;
    Op <- parseSILOpcode ;;
    match Op.1.1 with
    | TupleInst =>
        inP (parseToken tok_l_paren (expected_tok_in_sil_instr "(" Op.2)) ;;
        p <- gets P ;;
        parseTupleOperands (S (remaining p)) ;;
        inP (consumeTokenOfKind tok_r_paren) ;;
        ret tt
    | ReturnInst => parseTypedValueRef
    | SILArgument => abort (* default: assert(0 && "Unreachable") *)
    end.

(** [do ... while (P.Tok.is(tok::sil_local_name))] of [parseSILBasicBlock]. *)
Fixpoint parseInstructions (fuel : nat) (BB : SILBasicBlock) : M State' unit :=
  match fuel with
  | 0 => out_of_fuel
  | S fuel =>
      parseSILInstruction BB ;;
      T <- curTok ;;
      if is_ tok_sil_local_name T then parseInstructions fuel BB else ret tt
  end.

Definition parseSILBasicBlock : M State' unit :=
  Name <- inP (parseIdentifier expected_sil_block_name) ;;
  inP (parseToken tok_colon expected_sil_block_colon) ;;
  BB <- getBBForDefinition Name.1 Name.2 ;;
  p <- gets P ;;
  parseInstructions (S (remaining p)) BB.

(** [do ... while (Tok.isNot(tok::r_brace) && Tok.isNot(tok::eof))] of
    [parseDeclSIL]. *)
Fixpoint parseBasicBlocks (fuel : nat) : M State' unit :=
  match fuel with
  | 0 => out_of_fuel
  | S fuel =>
      parseSILBasicBlock ;;
      T <- curTok ;;
      if isNot tok_r_brace T && isNot tok_eof T then parseBasicBlocks fuel
      else ret tt
  end.

(** The [new] expression that creates the [SILFunction] in the module
    [SIL] from [FnLinkage], [FnName.str()] and [FnType]. *)
Definition newSILFunction (Linkage : SILLinkage) (Name : string) (Ty : SILType)
    : M State' SILFunctionPtr :=
  λ s, let Fn := length (Functions (SILMod s)) in
       let Mod := mkModule (Blocks (SILMod s))
                           (Functions (SILMod s) ++ [mkFunction Linkage Name Ty]) in
       (Ok Fn, setP (setSIL Mod (P s)) s).

(** The declaration up to and including the creation of the function. *)
Definition parseDeclSILHeader : M State' unit :=
  inP (consumeTokenOfKind tok_kw_sil) ;;
  FnLinkage <- inP parseSILLinkage ;;
  inP (parseToken tok_sil_at_sign expected_sil_function_name) ;;
  FnName <- inP (parseIdentifier expected_sil_function_name) ;;
  inP (parseToken tok_colon expected_sil_type) ;;
  FnType <- parseSILType ;;
  Fn <- newSILFunction FnLinkage FnName.1 FnType ;;
  modify (setF (Some Fn)).

(** The body, if present: [true] when an opening brace was consumed. *)
Definition parseDeclSILBody : M State' bool :=
  LBraceLoc <- gets (λ s, getLoc (Tok (P s))) ;;
  HasBody <- inP (consumeIf tok_l_brace) ;;
  if HasBody : bool then
    p <- gets P ;;
    parseBasicBlocks (S (remaining p)) ;;
    ignoreResult (inP (parseMatchingToken tok_r_brace expected_sil_rbrace LBraceLoc)) ;;
    ret true
  else ret false.

(** [Parser::parseDeclSIL]. [Lexer::SILBodyRAII] puts the lexer in SIL-body
    mode for the whole declaration; the function state is the one local
    to the call, returned here so that it can be looked at. *)
Definition parseDeclSIL (p : Parser') : result unit * State' :=
  let '(r, s) :=
    (parseDeclSILHeader ;; parseDeclSILBody ;; diagnoseProblems)
      (newState (setInSILBody true p)) in
  (r, setP (setInSILBody false (P s)) s).

End Parsing.


(** ** Notions used to state the properties of the resolver *)

Section ResolverModel.
Context {SILType Decls : Type} `{AR : Arena}.
#[local] Abbreviation RState := (SILParserFunctionState SILType Decls).

(** The block a name stands for: [None] for a name that is not in the
    table or is there with a null pointer. *)
Definition lookupBB (s : RState) (Name : Identifier) : option SILBasicBlock :=
  default None (BlocksByName s !! Name).

(** What holds of the tables throughout a function parse: named blocks are
    live blocks of the module, and two names never share a block. *)
Record consistent (s : RState) : Prop := {
  named_live : ∀ Name BB,
    lookupBB s Name = Some BB → BB ∈ dom (Blocks (SILMod s));
  named_inj : ∀ N1 N2 BB,
    lookupBB s N1 = Some BB → lookupBB s N2 = Some BB → N1 = N2
}.

(** What can happen between two calls of the resolver during a function
    parse: further definitions and references, and parser activity that
    leaves the module's live blocks in place. *)
Inductive action : Type :=
| Define (Name : Identifier) (Loc : SourceLoc)
| Refer (Name : Identifier) (Loc : SourceLoc)
| ParserStep (f : Parser SILType Decls → Parser SILType Decls).

Definition keepsBlocks (a : action) : Prop :=
  match a with
  | ParserStep f => ∀ p, dom (Blocks (SIL p)) ⊆ dom (Blocks (SIL (f p)))
  | _ => True
  end.

Definition perform (a : action) (s : RState) : RState :=
  match a with
  | Define Name Loc => (getBBForDefinition Name Loc s).2
  | Refer Name Loc => (getBBForReference Name Loc s).2
  | ParserStep f => setP (f (P s)) s
  end.

Definition performAll (acts : list action) (s : RState) : RState :=
  foldl (λ s a, perform a s) s acts.

Definition defines (Name : Identifier) (a : action) : Prop :=
  match a with Define N _ => N = Name | _ => False end.

(** The reading of "treated as a new forward reference": the call makes a
    block that was not live before and enters it in [UndefinedBlocks]
    under the name and location of the reference. *)
Definition treatedAsNewForwardReference (s : RState) (Name : Identifier)
    (Loc : SourceLoc) : Prop :=
  ∃ BB s', getBBForReference Name Loc s = (Ok BB, s') ∧
           (BB ∉ dom (Blocks (SILMod s))) ∧
           UndefinedBlocks s' !! BB = Some (Loc, Name).

End ResolverModel.
Arguments action : clear implicits.

(** ** Notions used to state frame and termination properties *)

(** [preserves f c]: whatever [c] does and however it ends, the quantity
    [f] of the state is afterwards what it was. *)
Definition preserves {S A X} (f : S → X) (c : M S A) : Prop :=
  ∀ s, f (c s).2 = f s.

(** [runs μ c s]: from [s], [c] ends within the bounds of its loops, and if
    it succeeds the measure [μ] has not grown. [advances μ c s]: moreover
    a success made [μ] smaller. *)
Definition runs {S A} (μ : S → nat) (c : M S A) (s : S) : Prop :=
  match c s with
  | (OutOfFuel, _) => False
  | (Ok _, s') => μ s' ≤ μ s
  | _ => True
  end.

Definition advances {S A} (μ : S → nat) (c : M S A) (s : S) : Prop :=
  match c s with
  | (OutOfFuel, _) => False
  | (Ok _, s') => μ s' < μ s
  | _ => True
  end.

(** The input a function state has not read yet. *)
Definition unread {SILType Decls} (s : SILParserFunctionState SILType Decls)
    : nat :=
  remaining (P s).

(** The parse stage of the translation unit a parser works on. *)
Definition stage {SILType Decls} (p : Parser SILType Decls) : ASTStage_t :=
  ASTStage (TU p).

(** ** The stages of a declaration parse

    For a parser [p] at the [sil] keyword: the function state the
    declaration starts in, the outcome of its header, and the outcome of
    the list of basic blocks parsed from behind the token that follows the
    header (of interest when that token is the opening brace). *)
Section DeclarationStages.
Context `{FE : Frontend} `{AR : Arena}.

Definition declStart (p : Parser SILType Decls)
    : SILParserFunctionState SILType Decls :=
  newState (setInSILBody true p).

Definition headerOf (p : Parser SILType Decls)
    : result unit * SILParserFunctionState SILType Decls :=
  parseDeclSILHeader (declStart p).

Definition blocksOf (p : Parser SILType Decls)
    : result unit * SILParserFunctionState SILType Decls :=
  parseBasicBlocks (S (remaining (consumeToken (P (headerOf p).2)).2))
                   (setP (consumeToken (P (headerOf p).2)).2 (headerOf p).2).

End DeclarationStages.

(** ** The part of parseSILType in front of the type-checking block

    [parseSILType] up to and including the call of [parseType]: the
    attribute list, the address marker, the [$] and the type. What it
    hands to the rest of the function are [UncurryLevel], [isAddress]
    and the parsed [Ty]. The properties of the stage override are stated
    of [parseSILType] from the state in which this part ends. *)
Section BeforeTypeChecking.
Context `{FE : Frontend}.

Definition parseSILTypeSyntax
    : M (SILParserFunctionState SILType Decls) (nat * bool * TypeLoc) :=
  p <- gets P ;;
  Attrs <-
    (if is_ tok_l_square (Tok p) && is_ tok_identifier (peekToken p) &&
        startswith "sil_" (getText (peekToken p)) then
       let LeftLoc := getLoc (Tok p) in
       Flags <- parseSILTypeAttributes (S (remaining p)) false 0 ;;
       inP (parseMatchingToken tok_r_square
              expected_bracket_sil_type_attributes LeftLoc) ;;
       ret Flags
     else ret (false, 0)) ;;
  T <- curTok ;;
  isAddress <-
    (if isAnyOperator T && bool_decide (getText T = "*") then
       inP consumeToken ;; ret true
     else ret false) ;;
  inP (parseToken tok_sil_dollar expected_sil_type) ;;
  Ty <- inP (parseType expected_sil_type) ;;
  ret (Attrs.2, isAddress, Ty).

End BeforeTypeChecking.

(** ** Notions used to state further properties *)

Section TableNotions.
Context {SILType Decls : Type}.
#[local] Abbreviation RState := (SILParserFunctionState SILType Decls).

(** What the two tables say about each other: the name table holds no
    null pointer, and a pending block is the block of the name it is
    pending under. *)
Record tablesAgree (s : RState) : Prop := {
  no_null : ∀ Name, BlocksByName s !! Name ≠ Some None;
  pending_named : ∀ BB Loc Name,
    UndefinedBlocks s !! BB = Some (Loc, Name) → lookupBB s Name = Some BB
}.

(** A name is defined: it has a block, and the block is not pending. *)
Definition isDefined (s : RState) (Name : Identifier) : Prop :=
  ∃ BB, lookupBB s Name = Some BB ∧ UndefinedBlocks s !! BB = None.
End TableNotions.

(** [unnamed s BB]: [BB] is a live block of the module that no name of
    the table stands for. *)
Definition unnamed {SILType Decls}
    (s : SILParserFunctionState SILType Decls) (BB : SILBasicBlock) : Prop :=
  BB ∈ dom (Blocks (SILMod s)) ∧ ∀ N, lookupBB s N ≠ Some BB.

(** The outcome of a call without its value. *)
Definition outcome {A} (r : result A) : result unit :=
  match r with
  | Ok _ => Ok tt
  | Error => Error
  | Abort => Abort
  | OutOfFuel => OutOfFuel
  end.

(** [ensures Q c]: from every state [s], [c] ends with an outcome [r] in a
    state [s'] such that [Q s r s']. *)
Definition ensures {S A} (Q : S → result unit → S → Prop) (c : M S A) : Prop :=
  ∀ s, Q s (outcome (c s).1) (c s).2.

(** The diagnostics the parsing functions of this file pass to the parser:
    all but the two of the block resolver and those of the front end. *)
Definition syntaxDiag (D : Diag) : bool :=
  match D with
  | undefined_basicblock_use _ | basicblock_redefinition _ | frontend_diag _ => false
  | _ => true
  end.

Section BodyOf.
Context `{FE : Frontend} `{AR : Arena}.
(** The outcome of a declaration up to, and without, [diagnoseProblems]:
    its header and, if present, its body. *)
Definition bodyOf (p : Parser SILType Decls)
    : result bool * SILParserFunctionState SILType Decls :=
  (parseDeclSILHeader ;; parseDeclSILBody) (declStart p).
End BodyOf.

(** What no step of a function parse undoes: a recorded error, the block
    of a name, the absence of pending blocks and of null entries. *)
Definition tablesGrow {SILType Decls}
    (s s' : SILParserFunctionState SILType Decls) : Prop :=
  (HadError s = true → HadError s' = true) ∧
  (∀ Name BB, lookupBB s Name = Some BB → lookupBB s' Name = Some BB) ∧
  (UndefinedBlocks s = ∅ → UndefinedBlocks s' = ∅) ∧
  ((∀ Name, BlocksByName s !! Name ≠ Some None) →
   ∀ Name, BlocksByName s' !! Name ≠ Some None).

Definition isRedefinition (d : Diagnostic) : bool :=
  match d.2 with basicblock_redefinition _ => true | _ => false end.

(** What is asked of the front end where diagnostics are counted: the
    type parser, given a diagnostic of this file's parsing functions, and
    the type checker only add diagnostics, add one when they fail, and do
    not report block redefinitions. *)
Definition frontendReports `{FE : Frontend} : Prop :=
  (∀ D p, syntaxDiag D = true → ∃ ds,
     Diags (parseType D p).2 = Diags p ++ ds ∧
     existsb isRedefinition ds = false ∧
     ((parseType D p).1 = Error → ds ≠ [])) ∧
  (∀ tu Ty,
     existsb isRedefinition (performTypeLocChecking tu Ty).2 = false ∧
     ((performTypeLocChecking tu Ty).1.1.1 = true →
      (performTypeLocChecking tu Ty).2 ≠ [])).

(** [recorded s r s']: the diagnostics of [s'] are those of [s] and more;
    the error flag was raised if and only if a redefinition is among the
    new ones; and an outcome [Error] comes with a new diagnostic. *)
Definition recorded {SILType Decls}
    (s : SILParserFunctionState SILType Decls) (r : result unit)
    (s' : SILParserFunctionState SILType Decls) : Prop :=
  ∃ ds, Diags (P s') = Diags (P s) ++ ds ∧
        HadError s' = HadError s || existsb isRedefinition ds ∧
        (r = Error → ds ≠ []).

(** What is asked of the type parser where the module is looked at: it
    leaves the SIL module alone. *)
Definition frontendKeepsModule `{FE : Frontend} : Prop :=
  ∀ D p, SIL (parseType D p).2 = SIL p.

(** [blocksAdded s s']: from [s] to [s'] the function and the module's
    functions stayed, every block of the module stayed as it was, and
    every block that came is a block of the function without
    instructions. *)
Definition blocksAdded {SILType Decls}
    (s s' : SILParserFunctionState SILType Decls) : Prop :=
  F s' = F s ∧
  Functions (SILMod s') = Functions (SILMod s) ∧
  (∀ BB d, Blocks (SILMod s) !! BB = Some d →
           Blocks (SILMod s') !! BB = Some d) ∧
  (∀ BB d, Blocks (SILMod s') !! BB = Some d →
           Blocks (SILMod s) !! BB = None → d = mkBlock (F s) []).

(** ** Concrete collaborators

    Instances of the collaborators on which the model can be run: an arena
    that hands out ascending addresses, the table order that visits keys
    as [elements] lists them, and a small front end whose types are
    single identifiers and whose type checker rejects the type [Unbound]. *)

Definition bumpArena : Arena :=
  {| allocate := fresh; allocate_fresh := is_fresh |}.

(** Two arenas that differ in where they put the first two blocks:
    addresses 1 then 2, and 2 then 1. *)
Definition firstLowArena : Arena.
Proof.
  refine {| allocate := λ X,
              if decide (1%positive ∈ X)
              then if decide (2%positive ∈ X) then fresh X else 2%positive
              else 1%positive |}.
  intros X. repeat case_decide; try done. apply is_fresh.
Defined.

Definition firstHighArena : Arena.
Proof.
  refine {| allocate := λ X,
              if decide (2%positive ∈ X)
              then if decide (1%positive ∈ X) then fresh X else 1%positive
              else 2%positive |}.
  intros X. repeat case_decide; try done. apply is_fresh.
Defined.

Definition elementsOrder : DenseMapOrder :=
  {| buckets := elements; buckets_perm := λ X, reflexivity (elements X) |}.

Fixpoint decimal (s : string) (acc : N) : option N :=
  match s with
  | EmptyString => Some acc
  | String c s' =>
      let d := Ascii.N_of_ascii c in
      if (48 <=? d)%N && (d <=? 57)%N then decimal s' (10 * acc + (d - 48))%N
      else None
  end.

Definition decimalUnsigned (s : string) : option nat :=
  match s with
  | EmptyString => None
  | _ => match decimal s 0 with
         | Some n => if (n <? 2 ^ 32)%N then Some (N.to_nat n) else None
         | None => None
         end
  end.

Definition demoFrontend : Frontend :=
  {| TypeLoc := string;
     SILType := string * nat * bool;
     Decls := unit;
     parseType D := λ p,
       if is_ tok_identifier (Tok p)
       then (consumeToken ;; ret (getText (Tok p))) p
       else (diagnose (getLoc (Tok p)) D ;; fail) p;
     performTypeLocChecking tu Ty :=
       if decide (Ty = "Unbound")
       then (true, Ty, tu, [(0, frontend_diag "use of undeclared type")])
       else (false, Ty, tu, []);
     getLoweredType Ty UncurryLevel := (Ty, UncurryLevel, false);
     getAddressType T := (T.1.1, T.1.2, true);
     getAsInteger := decimalUnsigned |}.

(** A parser of the demo front end over the tokens [T :: Rest], in a fresh
    translation unit and an empty module. *)
Definition demoParser (T : Token) (Rest : list Token)
    : Parser (@SILType demoFrontend) (@Decls demoFrontend) :=
  mkParser T Rest 1000 [] (mkTU Parsing tt) (mkModule ∅ []) false.

Definition eofToken : Token := mkToken tok_eof "" 1000 true.

(** The function state at the start of a function parse, and the same
    after [bb0] was defined at location 1 and defined again at 2. *)
Definition demoState
    : SILParserFunctionState (@SILType demoFrontend) (@Decls demoFrontend) :=
  newState (demoParser eofToken []).

Definition demoRedefined
    : SILParserFunctionState (@SILType demoFrontend) (@Decls demoFrontend) :=
  ((getBBForDefinition (AR := bumpArena) "bb0" 1 ;;
    getBBForDefinition (AR := bumpArena) "bb0" 2) demoState).2.

(** Tokens of the demo inputs: [tk K Text Loc] is in mid-line,
    [tkLine K Text Loc] starts a line. *)
Definition tk (K : tok) (Text : string) (Loc : SourceLoc) : Token :=
  mkToken K Text Loc false.
Definition tkLine (K : tok) (Text : string) (Loc : SourceLoc) : Token :=
  mkToken K Text Loc true.

Definition demoStateAt (T : Token) (Rest : list Token)
    : SILParserFunctionState (@SILType demoFrontend) (@Decls demoFrontend) :=
  newState (demoParser T Rest).

(** [sil @f : [sil_bogus] $T] *)
Definition declWithBogusAttribute : list Token :=
  [tk tok_sil_at_sign "@" 4; tk tok_identifier "f" 5; tk tok_colon ":" 7;
   tk tok_l_square "[" 9; tk tok_identifier "sil_bogus" 10;
   tk tok_r_square "]" 19; tk tok_sil_dollar "$" 21; tk tok_identifier "T" 22].

(** [sil @f : $T { bb0: %0 = branch bb1 }], with an opcode the parser
    does not know, and [sil @f : $T { bb0: %0 = tuple () %1 = return $T : %0 }]. *)
Definition declWithUnknownOpcode : list Token :=
  [tk tok_sil_at_sign "@" 4; tk tok_identifier "f" 5; tk tok_colon ":" 7;
   tk tok_sil_dollar "$" 9; tk tok_identifier "T" 10; tk tok_l_brace "{" 12;
   tkLine tok_identifier "bb0" 14; tk tok_colon ":" 17;
   tkLine tok_sil_local_name "%0" 19; tk tok_equal "=" 22;
   tk tok_identifier "branch" 24; tk tok_identifier "bb1" 31;
   tkLine tok_r_brace "}" 35].

Definition declWithTwoInstructions : list Token :=
  [tk tok_sil_at_sign "@" 4; tk tok_identifier "f" 5; tk tok_colon ":" 7;
   tk tok_sil_dollar "$" 9; tk tok_identifier "T" 10; tk tok_l_brace "{" 12;
   tkLine tok_identifier "bb0" 14; tk tok_colon ":" 17;
   tkLine tok_sil_local_name "%0" 19; tk tok_equal "=" 22;
   tk tok_identifier "tuple" 24; tk tok_l_paren "(" 30; tk tok_r_paren ")" 31;
   tkLine tok_sil_local_name "%1" 33; tk tok_equal "=" 36;
   tk tok_kw_return "return" 38; tk tok_sil_dollar "$" 45;
   tk tok_identifier "T" 46; tk tok_colon ":" 48;
   tk tok_sil_local_name "%0" 50; tkLine tok_r_brace "}" 53].

Definition demoDecl (Rest : list Token)
    : Parser (@SILType demoFrontend) (@Decls demoFrontend) :=
  demoParser (tk tok_kw_sil "sil" 0) Rest.

Definition parseDemoDecl (Rest : list Token)
    : result unit *
      SILParserFunctionState (@SILType demoFrontend) (@Decls demoFrontend) :=
  parseDeclSIL (FE := demoFrontend) (AR := bumpArena) (DO := elementsOrder)
    (demoDecl Rest).


(** Further demo inputs: [sil @f : $T { bb0: %0 = tuple ()] with the end
    of the file where the closing brace should be,
    [sil @f : $T { bb0: %0 = tuple () bb0: %1 = tuple () }] with a label
    that is defined twice, a label that is followed by the closing brace,
    and [*$T]. *)
Definition declWithoutClosingBrace : list Token :=
  [tk tok_sil_at_sign "@" 4; tk tok_identifier "f" 5; tk tok_colon ":" 7;
   tk tok_sil_dollar "$" 9; tk tok_identifier "T" 10; tk tok_l_brace "{" 12;
   tkLine tok_identifier "bb0" 14; tk tok_colon ":" 17;
   tkLine tok_sil_local_name "%0" 19; tk tok_equal "=" 22;
   tk tok_identifier "tuple" 24; tk tok_l_paren "(" 30; tk tok_r_paren ")" 31].

Definition declWithRedefinition : list Token :=
  [tk tok_sil_at_sign "@" 4; tk tok_identifier "f" 5; tk tok_colon ":" 7;
   tk tok_sil_dollar "$" 9; tk tok_identifier "T" 10; tk tok_l_brace "{" 12;
   tkLine tok_identifier "bb0" 14; tk tok_colon ":" 17;
   tkLine tok_sil_local_name "%0" 19; tk tok_equal "=" 22;
   tk tok_identifier "tuple" 24; tk tok_l_paren "(" 30; tk tok_r_paren ")" 31;
   tkLine tok_identifier "bb0" 33; tk tok_colon ":" 36;
   tkLine tok_sil_local_name "%1" 38; tk tok_equal "=" 41;
   tk tok_identifier "tuple" 43; tk tok_l_paren "(" 49; tk tok_r_paren ")" 50;
   tkLine tok_r_brace "}" 52].

Definition demoLabelWithoutInstruction
    : SILParserFunctionState (@SILType demoFrontend) (@Decls demoFrontend) :=
  demoStateAt (tkLine tok_identifier "bb0" 14)
              [tk tok_colon ":" 17; tkLine tok_r_brace "}" 19].

Definition demoAddressType
    : SILParserFunctionState (@SILType demoFrontend) (@Decls demoFrontend) :=
  demoStateAt (tk tok_oper_prefix "*" 9)
              [tk tok_sil_dollar "$" 10; tk tok_identifier "T" 11].

(** * Properties *)

(** ** Sequencing *)

Lemma bind_Ok {S A B} (c : M S A) (k : A → M S B) s a s' :
  c s = (Ok a, s') → bind c k s = k a s'.
Proof. unfold bind. by intros ->. Qed.

Lemma bind_Error {S A B} (c : M S A) (k : A → M S B) s s' :
  c s = (Error, s') → bind c k s = (Error, s').
Proof. unfold bind. by intros ->. Qed.

Lemma run_Ok {S A} (c : M S A) s a : (c s).1 = Ok a → c s = (Ok a, (c s).2).
Proof. destruct (c s). simpl. by intros ->. Qed.

Lemma run_Error {S A} (c : M S A) s : (c s).1 = Error → c s = (Error, (c s).2).
Proof. destruct (c s). simpl. by intros ->. Qed.

Lemma bind_assoc {S A B C} (c : M S A) (k : A → M S B) (k' : B → M S C) s :
  bind c (λ a, bind (k a) k') s = bind (bind c k) k' s.
Proof. unfold bind. by destruct (c s) as [[]]. Qed.

Lemma bind_ext {S A B} (c : M S A) (k k' : A → M S B) s :
  (∀ a s1, c s = (Ok a, s1) → k a s1 = k' a s1) → bind c k s = bind c k' s.
Proof. intros H. unfold bind. destruct (c s) as [[a| | |] s1]; auto. Qed.

(** ** The basic-block resolver *)

Section ResolverFacts.
Context {SILType Decls : Type} `{AR : Arena}.
#[local] Abbreviation RState := (SILParserFunctionState SILType Decls).
#[local] Abbreviation action := (action SILType Decls).

Lemma newState_consistent (p : Parser SILType Decls) : consistent (newState p).
Proof. split; intros *; unfold lookupBB; simpl; by rewrite lookup_empty. Qed.

(** The three ways [getBBForDefinition] can go. *)
Lemma getBBForDefinition_fresh (s : RState) Name Loc :
  lookupBB s Name = None →
  let BB := allocate (dom (Blocks (SILMod s))) in
  ∃ s', getBBForDefinition Name Loc s = (Ok BB, s') ∧
        lookupBB s' Name = Some BB ∧
        (∀ N, N ≠ Name → lookupBB s' N = lookupBB s N) ∧
        UndefinedBlocks s' = UndefinedBlocks s ∧
        Blocks (SILMod s') = <[BB := mkBlock (F s) []]> (Blocks (SILMod s)) ∧
        Diags (P s') = Diags (P s) ∧ HadError s' = HadError s.
Proof.
  unfold lookupBB, getBBForDefinition, bind, subscript. intros Hl.
  destruct (BlocksByName s !! Name) as [[BB'|]|] eqn:E'; simplify_eq/=;
    eexists; (split; [reflexivity|]); simpl;
    repeat split; try (by rewrite lookup_insert_eq);
    intros N HN; rewrite ?lookup_insert_ne by done; done.
Qed.

Lemma getBBForDefinition_pending (s : RState) Name Loc BB E :
  lookupBB s Name = Some BB →
  UndefinedBlocks s !! BB = Some E →
  getBBForDefinition Name Loc s =
    (Ok BB, setUndefinedBlocks (delete BB (UndefinedBlocks s)) s).
Proof.
  unfold lookupBB, getBBForDefinition, bind, subscript, erase. intros Hl Hu.
  destruct (BlocksByName s !! Name) as [[BB'|]|] eqn:E'; simplify_eq/=.
  by rewrite Hu.
Qed.

Lemma getBBForDefinition_redefinition (s : RState) Name Loc BB :
  lookupBB s Name = Some BB →
  UndefinedBlocks s !! BB = None →
  let New := allocate (dom (Blocks (SILMod s))) in
  getBBForDefinition Name Loc s =
    (Ok New,
     mkState
       (setSIL (mkModule (<[New := mkBlock (F s) []]> (Blocks (SILMod s)))
                         (Functions (SILMod s)))
               (addDiags [(Loc, basicblock_redefinition Name)] (P s)))
       (F s) true (BlocksByName s) (UndefinedBlocks s)
       (NumDiagnoseProblems s)).
Proof.
  unfold lookupBB, getBBForDefinition, bind, subscript, erase. intros Hl Hu.
  destruct (BlocksByName s !! Name) as [[BB'|]|] eqn:E'; simplify_eq/=.
  by rewrite Hu.
Qed.

(** The two ways [getBBForReference] can go. *)
Lemma getBBForReference_known (s : RState) Name Loc BB :
  lookupBB s Name = Some BB →
  getBBForReference Name Loc s = (Ok BB, s).
Proof.
  unfold lookupBB, getBBForReference, bind, subscript. intros Hl.
  destruct (BlocksByName s !! Name) as [[BB'|]|] eqn:E'; by simplify_eq/=.
Qed.

Lemma getBBForReference_forward (s : RState) Name Loc :
  lookupBB s Name = None →
  let BB := allocate (dom (Blocks (SILMod s))) in
  ∃ s', getBBForReference Name Loc s = (Ok BB, s') ∧
        lookupBB s' Name = Some BB ∧
        (∀ N, N ≠ Name → lookupBB s' N = lookupBB s N) ∧
        UndefinedBlocks s' = <[BB := (Loc, Name)]> (UndefinedBlocks s) ∧
        Blocks (SILMod s') = <[BB := mkBlock (F s) []]> (Blocks (SILMod s)) ∧
        Diags (P s') = Diags (P s) ∧ HadError s' = HadError s.
Proof.
  unfold lookupBB, getBBForReference, bind, subscript. intros Hl.
  destruct (BlocksByName s !! Name) as [[BB'|]|] eqn:E'; simplify_eq/=;
    eexists; (split; [reflexivity|]); simpl;
    repeat split; try (by rewrite lookup_insert_eq);
    intros N HN; rewrite ?lookup_insert_ne by done; done.
Qed.

(** Entering a fresh block under a new name keeps the tables consistent. *)
Lemma consistent_register (s s' : RState) Name Data :
  consistent s →
  lookupBB s Name = None →
  lookupBB s' Name = Some (allocate (dom (Blocks (SILMod s)))) →
  (∀ N, N ≠ Name → lookupBB s' N = lookupBB s N) →
  Blocks (SILMod s') =
    <[allocate (dom (Blocks (SILMod s))) := Data]> (Blocks (SILMod s)) →
  consistent s'.
Proof.
  intros [Hlive Hinj] Hnone Hnew Hother Hheap.
  pose proof (allocate_fresh (dom (Blocks (SILMod s)))) as Hfresh.
  split.
  - intros N BB HN. rewrite Hheap, dom_insert_L.
    destruct (decide (N = Name)) as [->|Hne].
    + rewrite Hnew in HN. simplify_eq. set_solver.
    + rewrite Hother in HN by done. apply Hlive in HN. set_solver.
  - intros N1 N2 BB H1 H2.
    destruct (decide (N1 = Name)) as [->|Hne1];
      destruct (decide (N2 = Name)) as [->|Hne2]; try done.
    + rewrite Hnew in H1. rewrite Hother in H2 by done. simplify_eq.
      by apply Hlive in H2.
    + rewrite Hnew in H2. rewrite Hother in H1 by done. simplify_eq.
      by apply Hlive in H1.
    + rewrite Hother in H1, H2 by done. eauto.
Qed.

Lemma getBBForDefinition_consistent (s : RState) Name Loc :
  consistent s → consistent (getBBForDefinition Name Loc s).2.
Proof.
  intros Hs. destruct (lookupBB s Name) as [BB|] eqn:Hl.
  - destruct (UndefinedBlocks s !! BB) as [E|] eqn:Hu.
    + rewrite (getBBForDefinition_pending s Name Loc BB E) by done.
      destruct Hs as [Hlive Hinj]. split; simpl; eauto.
    + rewrite (getBBForDefinition_redefinition s Name Loc BB) by done.
      destruct Hs as [Hlive Hinj]. split; simpl; [|eauto].
      intros N BB' HN. apply Hlive in HN. unfold SILMod; simpl.
      rewrite dom_insert_L. set_solver.
  - destruct (getBBForDefinition_fresh s Name Loc Hl)
      as (s' & -> & Hnew & Hother & _ & Hheap & _).
    eapply consistent_register; eauto.
Qed.

Lemma getBBForReference_consistent (s : RState) Name Loc :
  consistent s → consistent (getBBForReference Name Loc s).2.
Proof.
  intros Hs. destruct (lookupBB s Name) as [BB|] eqn:Hl.
  - by rewrite (getBBForReference_known s Name Loc BB).
  - destruct (getBBForReference_forward s Name Loc Hl)
      as (s' & -> & Hnew & Hother & _ & Hheap & _).
    eapply consistent_register; eauto.
Qed.

Lemma perform_consistent (a : action) (s : RState) :
  keepsBlocks a → consistent s → consistent (perform a s).
Proof.
  destruct a as [N Loc|N Loc|f]; simpl; intros Hk Hs.
  - by apply getBBForDefinition_consistent.
  - by apply getBBForReference_consistent.
  - destruct Hs as [Hlive Hinj]. split; simpl; [|eauto].
    intros N BB HN. apply Hlive in HN. unfold SILMod; simpl. set_solver.
Qed.

Lemma performAll_consistent (acts : list action) (s : RState) :
  Forall keepsBlocks acts → consistent s → consistent (performAll acts s).
Proof.
  intros Hk. revert s. induction Hk as [|a acts Ha _ IH]; intros s Hs; [done|].
  simpl. apply IH. by apply perform_consistent.
Qed.

(** A forward reference stays pending until its name is defined. *)
Lemma perform_keeps_pending (a : action) (s : RState) Name BB E :
  keepsBlocks a → ¬ defines Name a → consistent s →
  lookupBB s Name = Some BB → UndefinedBlocks s !! BB = Some E →
  lookupBB (perform a s) Name = Some BB ∧
  UndefinedBlocks (perform a s) !! BB = Some E.
Proof.
  intros Hk Hnd Hs Hl Hu. destruct a as [N Loc|N Loc|f]; simpl in *.
  - assert (N ≠ Name) as Hne by (intros ->; by apply Hnd).
    destruct (lookupBB s N) as [BB'|] eqn:HN.
    + assert (BB' ≠ BB) as Hbb.
      { intros ->. apply Hne. eapply (named_inj s Hs); eauto. }
      destruct (UndefinedBlocks s !! BB') as [E'|] eqn:Hu'.
      * rewrite (getBBForDefinition_pending s N Loc BB' E') by done. simpl.
        split; [done|]. by rewrite lookup_delete_ne.
      * by rewrite (getBBForDefinition_redefinition s N Loc BB').
    + destruct (getBBForDefinition_fresh s N Loc HN)
        as (s' & -> & Hnew & Hother & HU & _). simpl.
      rewrite Hother by done. by rewrite HU.
  - destruct (lookupBB s N) as [BB'|] eqn:HN.
    + by rewrite (getBBForReference_known s N Loc BB').
    + assert (N ≠ Name) as Hne by (intros ->; congruence).
      destruct (getBBForReference_forward s N Loc HN)
        as (s' & -> & Hnew & Hother & HU & _). simpl.
      rewrite Hother by done. split; [done|]. rewrite HU.
      rewrite lookup_insert_ne; [done|]. intros Heq.
      apply (named_live s Hs) in Hl. rewrite <- Heq in Hl.
      by apply allocate_fresh in Hl.
  - done.
Qed.

Lemma performAll_keeps_pending (acts : list action) (s : RState) Name BB E :
  Forall keepsBlocks acts → Forall (λ a, ¬ defines Name a) acts →
  consistent s →
  lookupBB s Name = Some BB → UndefinedBlocks s !! BB = Some E →
  lookupBB (performAll acts s) Name = Some BB ∧
  UndefinedBlocks (performAll acts s) !! BB = Some E.
Proof.
  intros Hk. revert s.
  induction Hk as [|a acts Ha _ IH]; intros s Hnd Hs Hl Hu; [done|].
  apply Forall_cons in Hnd as [Hnd1 Hnd2]. simpl.
  destruct (perform_keeps_pending a s Name BB E) as [Hl' Hu']; try done.
  apply IH; try done. by apply perform_consistent.
Qed.

End ResolverFacts.

(** ** Forward reference, then definition *)

Section ResolverClaims.
Context {SILType Decls : Type} `{AR : Arena}.
#[local] Abbreviation RState := (SILParserFunctionState SILType Decls).
#[local] Abbreviation action := (action SILType Decls).

(** C1. A block name that the tables have not seen is referenced, then,
    after any further references, definitions of other names and parser
    activity, defined: the definition returns the very block the
    reference returned, the block was pending until then, and the
    definition removes it from [UndefinedBlocks] without a diagnostic. *)
Theorem reference_then_definition_same_block
    (s : RState) (Name : Identifier) (Loc1 Loc2 : SourceLoc)
    (acts : list action) :
  consistent s →
  lookupBB s Name = None →
  Forall keepsBlocks acts →
  Forall (λ a, ¬ defines Name a) acts →
  ∃ BB s1 s3,
    getBBForReference Name Loc1 s = (Ok BB, s1) ∧
    getBBForDefinition Name Loc2 (performAll acts s1) = (Ok BB, s3) ∧
    UndefinedBlocks (performAll acts s1) !! BB = Some (Loc1, Name) ∧
    UndefinedBlocks s3 = delete BB (UndefinedBlocks (performAll acts s1)) ∧
    UndefinedBlocks s3 !! BB = None ∧
    Diags (P s3) = Diags (P (performAll acts s1)) ∧
    HadError s3 = HadError (performAll acts s1).
Proof.
  intros Hs Hnone Hk Hnd.
  destruct (getBBForReference_forward s Name Loc1 Hnone)
    as (s1 & Hret & Hnew & Hother & HU & Hheap & _).
  set (BB := allocate (dom (Blocks (SILMod s)))) in *.
  assert (consistent s1) as Hs1.
  { eapply consistent_register; eauto. }
  destruct (performAll_keeps_pending acts s1 Name BB (Loc1, Name))
    as [Hl2 Hu2]; try done.
  { rewrite HU. apply lookup_insert_eq. }
  exists BB, s1, (setUndefinedBlocks
                   (delete BB (UndefinedBlocks (performAll acts s1)))
                   (performAll acts s1)).
  split; [done|]. split.
  { by apply getBBForDefinition_pending with (E := (Loc1, Name)). }
  simpl. by rewrite lookup_delete_eq.
Qed.

(** C2. Defining a name that is in the table and not pending: one
    [basicblock_redefinition] diagnostic at the location given, the error
    flag set, and a block at a fresh address that is neither the
    registered block nor entered under any name; the name table, the
    pending set and every block that was live, the registered one with
    its instructions included, are as before. *)
Theorem redefinition_returns_disconnected_block
    (s : RState) (Name : Identifier) (Loc : SourceLoc) (BB : SILBasicBlock) :
  consistent s →
  lookupBB s Name = Some BB →
  UndefinedBlocks s !! BB = None →
  ∃ New s',
    getBBForDefinition Name Loc s = (Ok New, s') ∧
    Diags (P s') = Diags (P s) ++ [(Loc, basicblock_redefinition Name)] ∧
    HadError s' = true ∧
    New ≠ BB ∧
    (New ∉ dom (Blocks (SILMod s))) ∧
    (∀ N, lookupBB s' N ≠ Some New) ∧
    BlocksByName s' = BlocksByName s ∧
    UndefinedBlocks s' = UndefinedBlocks s ∧
    Blocks (SILMod s') !! New = Some (mkBlock (F s) []) ∧
    Blocks (SILMod s') !! BB = Blocks (SILMod s) !! BB ∧
    (∀ B, B ∈ dom (Blocks (SILMod s)) →
          Blocks (SILMod s') !! B = Blocks (SILMod s) !! B).
Proof.
  intros Hs Hl Hu.
  pose proof (allocate_fresh (dom (Blocks (SILMod s)))) as Hfresh.
  pose proof (named_live s Hs Name BB Hl) as Hlive.
  set (New := allocate (dom (Blocks (SILMod s)))) in *.
  assert (New ≠ BB) as Hne by (intros Heq; by rewrite Heq in Hfresh).
  eexists New, _. split.
  { by apply (getBBForDefinition_redefinition s Name Loc BB). }
  unfold SILMod; simpl. repeat split; try done.
  - intros N HN. apply Hfresh. by apply (named_live s Hs N).
  - apply lookup_insert_eq.
  - by apply lookup_insert_ne.
  - intros B HB. apply lookup_insert_ne. intros <-. by apply Hfresh.
Qed.

(** A name keeps the block it was given. *)
Lemma perform_keeps_named (a : action) (s : RState) Name BB :
  lookupBB s Name = Some BB → lookupBB (perform a s) Name = Some BB.
Proof.
  intros Hl. destruct a as [N Loc|N Loc|f]; simpl; [| |done].
  - destruct (lookupBB s N) as [BB'|] eqn:HN.
    + destruct (UndefinedBlocks s !! BB') as [E'|] eqn:Hu'.
      * by rewrite (getBBForDefinition_pending s N Loc BB' E').
      * by rewrite (getBBForDefinition_redefinition s N Loc BB').
    + assert (N ≠ Name) as Hne by (intros ->; congruence).
      destruct (getBBForDefinition_fresh s N Loc HN)
        as (s' & -> & Hnew & Hother & _). simpl. by rewrite Hother.
  - destruct (lookupBB s N) as [BB'|] eqn:HN.
    + by rewrite (getBBForReference_known s N Loc BB').
    + assert (N ≠ Name) as Hne by (intros ->; congruence).
      destruct (getBBForReference_forward s N Loc HN)
        as (s' & -> & Hnew & Hother & _). simpl. by rewrite Hother.
Qed.

Lemma performAll_keeps_named (acts : list action) (s : RState) Name BB :
  lookupBB s Name = Some BB → lookupBB (performAll acts s) Name = Some BB.
Proof.
  revert s. induction acts as [|a acts IH]; intros s Hl; [done|].
  simpl. apply IH. by apply perform_keeps_named.
Qed.

(** C7, as the code has it. After the redefinition of a name, and whatever
    the parse does next, a reference to the name gives the block of the
    first definition: not the placeholder the redefinition returned, and
    not a new block either, since the call changes nothing (no entry is
    added to [UndefinedBlocks]). *)
Theorem reference_after_redefinition_gives_first_block
    (s : RState) (Name : Identifier) (Loc Loc' : SourceLoc)
    (BB : SILBasicBlock) (acts : list action) :
  consistent s →
  lookupBB s Name = Some BB →
  UndefinedBlocks s !! BB = None →
  ∃ Placeholder s1,
    getBBForDefinition Name Loc s = (Ok Placeholder, s1) ∧
    Placeholder ≠ BB ∧
    getBBForReference Name Loc' (performAll acts s1) =
      (Ok BB, performAll acts s1).
Proof.
  intros Hs Hl Hu.
  pose proof (allocate_fresh (dom (Blocks (SILMod s)))) as Hfresh.
  pose proof (named_live s Hs Name BB Hl) as Hlive.
  eexists _, _. split.
  { by apply (getBBForDefinition_redefinition s Name Loc BB). }
  split.
  { intros Heq. by rewrite Heq in Hfresh. }
  apply getBBForReference_known, performAll_keeps_named. done.
Qed.

End ResolverClaims.

(** The statements above at work on the demo state. *)
Lemma reference_then_definition_witness :
  ∃ BB s1 s3,
    getBBForReference (AR := bumpArena) "bb1" 3 demoState = (Ok BB, s1) ∧
    getBBForDefinition (AR := bumpArena) "bb1" 9
      (performAll (AR := bumpArena)
         [Define "bb0" 1; Refer "bb1" 5; ParserStep (addDiags [])] s1)
      = (Ok BB, s3) ∧
    UndefinedBlocks s3 !! BB = None.
Proof.
  destruct (reference_then_definition_same_block (AR := bumpArena)
              demoState "bb1" 3 9
              [Define "bb0" 1; Refer "bb1" 5; ParserStep (addDiags [])])
    as (BB & s1 & s3 & H1 & H2 & _ & _ & H3 & _).
  - apply newState_consistent.
  - reflexivity.
  - repeat constructor. intros p. reflexivity.
  - repeat constructor; simpl; [discriminate|tauto|tauto].
  - exists BB, s1, s3. auto.
Defined.

Lemma redefinition_witness :
  ∃ New s',
    getBBForDefinition (AR := bumpArena) "bb0" 2
      (getBBForDefinition (AR := bumpArena) "bb0" 1 demoState).2 = (Ok New, s') ∧
    Diags (P s') = [(2, basicblock_redefinition "bb0")] ∧
    HadError s' = true ∧
    New ≠ 1%positive.
Proof.
  destruct (redefinition_returns_disconnected_block (AR := bumpArena)
              (getBBForDefinition (AR := bumpArena) "bb0" 1 demoState).2
              "bb0" 2 1%positive)
    as (New & s' & H1 & H2 & H3 & H4 & _).
  - apply getBBForDefinition_consistent, newState_consistent.
  - reflexivity.
  - reflexivity.
  - exists New, s'. auto.
Defined.

Lemma reference_after_redefinition_witness :
  ∃ Placeholder s1,
    getBBForDefinition (AR := bumpArena) "bb0" 2
      (getBBForDefinition (AR := bumpArena) "bb0" 1 demoState).2
      = (Ok Placeholder, s1) ∧
    Placeholder ≠ 1%positive ∧
    getBBForReference (AR := bumpArena) "bb0" 3
      (performAll (AR := bumpArena) [Define "bb1" 4] s1)
      = (Ok 1%positive, performAll (AR := bumpArena) [Define "bb1" 4] s1).
Proof.
  apply (reference_after_redefinition_gives_first_block (AR := bumpArena)
           (getBBForDefinition (AR := bumpArena) "bb0" 1 demoState).2
           "bb0" 2 3 1%positive [Define "bb1" 4]).
  - apply getBBForDefinition_consistent, newState_consistent.
  - reflexivity.
  - reflexivity.
Defined.

(** C7, as stated, fails: [bb0] is defined at 1 and again at 2 (a
    redefinition, diagnosed); the reference at 3 returns block 1, a block
    that was live already, and [UndefinedBlocks] stays empty. *)
Lemma reference_after_redefinition_is_not_forward :
  Diags (P demoRedefined) = [(2, basicblock_redefinition "bb0")] ∧
  getBBForReference (AR := bumpArena) "bb0" 3 demoRedefined
    = (Ok 1%positive, demoRedefined) ∧
  UndefinedBlocks demoRedefined = ∅ ∧
  ¬ treatedAsNewForwardReference (AR := bumpArena) demoRedefined "bb0" 3.
Proof.
  assert (getBBForReference (AR := bumpArena) "bb0" 3 demoRedefined
          = (Ok 1%positive, demoRedefined)) as Hret.
  { by apply getBBForReference_known. }
  split; [reflexivity|]. split; [done|]. split; [reflexivity|].
  intros (BB & s' & Hcall & _ & Hpending).
  rewrite Hret in Hcall. injection Hcall as <- <-.
  discriminate Hpending.
Qed.

(** ** diagnoseProblems *)

Section DiagnoseProblems.
Context {SILType Decls : Type} `{DO : DenseMapOrder}.
#[local] Abbreviation RState := (SILParserFunctionState SILType Decls).

(** The loop of [diagnoseProblems] emits one diagnostic per entry. *)
Lemma forEach_diagnose {A} (l : list A) (loc : A → SourceLoc) (d : A → Diag)
    (s : RState) :
  forEach l (λ x, inP (diagnose (loc x) (d x))) s =
  (Ok tt, setP (addDiags (map (λ x, (loc x, d x)) l) (P s)) s).
Proof.
  revert s. induction l as [|x l IH]; intros s.
  - simpl. unfold ret, setP, addDiags. rewrite app_nil_r. by destruct s as [[]].
  - simpl. unfold bind at 1. unfold inP at 1, zoom, diagnose, modify. simpl.
    rewrite IH. unfold setP, addDiags. simpl. by rewrite <- app_assoc.
Qed.

Lemma diagnoseProblems_pending (s : RState) :
  UndefinedBlocks s ≠ ∅ →
  diagnoseProblems s =
    (Error,
     mkState
       (addDiags (map (λ Entry, (Entry.2.1, undefined_basicblock_use Entry.2.2))
                      (entries (UndefinedBlocks s))) (P s))
       (F s) true (BlocksByName s) (UndefinedBlocks s)
       (S (NumDiagnoseProblems s))).
Proof.
  intros Hne. unfold diagnoseProblems.
  unfold bind at 1. unfold modify at 1.
  unfold bind at 1. unfold gets at 1.
  unfold countDiagnoseProblems at 2. cbn [UndefinedBlocks].
  rewrite bool_decide_eq_true_2 by done.
  unfold bind at 1. unfold bind at 1.
  rewrite forEach_diagnose.
  reflexivity.
Qed.

Lemma diagnoseProblems_none (s : RState) :
  UndefinedBlocks s = ∅ →
  diagnoseProblems s =
    (if HadError s then Error else Ok tt, countDiagnoseProblems s).
Proof.
  intros He. unfold diagnoseProblems.
  unfold bind at 1. unfold modify at 1.
  unfold bind at 1. unfold gets at 1.
  unfold countDiagnoseProblems at 2. cbn [UndefinedBlocks].
  rewrite bool_decide_eq_false_2 by (intros Hc; by apply Hc).
  unfold bind, ret, returnHadError. simpl. by destruct (HadError s).
Qed.



Lemma two_references_then_diagnose (A : Arena) (s : RState) N1 N2 L1 L2 B1 B2 :
  lookupBB s N1 = None → lookupBB s N2 = None → N1 ≠ N2 →
  allocate (dom (Blocks (SILMod s))) = B1 →
  allocate ({[B1]} ∪ dom (Blocks (SILMod s))) = B2 →
  Diags (P ((getBBForReference (AR := A) N1 L1 ;;
             getBBForReference (AR := A) N2 L2 ;;
             diagnoseProblems) s).2)
  = Diags (P s) ++
    map (λ Entry, (Entry.2.1, undefined_basicblock_use Entry.2.2))
        (entries (<[B2 := (L2, N2)]> (<[B1 := (L1, N1)]> (UndefinedBlocks s)))).
Proof.
  intros H1 H2 Hne HB1 HB2.
  destruct (getBBForReference_forward (AR := A) s N1 L1 H1)
    as (s1 & E1 & _ & Ho1 & HU1 & Hh1 & Hd1 & _).
  rewrite <- (Ho1 N2) in H2 by done.
  destruct (getBBForReference_forward (AR := A) s1 N2 L2 H2)
    as (s2 & E2 & _ & _ & HU2 & _ & Hd2 & _).
  rewrite (bind_Ok _ _ _ _ _ E1), (bind_Ok _ _ _ _ _ E2).
  rewrite Hh1, dom_insert_L in HU2. rewrite HB1 in HU1, HU2. rewrite HB2 in HU2.
  rewrite diagnoseProblems_pending.
  - simpl. by rewrite Hd2, Hd1, HU2, HU1.
  - rewrite HU2. apply insert_non_empty.
Qed.

End DiagnoseProblems.
(** C4, against the code. The order of the [undefined_basicblock_use]
    diagnostics is the order in which the table's iterator meets the
    addresses of the pending blocks. Whatever that order is, there are two
    arenas under which the same two forward references, [a] at 1 and then
    [b] at 2, are reported in opposite orders: the sequence is neither
    fixed by the input nor always the order of first reference. *)
Theorem undefined_block_diagnostics_follow_addresses (DO : DenseMapOrder) :
  ∃ A1 A2 : Arena,
    Diags (P ((getBBForReference (AR := A1) "a" 1 ;;
               getBBForReference (AR := A1) "b" 2 ;;
               diagnoseProblems) (newState (demoParser eofToken []))).2)
      = [(1, undefined_basicblock_use "a"); (2, undefined_basicblock_use "b")] ∧
    Diags (P ((getBBForReference (AR := A2) "a" 1 ;;
               getBBForReference (AR := A2) "b" 2 ;;
               diagnoseProblems) (newState (demoParser eofToken []))).2)
      = [(2, undefined_basicblock_use "b"); (1, undefined_basicblock_use "a")].
Proof.
  assert (buckets {[1%positive; 2%positive]} = [1%positive; 2%positive] ∨
          buckets {[1%positive; 2%positive]} = [2%positive; 1%positive]) as Hb.
  { pose proof (buckets_perm {[1%positive; 2%positive]}) as Hp.
    change (elements (_ : gset positive)) with [2%positive; 1%positive] in Hp.
    symmetry in Hp. apply Permutation_length_2_inv in Hp. tauto. }
  assert (∀ E1 E2 : SourceLoc * Identifier,
            dom (<[2%positive := E2]> (<[1%positive := E1]>
                   (∅ : gmap SILBasicBlock (SourceLoc * Identifier))))
            = {[1%positive; 2%positive]}) as Hd12.
  { intros. rewrite !dom_insert_L. set_solver. }
  assert (∀ E1 E2 : SourceLoc * Identifier,
            dom (<[1%positive := E2]> (<[2%positive := E1]>
                   (∅ : gmap SILBasicBlock (SourceLoc * Identifier))))
            = {[1%positive; 2%positive]}) as Hd21.
  { intros. rewrite !dom_insert_L. set_solver. }
  destruct Hb as [Hb|Hb].
  - exists firstLowArena, firstHighArena. split.
    + rewrite (two_references_then_diagnose firstLowArena _ "a" "b" 1 2
                 1%positive 2%positive) by done.
      unfold entries. cbn [UndefinedBlocks newState].
      rewrite Hd12, Hb. reflexivity.
    + rewrite (two_references_then_diagnose firstHighArena _ "a" "b" 1 2
                 2%positive 1%positive) by done.
      unfold entries. cbn [UndefinedBlocks newState].
      rewrite Hd21, Hb. reflexivity.
  - exists firstHighArena, firstLowArena. split.
    + rewrite (two_references_then_diagnose firstHighArena _ "a" "b" 1 2
                 2%positive 1%positive) by done.
      unfold entries. cbn [UndefinedBlocks newState].
      rewrite Hd21, Hb. reflexivity.
    + rewrite (two_references_then_diagnose firstLowArena _ "a" "b" 1 2
                 1%positive 2%positive) by done.
      unfold entries. cbn [UndefinedBlocks newState].
      rewrite Hd12, Hb. reflexivity.
Qed.

Lemma undefined_block_diagnostics_witness :
  ∃ A1 A2 : Arena,
    Diags (P ((getBBForReference (AR := A1) "a" 1 ;;
               getBBForReference (AR := A1) "b" 2 ;;
               diagnoseProblems (DO := elementsOrder))
                (newState (demoParser eofToken []))).2)
    ≠ Diags (P ((getBBForReference (AR := A2) "a" 1 ;;
                 getBBForReference (AR := A2) "b" 2 ;;
                 diagnoseProblems (DO := elementsOrder))
                  (newState (demoParser eofToken []))).2).
Proof.
  destruct (undefined_block_diagnostics_follow_addresses elementsOrder)
    as (A1 & A2 & H1 & H2).
  exists A1, A2. rewrite H1, H2. discriminate.
Defined.

(** ** Tokens, linkage, opcodes and types *)

Section TokenFacts.
Context {SILType Decls : Type}.
#[local] Abbreviation Parser := (Parser SILType Decls).

Lemma is_true K T : getKind T = K → is_ K T = true.
Proof. intros. unfold is_. by apply bool_decide_eq_true_2. Qed.

Lemma is_false K T : getKind T ≠ K → is_ K T = false.
Proof. intros. unfold is_. by apply bool_decide_eq_false_2. Qed.

Lemma isNot_true K T : getKind T ≠ K → isNot K T = true.
Proof. intros. unfold isNot. by rewrite is_false. Qed.

Lemma isNot_false K T : getKind T = K → isNot K T = false.
Proof. intros. unfold isNot. by rewrite is_true. Qed.

Lemma P_setP (p : Parser) (s : SILParserFunctionState SILType Decls) :
  P (setP p s) = p.
Proof. done. Qed.

Lemma setP_setP (p q : Parser) (s : SILParserFunctionState SILType Decls) :
  setP p (setP q s) = setP p s.
Proof. done. Qed.

(** Steps of the token stream with a known next token. *)
Lemma inP_consumeTokenOfKind K (s : SILParserFunctionState SILType Decls) T Rest :
  getKind (Tok (P s)) = K → L (P s) = T :: Rest →
  inP (consumeTokenOfKind K) s =
    (Ok (getLoc (Tok (P s))), setP (setToken T Rest (P s)) s).
Proof.
  intros Hk HL. unfold inP, zoom, consumeTokenOfKind, consumeToken.
  by rewrite is_true, HL.
Qed.

Lemma inP_parseToken K D (s : SILParserFunctionState SILType Decls) T Rest :
  getKind (Tok (P s)) = K → L (P s) = T :: Rest →
  inP (parseToken K D) s =
    (Ok (getLoc (Tok (P s))), setP (setToken T Rest (P s)) s).
Proof.
  intros Hk HL. unfold inP, zoom, parseToken, consumeToken.
  by rewrite is_true, HL.
Qed.

Lemma inP_parseIdentifier D (s : SILParserFunctionState SILType Decls) T Rest :
  getKind (Tok (P s)) = tok_identifier → L (P s) = T :: Rest →
  inP (parseIdentifier D) s =
    (Ok (getText (Tok (P s)), getLoc (Tok (P s))),
     setP (setToken T Rest (P s)) s).
Proof.
  intros Hk HL. unfold inP, zoom, parseIdentifier, bind, consumeToken, ret.
  by rewrite is_true, HL.
Qed.

(** Consuming moves to the lookahead token. *)
Lemma consumeToken_peek (p : Parser) :
  consumeToken p = (Ok (getLoc (Tok p)), (consumeToken p).2) ∧
  Tok (consumeToken p).2 = peekToken p ∧
  L (consumeToken p).2 = tail (L p) ∧
  Diags (consumeToken p).2 = Diags p ∧
  TU (consumeToken p).2 = TU p ∧
  SIL (consumeToken p).2 = SIL p.
Proof.
  unfold consumeToken, peekToken, lex. by destruct (L p).
Qed.

End TokenFacts.

Section ParsingClaims.
Context `{FE : Frontend} `{AR : Arena} `{DO : DenseMapOrder}.
#[local] Abbreviation Parser' := (Parser SILType Decls).
#[local] Abbreviation State' := (SILParserFunctionState SILType Decls).

(** [parseSILLinkage] as a function of the kind and text of the current
    token. *)
Lemma parseSILLinkage_unfold (p : Parser') :
  parseSILLinkage p =
    if decide (getKind (Tok p) = tok_identifier) then
      if decide (getText (Tok p) = "internal") then
        (Ok Internal, (consumeToken p).2)
      else if decide (getText (Tok p) = "clang_thunk") then
        (Ok ClangThunk, (consumeToken p).2)
      else
        (Error, addDiags [(getLoc (Tok p), expected_sil_linkage_or_function)] p)
    else (Ok External, p).
Proof.
  unfold parseSILLinkage.
  destruct (decide (getKind (Tok p) = tok_identifier)) as [Hk|Hk].
  - rewrite isNot_false by done.
    unfold bind, consumeTokenOfKind. rewrite is_true by done.
    destruct (consumeToken_peek p) as [-> _].
    by repeat case_decide.
  - by rewrite isNot_true.
Qed.

(** C9. [parseSILLinkage]: a token that is not an identifier gives
    [External] and nothing is consumed; the identifiers [internal] and
    [clang_thunk] give [Internal] and [ClangThunk] and are consumed; any
    other identifier is reported with [expected_sil_linkage_or_function]
    and the function fails. *)
Theorem parseSILLinkage_cases (p : Parser') :
  (getKind (Tok p) ≠ tok_identifier →
     parseSILLinkage p = (Ok External, p)) ∧
  (getKind (Tok p) = tok_identifier → getText (Tok p) = "internal" →
     parseSILLinkage p = (Ok Internal, (consumeToken p).2)) ∧
  (getKind (Tok p) = tok_identifier → getText (Tok p) = "clang_thunk" →
     parseSILLinkage p = (Ok ClangThunk, (consumeToken p).2)) ∧
  (getKind (Tok p) = tok_identifier →
   getText (Tok p) ≠ "internal" → getText (Tok p) ≠ "clang_thunk" →
     parseSILLinkage p =
       (Error, addDiags [(getLoc (Tok p), expected_sil_linkage_or_function)] p)).
Proof.
  rewrite parseSILLinkage_unfold. split; [|split; [|split]].
  - intros Hk. by rewrite decide_False.
  - intros Hk Ht. by rewrite !decide_True.
  - intros Hk Ht. rewrite decide_True by done.
    rewrite decide_False by (rewrite Ht; discriminate).
    by rewrite decide_True.
  - intros Hk Ht1 Ht2. rewrite decide_True by done.
    by rewrite !decide_False.
Qed.

(** C5. [parseSILOpcode] looks at the text of the current token only:
    [tuple] and [return] give their opcode, with the location and text of
    the token, and the token is consumed; every other text fails with
    [expected_sil_instr_opcode] at the token and the token stays; and two
    states whose current tokens have the same text, whatever their kinds
    and whatever else differs, get the same outcome. *)
Theorem parseSILOpcode_textual (s : State') :
  (getText (Tok (P s)) = "tuple" →
     parseSILOpcode s =
       (Ok (TupleInst, getLoc (Tok (P s)), "tuple"),
        setP (consumeToken (P s)).2 s)) ∧
  (getText (Tok (P s)) = "return" →
     parseSILOpcode s =
       (Ok (ReturnInst, getLoc (Tok (P s)), "return"),
        setP (consumeToken (P s)).2 s)) ∧
  (getText (Tok (P s)) ≠ "tuple" → getText (Tok (P s)) ≠ "return" →
     parseSILOpcode s =
       (Error,
        setP (addDiags [(getLoc (Tok (P s)), expected_sil_instr_opcode)] (P s)) s) ∧
     Tok (P (parseSILOpcode s).2) = Tok (P s) ∧
     L (P (parseSILOpcode s).2) = L (P s)) ∧
  (∀ s2 : State',
     getText (Tok (P s2)) = getText (Tok (P s)) →
     (parseSILOpcode s2).1 =
       match (parseSILOpcode s).1 with
       | Ok (Opcode, _, OpcodeName) =>
           Ok (Opcode, getLoc (Tok (P s2)), OpcodeName)
       | r => r
       end).
Proof.
  assert (∀ s : State', parseSILOpcode s =
            if bool_decide (StringSwitch (getText (Tok (P s))) ≠ SILArgument)
            then (Ok (StringSwitch (getText (Tok (P s))),
                      getLoc (Tok (P s)), getText (Tok (P s))),
                  setP (consumeToken (P s)).2 s)
            else (Error,
                  setP (addDiags [(getLoc (Tok (P s)), expected_sil_instr_opcode)]
                                 (P s)) s)) as Hunfold.
  { intros s0. unfold parseSILOpcode, bind, curTok, gets.
    case_bool_decide; [|done].
    unfold inP, zoom. by destruct (consumeToken_peek (P s0)) as [-> _]. }
  repeat split.
  - intros Ht. rewrite Hunfold, Ht. reflexivity.
  - intros Ht. rewrite Hunfold, Ht. reflexivity.
  - rewrite Hunfold. unfold StringSwitch. by rewrite !decide_False by done.
  - rewrite Hunfold. unfold StringSwitch. by rewrite !decide_False by done.
  - rewrite Hunfold. unfold StringSwitch. by rewrite !decide_False by done.
  - intros s2 Ht. rewrite !Hunfold, Ht. by case_bool_decide.
Qed.


(** An attribute list that opens with an attribute the parser does not
    know: the bracket and the attribute name are consumed, and the name
    is reported where it stands. *)
Lemma parseSILType_unknown_attribute (s : State') :
  getKind (Tok (P s)) = tok_l_square →
  getKind (peekToken (P s)) = tok_identifier →
  startswith "sil_" (getText (peekToken (P s))) = true →
  getText (peekToken (P s)) ≠ "sil_sret" →
  getText (peekToken (P s)) ≠ "sil_uncurry" →
  parseSILType s =
    (Error,
     setP (addDiags [(getLoc (peekToken (P s)), unknown_sil_type_attribute)]
                    (consumeToken (consumeToken (P s)).2).2) s).
Proof.
  intros Hk Hpk Hpre Hn1 Hn2.
  destruct (consumeToken_peek (P s)) as (Hc & HTok & _).
  unfold parseSILType. unfold bind at 1. unfold gets at 1.
  rewrite (is_true _ _ Hk), (is_true _ _ Hpk), Hpre. cbn [andb].
  unfold bind at 1. unfold bind at 1. cbn [parseSILTypeAttributes].
  unfold bind at 1. unfold inP at 1, zoom. rewrite Hc. cbn [fst snd P setP].
  unfold bind at 1. unfold inP at 1, zoom. rewrite P_setP.
  unfold parseIdentifier. rewrite HTok, (is_true _ _ Hpk).
  unfold bind at 1.
  destruct (consumeToken_peek (consumeToken (P s)).2) as (Hc2 & _).
  rewrite Hc2. unfold ret at 1. rewrite setP_setP. cbn [fst snd].
  rewrite !decide_False by done.
  reflexivity.
Qed.

(** C10. A [[] whose lookahead is not an identifier that begins with
    [sil_] does not open an attribute list: nothing is consumed and the
    type is refused with [expected_sil_type] at the bracket. *)
Theorem parseSILType_bracket_without_sil_attribute (s : State') :
  getKind (Tok (P s)) = tok_l_square →
  ¬ (getKind (peekToken (P s)) = tok_identifier ∧
     startswith "sil_" (getText (peekToken (P s))) = true) →
  parseSILType s =
    (Error, setP (addDiags [(getLoc (Tok (P s)), expected_sil_type)] (P s)) s).
Proof.
  intros Hk Hno.
  assert (is_ tok_l_square (Tok (P s)) && is_ tok_identifier (peekToken (P s)) &&
          startswith "sil_" (getText (peekToken (P s))) = false) as Hcond.
  { rewrite (is_true _ _ Hk). cbn [andb]. unfold is_.
    case_bool_decide; [|done]. cbn [andb].
    destruct (startswith _ _) eqn:E; [|done]. by destruct Hno. }
  unfold parseSILType. unfold bind at 1. unfold gets at 1.
  rewrite Hcond. unfold bind at 1. unfold ret at 1.
  unfold bind at 1. unfold curTok at 1, gets at 1.
  unfold isAnyOperator. rewrite !is_false by (rewrite Hk; discriminate).
  cbn [orb andb]. unfold bind at 1. unfold ret at 1.
  unfold bind at 1. unfold inP at 1, zoom, parseToken.
  rewrite is_false by (rewrite Hk; discriminate). reflexivity.
Qed.



(** The declaration up to the type: [sil], an optional linkage, [@], the
    name and the colon are consumed, and the type is parsed from there. *)
Lemma parseDeclSILHeader_to_type (s : State') (Linkage : list Token)
    (At Name Colon T : Token) (Rest : list Token) :
  getKind (Tok (P s)) = tok_kw_sil →
  L (P s) = Linkage ++ At :: Name :: Colon :: T :: Rest →
  Forall (λ T, getKind T = tok_identifier ∧
               (getText T = "internal" ∨ getText T = "clang_thunk")) Linkage →
  length Linkage ≤ 1 →
  getKind At = tok_sil_at_sign →
  getKind Name = tok_identifier →
  getKind Colon = tok_colon →
  ∃ FnLinkage,
    parseDeclSILHeader s =
      (FnType <- parseSILType ;;
       Fn <- newSILFunction FnLinkage (getText Name) FnType ;;
       modify (setF (Some Fn))) (setP (setToken T Rest (P s)) s).
Proof.
  intros Hk HL HF Hlen HAt HName HColon. unfold parseDeclSILHeader.
  destruct Linkage as [|Lk [|? ?]]; [| |simpl in Hlen; lia]; simpl in HL.
  - exists External.
    erewrite bind_Ok by (by eapply inP_consumeTokenOfKind).
    erewrite bind_Ok; cycle 1.
    { unfold inP, zoom. rewrite P_setP.
      rewrite parseSILLinkage_unfold, decide_False; [reflexivity|].
      cbn [Tok setToken]. rewrite HAt. discriminate. }
    rewrite setP_setP.
    erewrite bind_Ok by (by eapply inP_parseToken).
    erewrite bind_Ok by (by eapply inP_parseIdentifier).
    erewrite bind_Ok by (by eapply inP_parseToken).
    rewrite !P_setP, !setP_setP. reflexivity.
  - apply Forall_cons in HF as [[HkL HtL] _].
    assert (∃ FnLinkage,
              parseSILLinkage (setToken Lk (At :: Name :: Colon :: T :: Rest) (P s))
              = (Ok FnLinkage, setToken At (Name :: Colon :: T :: Rest) (P s)))
      as [FnLinkage HLk].
    { rewrite parseSILLinkage_unfold. cbn [Tok setToken].
      rewrite decide_True by done.
      destruct HtL as [HtL|HtL]; rewrite HtL; by eexists. }
    exists FnLinkage.
    erewrite bind_Ok by (by eapply inP_consumeTokenOfKind).
    erewrite bind_Ok; cycle 1.
    { unfold inP, zoom. rewrite P_setP, HLk. reflexivity. }
    rewrite setP_setP.
    erewrite bind_Ok by (by eapply inP_parseToken).
    erewrite bind_Ok by (by eapply inP_parseIdentifier).
    erewrite bind_Ok by (by eapply inP_parseToken).
    rewrite !P_setP, !setP_setP. reflexivity.
Qed.

(** C8. A type that opens with the attribute list [[sil_bogus]]:
    [parseSILType] fails with [unknown_sil_type_attribute] at the location
    of the token [sil_bogus]; and a declaration [sil linkage? @name :
    [sil_bogus ...] fails with that one diagnostic, leaving the module's
    function list as it was and [F] null. *)
Theorem sil_bogus_attribute_fails_declaration :
  (∀ s : State',
     getKind (Tok (P s)) = tok_l_square →
     getKind (peekToken (P s)) = tok_identifier →
     getText (peekToken (P s)) = "sil_bogus" →
     (parseSILType s).1 = Error ∧
     Diags (P (parseSILType s).2) =
       Diags (P s) ++ [(getLoc (peekToken (P s)), unknown_sil_type_attribute)]) ∧
  (∀ (p : Parser') (Linkage : list Token) (At Name Colon LSquare Attr : Token)
     (Rest : list Token),
     getKind (Tok p) = tok_kw_sil →
     L p = Linkage ++ At :: Name :: Colon :: LSquare :: Attr :: Rest →
     Forall (λ T, getKind T = tok_identifier ∧
                  (getText T = "internal" ∨ getText T = "clang_thunk")) Linkage →
     length Linkage ≤ 1 →
     getKind At = tok_sil_at_sign →
     getKind Name = tok_identifier →
     getKind Colon = tok_colon →
     getKind LSquare = tok_l_square →
     getKind Attr = tok_identifier →
     getText Attr = "sil_bogus" →
     (parseDeclSIL p).1 = Error ∧
     Diags (P (parseDeclSIL p).2) =
       Diags p ++ [(getLoc Attr, unknown_sil_type_attribute)] ∧
     Functions (SILMod (parseDeclSIL p).2) = Functions (SIL p) ∧
     F (parseDeclSIL p).2 = None).
Proof.
  split.
  - intros s Hk Hpk Ht.
    rewrite parseSILType_unknown_attribute; try done.
    + split; [done|]. cbn [snd]. rewrite P_setP.
      destruct (consumeToken_peek (consumeToken (P s)).2) as (_ & _ & _ & H2 & _).
      destruct (consumeToken_peek (P s)) as (_ & _ & _ & H1 & _).
      unfold addDiags. cbn [Diags]. by rewrite H2, H1.
    + by rewrite Ht.
    + by rewrite Ht.
    + by rewrite Ht.
  - intros p Linkage At Name Colon LSquare Attr Rest
      Hk HL HF Hlen HAt HName HColon HLSquare HAttr HText.
    set (s0 := newState (setInSILBody true p) : State').
    destruct (parseDeclSILHeader_to_type s0 Linkage At Name Colon LSquare
                (Attr :: Rest)) as [FnLinkage Hheader]; try done.
    set (s1 := setP (setToken LSquare (Attr :: Rest) (P s0)) s0) in Hheader.
    assert (parseSILType s1 =
              (Error,
               setP (addDiags [(getLoc Attr, unknown_sil_type_attribute)]
                              (consumeToken (consumeToken (P s1)).2).2) s1))
      as Htype.
    { apply (parseSILType_unknown_attribute s1);
        change (peekToken (P s1)) with Attr; try rewrite HText; done. }
    unfold parseDeclSIL. fold s0.
    rewrite (bind_Error _ _ _ _ (eq_trans Hheader (bind_Error _ _ _ _ Htype))).
    cbn [fst snd].
    destruct (consumeToken_peek (consumeToken (P s1)).2)
      as (_ & _ & _ & Hd2 & _ & Hs2).
    destruct (consumeToken_peek (P s1)) as (_ & _ & _ & Hd1 & _ & Hs1).
    repeat split.
    + rewrite !P_setP. unfold setInSILBody, addDiags. cbn [Diags].
      by rewrite Hd2, Hd1.
    + unfold SILMod. rewrite !P_setP. unfold setInSILBody, addDiags.
      cbn [SIL]. by rewrite Hs2, Hs1.
Qed.

End ParsingClaims.

(** The statements above on inputs of the demo front end. *)
Lemma parseSILLinkage_witness :
  parseSILLinkage (FE := demoFrontend)
    (demoParser (tk tok_sil_at_sign "@" 4) [tk tok_identifier "f" 5])
  = (Ok External, demoParser (tk tok_sil_at_sign "@" 4) [tk tok_identifier "f" 5]) ∧
  parseSILLinkage (FE := demoFrontend)
    (demoParser (tk tok_identifier "internal" 4) [tk tok_sil_at_sign "@" 13])
  = (Ok Internal, demoParser (tk tok_sil_at_sign "@" 13) []) ∧
  parseSILLinkage (FE := demoFrontend)
    (demoParser (tk tok_identifier "clang_thunk" 4) [tk tok_sil_at_sign "@" 16])
  = (Ok ClangThunk, demoParser (tk tok_sil_at_sign "@" 16) []) ∧
  parseSILLinkage (FE := demoFrontend)
    (demoParser (tk tok_identifier "public" 4) [tk tok_sil_at_sign "@" 11])
  = (Error,
     addDiags [(4, expected_sil_linkage_or_function)]
       (demoParser (tk tok_identifier "public" 4) [tk tok_sil_at_sign "@" 11])).
Proof.
  split; [|split; [|split]].
  - by apply (parseSILLinkage_cases (FE := demoFrontend)).
  - by apply (parseSILLinkage_cases (FE := demoFrontend)
                (demoParser (tk tok_identifier "internal" 4)
                            [tk tok_sil_at_sign "@" 13])).
  - by apply (parseSILLinkage_cases (FE := demoFrontend)
                (demoParser (tk tok_identifier "clang_thunk" 4)
                            [tk tok_sil_at_sign "@" 16])).
  - by apply (parseSILLinkage_cases (FE := demoFrontend)).
Defined.

Lemma parseSILOpcode_witness :
  (parseSILOpcode (FE := demoFrontend)
     (demoStateAt (tk tok_kw_return "return" 30) [tk tok_sil_dollar "$" 37])).1
  = Ok (ReturnInst, 30, "return") ∧
  (parseSILOpcode (FE := demoFrontend)
     (demoStateAt (tk tok_identifier "tuple" 30) [tk tok_l_paren "(" 36])).1
  = Ok (TupleInst, 30, "tuple") ∧
  parseSILOpcode (FE := demoFrontend)
    (demoStateAt (tk tok_identifier "branch" 30) [tk tok_identifier "bb1" 37])
  = (Error,
     setP (addDiags [(30, expected_sil_instr_opcode)]
             (demoParser (tk tok_identifier "branch" 30)
                         [tk tok_identifier "bb1" 37]))
          (demoStateAt (tk tok_identifier "branch" 30)
                       [tk tok_identifier "bb1" 37])).
Proof.
  split; [|split].
  - destruct (parseSILOpcode_textual (FE := demoFrontend)
                (demoStateAt (tk tok_kw_return "return" 30)
                             [tk tok_sil_dollar "$" 37])) as (_ & H & _).
    by rewrite H.
  - destruct (parseSILOpcode_textual (FE := demoFrontend)
                (demoStateAt (tk tok_identifier "tuple" 30)
                             [tk tok_l_paren "(" 36])) as (H & _).
    by rewrite H.
  - by apply (parseSILOpcode_textual (FE := demoFrontend)
                (demoStateAt (tk tok_identifier "branch" 30)
                             [tk tok_identifier "bb1" 37])).
Defined.

Lemma parseSILType_plain_bracket_witness :
  parseSILType (FE := demoFrontend)
    (demoStateAt (tk tok_l_square "[" 9)
                 [tk tok_identifier "bogus" 10; tk tok_r_square "]" 15])
  = (Error,
     setP (addDiags [(9, expected_sil_type)]
             (demoParser (tk tok_l_square "[" 9)
                [tk tok_identifier "bogus" 10; tk tok_r_square "]" 15]))
          (demoStateAt (tk tok_l_square "[" 9)
             [tk tok_identifier "bogus" 10; tk tok_r_square "]" 15])).
Proof.
  apply (parseSILType_bracket_without_sil_attribute (FE := demoFrontend)
           (demoStateAt (tk tok_l_square "[" 9)
              [tk tok_identifier "bogus" 10; tk tok_r_square "]" 15])).
  - reflexivity.
  - intros [_ Hprefix]. discriminate Hprefix.
Defined.

Lemma sil_bogus_attribute_witness :
  (parseDeclSIL (FE := demoFrontend) (AR := bumpArena) (DO := elementsOrder)
     (demoParser (tk tok_kw_sil "sil" 0) declWithBogusAttribute)).1 = Error ∧
  Diags (P (parseDeclSIL (FE := demoFrontend) (AR := bumpArena)
              (DO := elementsOrder)
              (demoParser (tk tok_kw_sil "sil" 0) declWithBogusAttribute)).2)
  = [(10, unknown_sil_type_attribute)] ∧
  Functions (SILMod (parseDeclSIL (FE := demoFrontend) (AR := bumpArena)
                       (DO := elementsOrder)
                       (demoParser (tk tok_kw_sil "sil" 0)
                                   declWithBogusAttribute)).2) = [].
Proof.
  destruct (sil_bogus_attribute_fails_declaration (FE := demoFrontend)
              (AR := bumpArena) (DO := elementsOrder)) as [_ H].
  pose proof (H (demoParser (tk tok_kw_sil "sil" 0) declWithBogusAttribute) []
                (tk tok_sil_at_sign "@" 4) (tk tok_identifier "f" 5)
                (tk tok_colon ":" 7) (tk tok_l_square "[" 9)
                (tk tok_identifier "sil_bogus" 10)
                [tk tok_r_square "]" 19; tk tok_sil_dollar "$" 21;
                 tk tok_identifier "T" 22]
                eq_refl eq_refl (List.Forall_nil _) (Nat.le_0_l 1)
                eq_refl eq_refl eq_refl eq_refl eq_refl eq_refl)
    as (H1 & H2 & H3 & _).
  exact (conj H1 (conj H2 H3)).
Defined.

(** ** What a computation leaves alone *)

Section Preserves.
Context {S X : Type} (f : S → X).

Lemma preserves_ret {A} (a : A) : preserves f (ret a).
Proof. done. Qed.
Lemma preserves_fail {A} : preserves f (@fail S A).
Proof. done. Qed.
Lemma preserves_abort {A} : preserves f (@abort S A).
Proof. done. Qed.
Lemma preserves_out_of_fuel {A} : preserves f (@out_of_fuel S A).
Proof. done. Qed.
Lemma preserves_gets {A} (g : S → A) : preserves f (gets g).
Proof. done. Qed.

Lemma preserves_bind {A B} (c : M S A) (k : A → M S B) :
  preserves f c → (∀ a, preserves f (k a)) → preserves f (bind c k).
Proof.
  intros Hc Hk s. unfold bind. specialize (Hc s).
  destruct (c s) as [[a| | |] s1]; simpl in *; try done.
  by rewrite Hk.
Qed.

Lemma preserves_modify (g : S → S) :
  (∀ s, f (g s) = f s) → preserves f (modify g).
Proof. intros Hg s. apply Hg. Qed.

Lemma preserves_ignoreResult {A} (c : M S A) :
  preserves f c → preserves f (ignoreResult c).
Proof.
  intros Hc s. unfold ignoreResult. specialize (Hc s).
  by destruct (c s) as [[a| | |] s1].
Qed.
End Preserves.

Section PreservesParser.
Context {SILType Decls X : Type} (g : Parser SILType Decls → X).
Hypothesis g_setToken : ∀ T Rest p, g (setToken T Rest p) = g p.
Hypothesis g_addDiags : ∀ ds p, g (addDiags ds p) = g p.

Lemma preserves_consumeToken : preserves g consumeToken.
Proof using g_setToken.
  intros p. unfold consumeToken. destruct (lex _ _). apply g_setToken.
Qed.

Lemma preserves_diagnose Loc D : preserves g (diagnose Loc D).
Proof using g_addDiags. intros p. apply g_addDiags. Qed.

Lemma preserves_consumeTokenOfKind K : preserves g (consumeTokenOfKind K).
Proof using g_setToken.
  intros p. unfold consumeTokenOfKind. destruct (is_ K (Tok p)); [|done].
  apply preserves_consumeToken.
Qed.

Lemma preserves_consumeIf K : preserves g (consumeIf K).
Proof using g_setToken.
  intros p. unfold consumeIf. destruct (is_ K (Tok p)); [|done].
  apply preserves_bind; [apply preserves_consumeToken|done].
Qed.

Lemma preserves_parseToken K D : preserves g (parseToken K D).
Proof using g_setToken g_addDiags.
  intros p. unfold parseToken. destruct (is_ K (Tok p)).
  - apply preserves_consumeToken.
  - apply preserves_bind; [apply preserves_diagnose|done].
Qed.

Lemma preserves_parseIdentifier D : preserves g (parseIdentifier D).
Proof using g_setToken g_addDiags.
  intros p. unfold parseIdentifier. destruct (is_ _ (Tok p)).
  - apply preserves_bind; [apply preserves_consumeToken|done].
  - apply preserves_bind; [apply preserves_diagnose|done].
Qed.

Lemma preserves_parseMatchingToken K D Loc :
  preserves g (parseMatchingToken K D Loc).
Proof using g_setToken g_addDiags.
  intros p. unfold parseMatchingToken. destruct (is_ K (Tok p)).
  - apply preserves_consumeToken.
  - apply preserves_bind; [apply preserves_diagnose|intros _].
    apply preserves_bind; [apply preserves_diagnose|done].
Qed.

(** A member function's call into the parser changes what the call
    changes, and nothing else of the function state. *)
Lemma preserves_inP {A} (c : M (Parser SILType Decls) A) :
  preserves g c → preserves (λ s, g (P s)) (inP c).
Proof.
  intros Hc s. unfold inP, zoom. specialize (Hc (P s)).
  by destruct (c (P s)).
Qed.

Lemma preserves_inP_frame {A Y} (h : SILParserFunctionState SILType Decls → Y)
    (c : M (Parser SILType Decls) A) :
  (∀ p s, h (setP p s) = h s) → preserves h (inP c).
Proof.
  intros Hh s. unfold inP, zoom. destruct (c (P s)). apply Hh.
Qed.
End PreservesParser.

Ltac preserves_branch :=
  match goal with
  | |- preserves _ (if ?c then _ else _) => destruct c
  | |- preserves _ (match ?x with _ => _ end) => destruct x
  end.

Ltac preserves_parser :=
  first [ apply preserves_consumeToken | apply preserves_consumeTokenOfKind
        | apply preserves_consumeIf | apply preserves_parseToken
        | apply preserves_parseIdentifier | apply preserves_parseMatchingToken
        | apply preserves_diagnose ]; done.

Ltac preserves_step tac :=
  first [ apply preserves_ret | apply preserves_fail | apply preserves_abort
        | apply preserves_out_of_fuel | apply preserves_gets
        | tac
        | apply preserves_bind; [|intros ?]
        | preserves_branch ].

Section StageClaims.
Context `{FE : Frontend} `{AR : Arena} `{DO : DenseMapOrder}.
#[local] Abbreviation Parser' := (Parser SILType Decls).
#[local] Abbreviation State' := (SILParserFunctionState SILType Decls).

Lemma typeCheckingScope_effect (Ty : TypeLoc) (p : Parser') :
  ASTStage (TU p) = Parsing →
  ∃ Err Ty' tu ds,
    performTypeLocChecking (setASTStage Parsed (TU p)) Ty = (Err, Ty', tu, ds) ∧
    typeCheckingScope Ty p =
      (if Err : bool then Error else Ok Ty',
       mkParser (Tok p) (L p) (EofLoc p) (Diags p ++ ds)
                (mkTU Parsing (TUDecls tu)) (SIL p) (InSILBody p)).
Proof.
  intros Hst. unfold typeCheckingScope. rewrite bool_decide_eq_true_2 by done.
  cbn [TU setTU].
  destruct (performTypeLocChecking _ Ty) as [[[Err Ty'] tu] ds].
  exists Err, Ty', tu, ds. split; [done|]. rewrite Hst.
  by destruct Err.
Qed.

Lemma preserves_typeCheckingScope (Ty : TypeLoc) :
  preserves stage (typeCheckingScope Ty).
Proof.
  intros p. unfold typeCheckingScope. case_bool_decide as Hst; [|done].
  cbn [TU setTU].
  destruct (performTypeLocChecking _ Ty) as [[[Err Ty'] tu] ds].
  by destruct Err.
Qed.

Section Traversal.
Context {X : Type} (f : State' → X).
Hypothesis f_token : ∀ A (c : M Parser' A),
  (∀ Y (g : Parser' → Y),
     (∀ T Rest p, g (setToken T Rest p) = g p) →
     (∀ ds p, g (addDiags ds p) = g p) → preserves g c) →
  preserves f (inP c).
Hypothesis f_parseType : ∀ D, preserves f (inP (parseType D)).
Hypothesis f_scope : ∀ Ty, preserves f (inP (typeCheckingScope Ty)).
Hypothesis f_definition : ∀ Name Loc, preserves f (getBBForDefinition Name Loc).
Hypothesis f_function : ∀ Linkage Name Ty,
  preserves f (newSILFunction Linkage Name Ty).
Hypothesis f_setF : ∀ Fn, preserves f (modify (setF Fn)).

Ltac token_call :=
  apply f_token; intros Y g Hg1 Hg2;
  first [ apply preserves_consumeToken | apply preserves_consumeTokenOfKind
        | apply preserves_consumeIf | apply preserves_parseToken
        | apply preserves_parseIdentifier | apply preserves_parseMatchingToken
        | apply preserves_diagnose ]; done.

Lemma preserves_parseSILTypeAttributes fuel IsSRet UncurryLevel :
  preserves f (parseSILTypeAttributes fuel IsSRet UncurryLevel).
Proof using f_token.
  revert IsSRet UncurryLevel. induction fuel as [|fuel IH]; intros IsSRet U.
  - apply preserves_out_of_fuel.
  - cbn [parseSILTypeAttributes]. unfold curTok.
    repeat preserves_step ltac:(first [token_call | apply IH]).
Qed.

Lemma preserves_parseSILType : preserves f parseSILType.
Proof using f_token f_parseType f_scope.
  unfold parseSILType, curTok.
  repeat preserves_step
    ltac:(first [token_call | apply preserves_parseSILTypeAttributes
                | apply f_parseType | apply f_scope]).
Qed.

Lemma preserves_parseTypedValueRef : preserves f parseTypedValueRef.
Proof using f_token f_parseType f_scope.
  unfold parseTypedValueRef.
  repeat preserves_step ltac:(first [token_call | apply preserves_parseSILType]).
Qed.

Lemma preserves_parseSILOpcode : preserves f parseSILOpcode.
Proof using f_token.
  unfold parseSILOpcode, curTok. repeat preserves_step ltac:(token_call).
Qed.

Lemma preserves_parseTupleOperands fuel : preserves f (parseTupleOperands fuel).
Proof using f_token f_parseType f_scope.
  induction fuel as [|fuel IH]; [apply preserves_out_of_fuel|].
  cbn [parseTupleOperands]. unfold curTok.
  repeat preserves_step
    ltac:(first [apply preserves_parseTypedValueRef | apply IH]).
Qed.

Lemma preserves_parseSILInstruction BB : preserves f (parseSILInstruction BB).
Proof using f_token f_parseType f_scope.
  unfold parseSILInstruction, curTok.
  repeat preserves_step
    ltac:(first [ token_call | apply preserves_parseSILOpcode
                | apply preserves_parseTupleOperands
                | apply preserves_parseTypedValueRef ]).
Qed.

Lemma preserves_parseInstructions fuel BB :
  preserves f (parseInstructions fuel BB).
Proof using f_token f_parseType f_scope.
  induction fuel as [|fuel IH]; [apply preserves_out_of_fuel|].
  cbn [parseInstructions]. unfold curTok.
  repeat preserves_step
    ltac:(first [apply preserves_parseSILInstruction | apply IH]).
Qed.

Lemma preserves_parseSILBasicBlock : preserves f parseSILBasicBlock.
Proof using f_token f_parseType f_scope f_definition.
  unfold parseSILBasicBlock.
  repeat preserves_step
    ltac:(first [ token_call | apply f_definition
                | apply preserves_parseInstructions ]).
Qed.

Lemma preserves_parseBasicBlocks fuel : preserves f (parseBasicBlocks fuel).
Proof using f_token f_parseType f_scope f_definition.
  induction fuel as [|fuel IH]; [apply preserves_out_of_fuel|].
  cbn [parseBasicBlocks]. unfold curTok.
  repeat preserves_step
    ltac:(first [apply preserves_parseSILBasicBlock | apply IH]).
Qed.

Lemma preserves_parseSILLinkage {Y} (g : Parser' → Y) :
  (∀ T Rest p, g (setToken T Rest p) = g p) →
  (∀ ds p, g (addDiags ds p) = g p) →
  preserves g parseSILLinkage.
Proof.
  intros Hg1 Hg2 p. unfold parseSILLinkage.
  repeat case_match;
    repeat preserves_step
      ltac:(first [ by apply preserves_consumeTokenOfKind
                  | by apply preserves_diagnose ]).
Qed.

Lemma preserves_parseDeclSILHeader : preserves f parseDeclSILHeader.
Proof using f_token f_parseType f_scope f_function f_setF.
  unfold parseDeclSILHeader.
  repeat preserves_step
    ltac:(first [ token_call | apply preserves_parseSILType
                | apply f_function | apply f_setF
                | apply f_token; intros; by apply preserves_parseSILLinkage ]).
Qed.

Lemma preserves_parseDeclSILBody : preserves f parseDeclSILBody.
Proof using f_token f_parseType f_scope f_definition.
  unfold parseDeclSILBody.
  repeat preserves_step
    ltac:(first [ token_call | apply preserves_parseBasicBlocks
                | apply preserves_ignoreResult ]).
Qed.
End Traversal.
End StageClaims.

(** ** Termination: the loops never exhaust their bound *)

Section Runs.
Context {S : Type} (μ : S → nat).
#[local] Abbreviation runs := (runs μ).
#[local] Abbreviation advances := (advances μ).

Lemma advances_runs {A} (c : M S A) s : advances c s → runs c s.
Proof. unfold advances, runs. destruct (c s) as [[]]; lia. Qed.

Lemma runs_ret {A} (a : A) s : runs (ret a) s.
Proof. unfold runs, ret. lia. Qed.
Lemma runs_fail {A} s : runs (@fail S A) s.
Proof. done. Qed.
Lemma runs_abort {A} s : runs (@abort S A) s.
Proof. done. Qed.
Lemma runs_gets {A} (g : S → A) s : runs (gets g) s.
Proof. unfold runs, gets. lia. Qed.
Lemma advances_fail {A} s : advances (@fail S A) s.
Proof. done. Qed.
Lemma advances_abort {A} s : advances (@abort S A) s.
Proof. done. Qed.

Lemma runs_bind {A B} (c : M S A) (k : A → M S B) s :
  runs c s →
  (∀ a s1, c s = (Ok a, s1) → μ s1 ≤ μ s → runs (k a) s1) →
  runs (bind c k) s.
Proof.
  unfold runs, bind. intros Hc Hk.
  destruct (c s) as [[a| | |] s1]; try done.
  specialize (Hk a s1 eq_refl Hc). destruct (k a s1) as [[]]; try done. lia.
Qed.

Lemma advances_bind_l {A B} (c : M S A) (k : A → M S B) s :
  advances c s →
  (∀ a s1, c s = (Ok a, s1) → μ s1 < μ s → runs (k a) s1) →
  advances (bind c k) s.
Proof.
  unfold advances, runs, bind. intros Hc Hk.
  destruct (c s) as [[a| | |] s1]; try done.
  specialize (Hk a s1 eq_refl Hc). destruct (k a s1) as [[]]; try done. lia.
Qed.

Lemma advances_bind_r {A B} (c : M S A) (k : A → M S B) s :
  runs c s →
  (∀ a s1, c s = (Ok a, s1) → μ s1 ≤ μ s → advances (k a) s1) →
  advances (bind c k) s.
Proof.
  unfold advances, runs, bind. intros Hc Hk.
  destruct (c s) as [[a| | |] s1]; try done.
  specialize (Hk a s1 eq_refl Hc). destruct (k a s1) as [[]]; try done. lia.
Qed.

Lemma runs_bind_gets {A B} (g : S → A) (k : A → M S B) s :
  runs (k (g s)) s → runs (bind (gets g) k) s.
Proof. done. Qed.

Lemma runs_modify (g : S → S) s : μ (g s) ≤ μ s → runs (modify g) s.
Proof. done. Qed.

Lemma runs_not_OutOfFuel {A} (c : M S A) s : runs c s → (c s).1 ≠ OutOfFuel.
Proof. unfold runs. by destruct (c s) as [[]]. Qed.

Lemma runs_ignoreResult {A} (c : M S A) s :
  (∀ r s', c s = (r, s') → r ≠ OutOfFuel ∧ μ s' ≤ μ s) →
  runs (ignoreResult c) s.
Proof.
  unfold runs, ignoreResult. intros Hc.
  destruct (c s) as [[a| | |] s1] eqn:E; destruct (Hc _ _ eq_refl); done.
Qed.
End Runs.

Section RunsParser.
Context {SILType Decls : Type}.
#[local] Abbreviation Parser := (Parser SILType Decls).
#[local] Abbreviation State := (SILParserFunctionState SILType Decls).

Lemma remaining_consumeToken (p : Parser) :
  remaining (consumeToken p).2 ≤ remaining p ∧
  (getKind (Tok p) ≠ tok_eof → remaining (consumeToken p).2 < remaining p).
Proof.
  unfold consumeToken, remaining, lex, is_.
  destruct (L p) as [|T Rest]; cbn [snd setToken Tok L length getKind];
    (split; [|intros Hk]); repeat case_bool_decide; simpl; try lia; done.
Qed.

Lemma inP_result {A} (c : M Parser A) (s : State) :
  inP c s = ((c (P s)).1, setP (c (P s)).2 s).
Proof. unfold inP, zoom. by destruct (c (P s)). Qed.

Lemma consumeToken_cases (p : Parser) :
  ∃ p', consumeToken p = (Ok (getLoc (Tok p)), p') ∧
        remaining p' ≤ remaining p ∧
        (getKind (Tok p) ≠ tok_eof → remaining p' < remaining p).
Proof.
  exists (consumeToken p).2. split; [apply consumeToken_peek|].
  apply remaining_consumeToken.
Qed.

Lemma runs_inP_consumeToken (s : State) : runs unread (inP consumeToken) s.
Proof.
  unfold runs, unread, inP, zoom.
  by destruct (consumeToken_cases (P s)) as (p' & -> & H1 & H2).
Qed.

Lemma runs_inP_diagnose Loc D (s : State) : runs unread (inP (diagnose Loc D)) s.
Proof. unfold runs, unread, inP, zoom, diagnose, modify. by cbn. Qed.

Lemma advances_inP_consumeTokenOfKind K (s : State) :
  K ≠ tok_eof → advances unread (inP (consumeTokenOfKind K)) s.
Proof.
  intros HK. unfold advances, unread, inP, zoom, consumeTokenOfKind, is_.
  case_bool_decide as Hk; [|done].
  destruct (consumeToken_cases (P s)) as (p' & -> & H1 & H2).
  apply H2. congruence.
Qed.

Lemma advances_inP_parseToken K D (s : State) :
  K ≠ tok_eof → advances unread (inP (parseToken K D)) s.
Proof.
  intros HK. unfold advances, unread, inP, zoom, parseToken, is_.
  case_bool_decide as Hk; [|done].
  destruct (consumeToken_cases (P s)) as (p' & -> & H1 & H2).
  apply H2. congruence.
Qed.

Lemma advances_inP_parseIdentifier D (s : State) :
  advances unread (inP (parseIdentifier D)) s.
Proof.
  unfold advances, unread, inP, zoom, parseIdentifier, is_.
  case_bool_decide as Hk; [|done]. unfold bind.
  destruct (consumeToken_cases (P s)) as (p' & -> & H1 & H2).
  apply H2. congruence.
Qed.

Lemma parseMatchingToken_bound K D Loc (s : State) r s' :
  inP (parseMatchingToken K D Loc) s = (r, s') →
  r ≠ OutOfFuel ∧ unread s' ≤ unread s.
Proof.
  unfold unread, inP, zoom, parseMatchingToken.
  destruct (is_ K (Tok (P s))).
  - destruct (consumeToken_cases (P s)) as (p' & -> & H1 & H2).
    by intros [= <- <-].
  - intros [= <- <-]. by cbn.
Qed.

Lemma runs_inP_parseMatchingToken K D Loc (s : State) :
  runs unread (inP (parseMatchingToken K D Loc)) s.
Proof.
  unfold runs. destruct (inP _ s) as [r s'] eqn:E.
  apply parseMatchingToken_bound in E as [Hr Hle]. by destruct r.
Qed.

Lemma runs_inP_consumeIf K (s : State) : runs unread (inP (consumeIf K)) s.
Proof.
  unfold runs, unread, inP, zoom, consumeIf.
  destruct (is_ K (Tok (P s))); [|done]. unfold bind.
  by destruct (consumeToken_cases (P s)) as (p' & -> & H1 & H2).
Qed.

End RunsParser.

Ltac runs_branch :=
  match goal with
  | |- runs _ (if ?c then _ else _) _ => destruct c
  | |- runs _ (match ?x with _ => _ end) _ => destruct x
  end.

Ltac runs_token :=
  first [ apply runs_inP_consumeToken | apply runs_inP_diagnose
        | apply runs_inP_consumeIf | apply runs_inP_parseMatchingToken
        | apply advances_runs;
          first [ apply advances_inP_parseToken; done
                | apply advances_inP_parseIdentifier
                | apply advances_inP_consumeTokenOfKind; done ] ].

Ltac runs_basic :=
  first [ apply runs_ret | apply runs_fail | apply runs_abort | apply runs_gets
        | runs_token ].

Ltac runs_struct :=
  first [ apply runs_bind_gets | apply runs_bind; [|intros ? ? _ _]
        | runs_branch ].

Ltac runs_step tac := first [ runs_basic | tac | runs_struct ].

Ltac runs_simple := repeat first [ runs_basic | runs_struct ].

Section Termination.
Context `{FE : Frontend} `{AR : Arena} `{DO : DenseMapOrder}.
#[local] Abbreviation Parser' := (Parser SILType Decls).
#[local] Abbreviation State' := (SILParserFunctionState SILType Decls).

(** The assumption on the general type parser: it ends, and it does not
    put tokens back. *)
Hypothesis parseType_runs : ∀ D (p : Parser'), runs remaining (parseType D) p.

Lemma runs_inP_parseType D (s : State') : runs unread (inP (parseType D)) s.
Proof using parseType_runs.
  unfold runs, unread, inP, zoom. specialize (parseType_runs D (P s)).
  unfold runs in parseType_runs. by destruct (parseType D (P s)) as [[]].
Qed.

Lemma runs_inP_typeCheckingScope Ty (s : State') :
  runs unread (inP (typeCheckingScope Ty)) s.
Proof.
  unfold runs, unread, inP, zoom, typeCheckingScope.
  case_bool_decide; [|done].
  destruct (performTypeLocChecking _ Ty) as [[[[] Ty'] tu] ds]; by cbn.
Qed.

Lemma advanced {A} (c : M State' A) s a s1 :
  advances unread c s → c s = (Ok a, s1) → unread s1 < unread s.
Proof. unfold advances. intros H E. by rewrite E in H. Qed.

Lemma runs_parseSILTypeAttributes fuel IsSRet UncurryLevel (s : State') :
  unread s < fuel →
  runs unread (parseSILTypeAttributes fuel IsSRet UncurryLevel) s.
Proof.
  revert IsSRet UncurryLevel s.
  induction fuel as [|fuel IH]; intros IsSRet U s Hlt; [lia|].
  cbn [parseSILTypeAttributes].
  apply runs_bind; [apply runs_inP_consumeToken|]. intros _ s1 _ H1.
  apply runs_bind; [runs_token|]. intros Attr s2 E2 _.
  apply (advanced _ _ _ _ (advances_inP_parseIdentifier _ _)) in E2.
  apply runs_bind.
  { unfold curTok. runs_simple. }
  intros Flags s3 _ H3. unfold curTok.
  apply runs_bind; [apply runs_gets|]. intros T s4 [= _ <-] _.
  destruct (is_ tok_comma T); [|apply runs_ret]. apply IH. lia.
Qed.

Lemma runs_parseSILType (s : State') : runs unread parseSILType s.
Proof using parseType_runs.
  unfold parseSILType, curTok.
  repeat runs_step
    ltac:(first [ apply runs_parseSILTypeAttributes; unfold unread; lia
                | apply runs_inP_parseType
                | apply runs_inP_typeCheckingScope
                | apply advances_runs, advances_fail ]).
Qed.

Lemma advances_parseTypedValueRef (s : State') :
  advances unread parseTypedValueRef s.
Proof using parseType_runs.
  unfold parseTypedValueRef.
  apply advances_bind_r; [apply runs_parseSILType|]. intros _ s1 _ _.
  apply advances_bind_l; [by apply advances_inP_parseToken|].
  intros _ s2 _ _. runs_simple.
Qed.

Lemma runs_parseSILOpcode (s : State') : runs unread parseSILOpcode s.
Proof. unfold parseSILOpcode, curTok. runs_simple. Qed.

Lemma runs_parseTupleOperands fuel (s : State') :
  unread s < fuel → runs unread (parseTupleOperands fuel) s.
Proof using parseType_runs.
  revert s. induction fuel as [|fuel IH]; intros s Hlt; [lia|].
  cbn [parseTupleOperands]. unfold curTok.
  apply runs_bind; [apply runs_gets|]. intros T s1 [= _ <-] _.
  destruct (isNot tok_r_paren T); [|apply runs_ret].
  apply runs_bind; [apply advances_runs, advances_parseTypedValueRef|].
  intros u2 s2 E2 _.
  apply (advanced _ _ _ _ (advances_parseTypedValueRef _)) in E2.
  apply IH. lia.
Qed.

Lemma advances_parseSILInstruction BB (s : State') :
  advances unread (parseSILInstruction BB) s.
Proof using parseType_runs.
  unfold parseSILInstruction, curTok.
  apply advances_bind_r; [apply runs_gets|]. intros T s1 [= _ <-] _.
  destruct (isNot tok_sil_local_name T).
  { apply advances_bind_r; [runs_token|]. intros. apply advances_fail. }
  destruct (negb (isAtStartOfLine T)).
  { apply advances_bind_r; [runs_token|]. intros. apply advances_fail. }
  apply advances_bind_l; [by apply advances_inP_consumeTokenOfKind|].
  intros _ s2 _ _.
  repeat runs_step
    ltac:(first [ apply runs_parseSILOpcode
                | apply runs_parseTupleOperands; unfold unread; lia
                | apply advances_runs, advances_parseTypedValueRef ]).
Qed.

Lemma runs_parseInstructions fuel BB (s : State') :
  unread s < fuel → runs unread (parseInstructions fuel BB) s.
Proof using parseType_runs.
  revert s. induction fuel as [|fuel IH]; intros s Hlt; [lia|].
  cbn [parseInstructions]. unfold curTok.
  apply runs_bind; [apply advances_runs, advances_parseSILInstruction|].
  intros u1 s1 E1 _.
  apply (advanced _ _ _ _ (advances_parseSILInstruction _ _)) in E1.
  apply runs_bind; [apply runs_gets|]. intros T s2 [= _ <-] _.
  destruct (is_ tok_sil_local_name T); [|apply runs_ret]. apply IH. lia.
Qed.

Lemma runs_getBBForDefinition Name Loc (s : State') :
  runs unread (getBBForDefinition Name Loc) s.
Proof.
  unfold runs. destruct (lookupBB s Name) as [BB|] eqn:Hl.
  - destruct (UndefinedBlocks s !! BB) as [E|] eqn:Hu.
    + by rewrite (getBBForDefinition_pending s Name Loc BB E).
    + by rewrite (getBBForDefinition_redefinition s Name Loc BB).
  - unfold lookupBB, getBBForDefinition, bind, subscript in *.
    by destruct (BlocksByName s !! Name) as [[BB'|]|]; simplify_eq/=.
Qed.

Lemma advances_parseSILBasicBlock (s : State') :
  advances unread parseSILBasicBlock s.
Proof using parseType_runs.
  unfold parseSILBasicBlock.
  apply advances_bind_l; [apply advances_inP_parseIdentifier|].
  intros Name s1 _ _.
  apply runs_bind; [runs_token|]. intros _ s2 _ _.
  apply runs_bind; [apply runs_getBBForDefinition|]. intros BB s3 _ _.
  apply runs_bind_gets, runs_parseInstructions. unfold unread. lia.
Qed.

Lemma runs_parseBasicBlocks fuel (s : State') :
  unread s < fuel → runs unread (parseBasicBlocks fuel) s.
Proof using parseType_runs.
  revert s. induction fuel as [|fuel IH]; intros s Hlt; [lia|].
  cbn [parseBasicBlocks]. unfold curTok.
  apply runs_bind; [apply advances_runs, advances_parseSILBasicBlock|].
  intros u1 s1 E1 _.
  apply (advanced _ _ _ _ (advances_parseSILBasicBlock _)) in E1.
  apply runs_bind; [apply runs_gets|]. intros T s2 [= _ <-] _.
  destruct (_ && _); [|apply runs_ret]. apply IH. lia.
Qed.

Lemma runs_inP_parseSILLinkage (s : State') :
  runs unread (inP parseSILLinkage) s.
Proof.
  unfold runs, unread, inP, zoom. rewrite parseSILLinkage_unfold.
  repeat case_decide; cbn [P setP]; try done; apply remaining_consumeToken.
Qed.

Lemma runs_parseDeclSILHeader (s : State') : runs unread parseDeclSILHeader s.
Proof using parseType_runs.
  unfold parseDeclSILHeader.
  repeat runs_step
    ltac:(first [ apply runs_parseSILType | apply runs_inP_parseSILLinkage
                | by apply runs_modify ]).
Qed.

Lemma runs_parseDeclSILBody (s : State') : runs unread parseDeclSILBody s.
Proof using parseType_runs.
  unfold parseDeclSILBody.
  repeat runs_step
    ltac:(first [ apply runs_parseBasicBlocks; unfold unread; lia
                | apply runs_ignoreResult, parseMatchingToken_bound ]).
Qed.

Lemma runs_diagnoseProblems (s : State') : runs unread diagnoseProblems s.
Proof.
  unfold runs. destruct (decide (UndefinedBlocks s = ∅)) as [He|Hne].
  - rewrite diagnoseProblems_none by done. by destruct (HadError s).
  - by rewrite diagnoseProblems_pending.
Qed.

(** With a type parser that ends, a declaration parse ends: no loop of
    [parseDeclSIL] exhausts its bound. *)
Lemma parseDeclSIL_terminates (p : Parser') : (parseDeclSIL p).1 ≠ OutOfFuel.
Proof using parseType_runs.
  unfold parseDeclSIL.
  pose proof (runs_not_OutOfFuel unread
                (parseDeclSILHeader ;; parseDeclSILBody ;; diagnoseProblems)
                (newState (setInSILBody true p))) as H.
  destruct ((parseDeclSILHeader ;; parseDeclSILBody ;; diagnoseProblems) _)
    as [r s]. apply H.
  repeat runs_step
    ltac:(first [ apply runs_parseDeclSILHeader | apply runs_parseDeclSILBody
                | apply runs_diagnoseProblems ]).
Qed.
End Termination.

(** ** The stage override of parseSILType *)

Section StageOverride.
Context `{FE : Frontend}.
#[local] Abbreviation Parser' := (Parser SILType Decls).
#[local] Abbreviation State' := (SILParserFunctionState SILType Decls).

(** [parseSILType] is its syntactic part, then the type-checking block on
    the type that part parsed, then the lowering of the checked type. *)
Lemma parseSILType_split (s : State') :
  parseSILType s =
    (Syntax <- parseSILTypeSyntax ;;
     Ty <- inP (typeCheckingScope Syntax.2) ;;
     let Result := getLoweredType Ty Syntax.1.1 in
     ret (if Syntax.1.2 : bool then getAddressType Result else Result)) s.
Proof.
  unfold parseSILType, parseSILTypeSyntax.
  rewrite <- bind_assoc. apply bind_ext. intros p s1 _.
  rewrite <- bind_assoc. apply bind_ext. intros Attrs s2 _.
  rewrite <- bind_assoc. apply bind_ext. intros T s3 _.
  rewrite <- bind_assoc. apply bind_ext. intros isAddress s4 _.
  rewrite <- bind_assoc. apply bind_ext. intros Loc s5 _.
  rewrite <- bind_assoc. apply bind_ext. intros Ty s6 _.
  reflexivity.
Qed.

(** C6. The stage override of [parseSILType]. Once the syntactic part of
    [parseSILType] has parsed a type, the type checker is called once, on
    the translation unit with its stage set to [Parsed] and nothing else
    changed, and the outcome of [parseSILType] is the checker's: it fails
    if the checker fails, and otherwise returns the lowering of the type
    the checker returned. On both ways out the stage is [Parsing] again
    before [parseSILType] returns; tokens, module and lexer mode are
    those the syntactic part left, and the diagnostics and declarations
    are as the checker left them. If the stage is not [Parsing] when the
    block is entered, the assertion fails; if the syntactic part fails,
    the checker is not reached. The same is stated of the block by
    itself; and over the whole of [parseSILType], on every way out, the
    stage is what it was (given a type parser that leaves it alone) and
    the tables of the function state are unchanged. *)
Theorem stage_override_is_scoped :
  (∀ (Ty : TypeLoc) (p : Parser'),
     ASTStage (TU p) = Parsing →
     ∃ Err Ty' tu ds,
       performTypeLocChecking (setASTStage Parsed (TU p)) Ty
         = (Err, Ty', tu, ds) ∧
       typeCheckingScope Ty p =
         (if Err : bool then Error else Ok Ty',
          mkParser (Tok p) (L p) (EofLoc p) (Diags p ++ ds)
                   (mkTU Parsing (TUDecls tu)) (SIL p) (InSILBody p))) ∧
  ((∀ D, preserves stage (parseType D)) →
   ∀ s : State', stage (P (parseSILType s).2) = stage (P s)) ∧
  (∀ s : State',
     F (parseSILType s).2 = F s ∧
     HadError (parseSILType s).2 = HadError s ∧
     BlocksByName (parseSILType s).2 = BlocksByName s ∧
     UndefinedBlocks (parseSILType s).2 = UndefinedBlocks s ∧
     NumDiagnoseProblems (parseSILType s).2 = NumDiagnoseProblems s) ∧
  (∀ (s : State') (UncurryLevel : nat) (isAddress : bool) (Ty : TypeLoc),
     (parseSILTypeSyntax s).1 = Ok (UncurryLevel, isAddress, Ty) →
     let s1 := (parseSILTypeSyntax s).2 in
     let p := P s1 in
     (ASTStage (TU p) = Parsing →
      ∃ Err Ty' tu ds,
        performTypeLocChecking (setASTStage Parsed (TU p)) Ty
          = (Err, Ty', tu, ds) ∧
        parseSILType s =
          (if Err : bool then Error
           else Ok (if isAddress
                    then getAddressType (getLoweredType Ty' UncurryLevel)
                    else getLoweredType Ty' UncurryLevel),
           setP (mkParser (Tok p) (L p) (EofLoc p) (Diags p ++ ds)
                          (mkTU Parsing (TUDecls tu)) (SIL p) (InSILBody p))
                s1)) ∧
     (ASTStage (TU p) ≠ Parsing → parseSILType s = (Abort, s1))) ∧
  (∀ s : State',
     (parseSILTypeSyntax s).1 = Error →
     parseSILType s = (Error, (parseSILTypeSyntax s).2)).
Proof.
  split; [apply typeCheckingScope_effect|]. split; [|split; [|split]].
  - intros HparseType s.
    apply (preserves_parseSILType (λ s : State', stage (P s))).
    + intros A c Hc. apply (preserves_inP stage). by apply Hc.
    + intros D. by apply (preserves_inP stage).
    + intros Ty. apply (preserves_inP stage), preserves_typeCheckingScope.
  - intros s.
    pose proof (preserves_parseSILType
                  (λ s : State', (F s, HadError s, BlocksByName s,
                                  UndefinedBlocks s, NumDiagnoseProblems s)))
      as Hframe.
    specialize (Hframe ltac:(intros; by apply preserves_inP_frame)
                       ltac:(intros; by apply preserves_inP_frame)
                       ltac:(intros; by apply preserves_inP_frame) s).
    by injection Hframe as -> -> -> -> ->.
  - intros s UncurryLevel isAddress Ty Hsyntax s1 p.
    apply run_Ok in Hsyntax. fold s1 in Hsyntax.
    rewrite parseSILType_split, (bind_Ok _ _ _ _ _ Hsyntax). cbn [fst snd].
    unfold bind, inP, zoom. fold p. split.
    + intros Hstage.
      destruct (typeCheckingScope_effect Ty p Hstage)
        as (Err & Ty' & tu & ds & Hcheck & ->).
      exists Err, Ty', tu, ds. split; [done|]. by destruct Err.
    + intros Hstage. unfold typeCheckingScope.
      rewrite bool_decide_eq_false_2 by done.
      subst p. clearbody s1. by destruct s1.
  - intros s Hsyntax. apply run_Error in Hsyntax.
    by rewrite parseSILType_split, (bind_Error _ _ _ _ Hsyntax).
Qed.
End StageOverride.

Lemma demo_parseType_keeps_stage D :
  preserves stage (parseType (Frontend := demoFrontend) D).
Proof.
  intros p. cbn [parseType demoFrontend]. destruct (is_ _ _).
  - apply preserves_bind; [by apply preserves_consumeToken|done].
  - apply preserves_bind; [by apply preserves_diagnose|done].
Qed.

Lemma stage_override_witness :
  (parseSILType (FE := demoFrontend)
     (demoStateAt (tk tok_sil_dollar "$" 21) [tk tok_identifier "Unbound" 22])).1
  = Error ∧
  stage (P (parseSILType (FE := demoFrontend)
              (demoStateAt (tk tok_sil_dollar "$" 21)
                           [tk tok_identifier "Unbound" 22])).2) = Parsing ∧
  Diags (P (parseSILType (FE := demoFrontend)
              (demoStateAt (tk tok_sil_dollar "$" 21)
                           [tk tok_identifier "Unbound" 22])).2)
  = [(0, frontend_diag "use of undeclared type")].
Proof.
  destruct (stage_override_is_scoped (FE := demoFrontend))
    as (_ & Hstage & _ & Hrun & _).
  destruct (Hrun (demoStateAt (tk tok_sil_dollar "$" 21)
                              [tk tok_identifier "Unbound" 22])
                 0 false "Unbound" eq_refl) as [Hchecked _].
  destruct (Hchecked eq_refl) as (Err & Ty' & tu & ds & Hcheck & Hres).
  injection Hcheck as <- <- <- <-.
  split; [|split].
  - by rewrite Hres.
  - apply Hstage, demo_parseType_keeps_stage.
  - by rewrite Hres.
Defined.

(** ** parseDeclSIL and diagnoseProblems *)

Section Declaration.
Context `{FE : Frontend} `{AR : Arena} `{DO : DenseMapOrder}.
#[local] Abbreviation Parser' := (Parser SILType Decls).
#[local] Abbreviation State' := (SILParserFunctionState SILType Decls).

(** What [diagnoseProblems] returns and counts. *)
Lemma diagnoseProblems_result (s : State') :
  (diagnoseProblems s).1 =
    (if HadError s || bool_decide (UndefinedBlocks s ≠ ∅)
     then Error else Ok tt) ∧
  NumDiagnoseProblems (diagnoseProblems s).2 = S (NumDiagnoseProblems s).
Proof.
  destruct (decide (UndefinedBlocks s = ∅)) as [He|Hne].
  - rewrite diagnoseProblems_none by done.
    rewrite bool_decide_eq_false_2 by (intros Hc; by apply Hc).
    by destruct (HadError s).
  - rewrite diagnoseProblems_pending by done.
    rewrite bool_decide_eq_true_2 by done. by rewrite orb_true_r.
Qed.

(** The counter of [diagnoseProblems] is touched by nothing else. *)
Lemma count_getBBForDefinition Name Loc :
  preserves (NumDiagnoseProblems (SILType := SILType) (Decls := Decls))
            (getBBForDefinition Name Loc).
Proof.
  intros s. unfold getBBForDefinition, bind, subscript, erase.
  destruct (BlocksByName s !! Name) as [[BB|]|]; simpl; try done.
  by destruct (UndefinedBlocks s !! BB).
Qed.

Lemma count_parseDeclSILHeader :
  preserves (NumDiagnoseProblems (SILType := SILType) (Decls := Decls))
            parseDeclSILHeader.
Proof.
  apply preserves_parseDeclSILHeader;
    intros; first [by apply preserves_inP_frame | done].
Qed.

Lemma count_parseDeclSILBody :
  preserves (NumDiagnoseProblems (SILType := SILType) (Decls := Decls))
            parseDeclSILBody.
Proof.
  apply preserves_parseDeclSILBody;
    intros; first [by apply preserves_inP_frame | apply count_getBBForDefinition].
Qed.

Lemma count_parseBasicBlocks fuel :
  preserves (NumDiagnoseProblems (SILType := SILType) (Decls := Decls))
            (parseBasicBlocks fuel).
Proof.
  apply preserves_parseBasicBlocks;
    intros; first [by apply preserves_inP_frame | apply count_getBBForDefinition].
Qed.

(** The declaration in two parts: everything before [diagnoseProblems],
    and [diagnoseProblems] if that part succeeded. *)
Lemma parseDeclSIL_parts (p : Parser') :
  ∀ r1 s1,
    (parseDeclSILHeader ;; parseDeclSILBody) (newState (setInSILBody true p))
      = (r1, s1) →
    NumDiagnoseProblems s1 = 0 ∧
    match r1 with
    | Ok _ =>
        (parseDeclSIL p).1 = (diagnoseProblems s1).1 ∧
        NumDiagnoseProblems (parseDeclSIL p).2 = 1
    | Error =>
        (parseDeclSIL p).1 = Error ∧
        NumDiagnoseProblems (parseDeclSIL p).2 = 0 ∧
        Diags (P (parseDeclSIL p).2) = Diags (P s1)
    | Abort => (parseDeclSIL p).1 = Abort ∧
               NumDiagnoseProblems (parseDeclSIL p).2 = 0
    | OutOfFuel => (parseDeclSIL p).1 = OutOfFuel ∧
                   NumDiagnoseProblems (parseDeclSIL p).2 = 0
    end.
Proof.
  intros r1 s1 E.
  assert (NumDiagnoseProblems s1 = 0) as Hcount.
  { change s1 with (r1, s1).2. rewrite <- E.
    rewrite (preserves_bind NumDiagnoseProblems _ _ count_parseDeclSILHeader);
      [done|]. intros _. apply count_parseDeclSILBody. }
  split; [done|].
  assert ((parseDeclSILHeader ;; parseDeclSILBody ;; diagnoseProblems)
            (newState (setInSILBody true p)) =
          match r1 with
          | Ok _ => diagnoseProblems s1
          | Error => (Error, s1)
          | Abort => (Abort, s1)
          | OutOfFuel => (OutOfFuel, s1)
          end) as Hrun.
  { rewrite bind_assoc. unfold bind at 1. rewrite E. by destruct r1. }
  unfold parseDeclSIL. rewrite Hrun.
  destruct r1 as [HasBody| | |]; cbn [fst snd]; try done.
  destruct (diagnoseProblems_result s1) as [Hr Hc].
  destruct (diagnoseProblems s1) as [r s]. cbn [fst snd] in *.
  split; [done|]. cbn [NumDiagnoseProblems setP]. lia.
Qed.

Lemma inP_consumeIf_true K (s : State') :
  getKind (Tok (P s)) = K →
  inP (consumeIf K) s = (Ok true, setP (consumeToken (P s)).2 s).
Proof.
  intros Hk. unfold inP, zoom, consumeIf. rewrite is_true by done.
  unfold bind. by destruct (consumeToken_peek (P s)) as [-> _].
Qed.

Lemma inP_consumeIf_false K (s : State') :
  getKind (Tok (P s)) ≠ K → inP (consumeIf K) s = (Ok false, s).
Proof.
  intros Hk. unfold inP, zoom, consumeIf. rewrite is_false by done.
  by destruct s.
Qed.

(** The body when an opening brace is there, in terms of its block list. *)
Lemma parseDeclSILBody_braced (s : State') :
  getKind (Tok (P s)) = tok_l_brace →
  parseDeclSILBody s =
    (parseBasicBlocks (S (remaining (consumeToken (P s)).2)) ;;
     ignoreResult (inP (parseMatchingToken tok_r_brace expected_sil_rbrace
                          (getLoc (Tok (P s))))) ;;
     ret true) (setP (consumeToken (P s)).2 s).
Proof.
  intros Hk. unfold parseDeclSILBody. unfold bind at 1. unfold gets at 1.
  by rewrite (bind_Ok _ _ _ _ _ (inP_consumeIf_true _ s Hk)).
Qed.

Lemma ignoreResult_parseMatchingToken K D Loc (s : State') :
  ∃ p', ignoreResult (inP (parseMatchingToken K D Loc)) s = (Ok tt, setP p' s).
Proof.
  unfold ignoreResult, inP, zoom, parseMatchingToken.
  destruct (is_ K (Tok (P s))).
  - destruct (consumeToken_peek (P s)) as [-> _]. by eexists.
  - by eexists.
Qed.

(** How the declaration ends once its header is parsed. *)
Lemma parseDeclSIL_after_header (p : Parser') (sH : State') :
  parseDeclSILHeader (newState (setInSILBody true p)) = (Ok tt, sH) →
  (getKind (Tok (P sH)) ≠ tok_l_brace →
     (parseDeclSILHeader ;; parseDeclSILBody) (newState (setInSILBody true p))
       = (Ok false, sH)) ∧
  (getKind (Tok (P sH)) = tok_l_brace →
   ∀ rB sB,
     parseBasicBlocks (S (remaining (consumeToken (P sH)).2))
                      (setP (consumeToken (P sH)).2 sH) = (rB, sB) →
     ∃ p',
       (parseDeclSILHeader ;; parseDeclSILBody) (newState (setInSILBody true p))
       = match rB with
         | Ok _ => (Ok true, setP p' sB)
         | Error => (Error, sB)
         | Abort => (Abort, sB)
         | OutOfFuel => (OutOfFuel, sB)
         end).
Proof.
  intros Hheader. split.
  - intros Hk. rewrite (bind_Ok _ _ _ _ _ Hheader).
    unfold parseDeclSILBody. unfold bind at 1. unfold gets at 1.
    by rewrite (bind_Ok _ _ _ _ _ (inP_consumeIf_false _ sH Hk)).
  - intros Hk rB sB Hblocks. rewrite (bind_Ok _ _ _ _ _ Hheader).
    rewrite parseDeclSILBody_braced by done.
    unfold bind at 1. rewrite Hblocks.
    destruct rB as [[]| | |]; try by exists (P sB).
    destruct (ignoreResult_parseMatchingToken tok_r_brace expected_sil_rbrace
                (getLoc (Tok (P sH))) sB) as [p' Hclose].
    exists p'. by rewrite (bind_Ok _ _ _ _ _ Hclose).
Qed.

(** C3, as the code has it. [diagnoseProblems] is the last step of a
    declaration whose header parsed and whose body is absent or made of
    basic blocks that all parsed; the declaration then fails exactly if an
    error was recorded or forward references are still pending. When a
    basic block fails to parse, the declaration fails there and then:
    [diagnoseProblems] is not called and nothing is reported after the
    block's own diagnostics. In no case is it called twice, and a
    declaration for which it was not called does not succeed. *)
Theorem diagnoseProblems_only_after_complete_parse (p : Parser') :
  ((headerOf p).1 = Ok tt →
   getKind (Tok (P (headerOf p).2)) = tok_l_brace →
   (blocksOf p).1 = Error →
   (parseDeclSIL p).1 = Error ∧
   NumDiagnoseProblems (parseDeclSIL p).2 = 0 ∧
   Diags (P (parseDeclSIL p).2) = Diags (P (blocksOf p).2)) ∧
  ((headerOf p).1 = Ok tt →
   getKind (Tok (P (headerOf p).2)) = tok_l_brace →
   (blocksOf p).1 = Ok tt →
   NumDiagnoseProblems (parseDeclSIL p).2 = 1 ∧
   ((parseDeclSIL p).1 = Error ↔
      HadError (blocksOf p).2 = true ∨ UndefinedBlocks (blocksOf p).2 ≠ ∅) ∧
   ((parseDeclSIL p).1 = Ok tt ↔
      HadError (blocksOf p).2 = false ∧ UndefinedBlocks (blocksOf p).2 = ∅)) ∧
  ((headerOf p).1 = Ok tt →
   getKind (Tok (P (headerOf p).2)) ≠ tok_l_brace →
   NumDiagnoseProblems (parseDeclSIL p).2 = 1 ∧
   ((parseDeclSIL p).1 = Error ↔
      HadError (headerOf p).2 = true ∨ UndefinedBlocks (headerOf p).2 ≠ ∅) ∧
   ((parseDeclSIL p).1 = Ok tt ↔
      HadError (headerOf p).2 = false ∧ UndefinedBlocks (headerOf p).2 = ∅)) ∧
  NumDiagnoseProblems (parseDeclSIL p).2 ≤ 1 ∧
  (NumDiagnoseProblems (parseDeclSIL p).2 = 0 → (parseDeclSIL p).1 ≠ Ok tt) ∧
  ((∀ D (p' : Parser'), runs remaining (parseType D) p') →
   (parseDeclSIL p).1 ≠ OutOfFuel).
Proof.
  assert (∀ (HasBody : bool) (s1 : State'),
            (parseDeclSILHeader ;; parseDeclSILBody)
              (newState (setInSILBody true p)) = (Ok HasBody, s1) →
            NumDiagnoseProblems (parseDeclSIL p).2 = 1 ∧
            ((parseDeclSIL p).1 = Error ↔
               HadError s1 = true ∨ UndefinedBlocks s1 ≠ ∅) ∧
            ((parseDeclSIL p).1 = Ok tt ↔
               HadError s1 = false ∧ UndefinedBlocks s1 = ∅)) as Hcomplete.
  { intros HasBody s1 E.
    destruct (parseDeclSIL_parts p _ _ E) as (_ & Hr & Hc).
    destruct (diagnoseProblems_result s1) as [Hd _]. rewrite Hr, Hd.
    split; [done|]. destruct (HadError s1); cbn [orb].
    - split; split; try done; [by left|]. by intros [? _].
    - case_bool_decide as Hu.
      + split; split; try done; [by right|]. by intros [_ ?].
      + split; split; try done. by intros [?|?]. }
  pose proof (parseDeclSIL_parts p) as Hparts.
  unfold blocksOf, headerOf, declStart.
  split; [|split; [|split; [|split; [|split]]]].
  - intros Hheader%run_Ok Hk Hblocks%run_Error.
    destruct (parseDeclSIL_after_header p _ Hheader) as [_ Hbody].
    destruct (Hbody Hk _ _ Hblocks) as [p' E].
    by destruct (Hparts _ _ E) as (_ & ? & ? & ?).
  - intros Hheader%run_Ok Hk Hblocks%run_Ok.
    destruct (parseDeclSIL_after_header p _ Hheader) as [_ Hbody].
    destruct (Hbody Hk _ _ Hblocks) as [p' E].
    apply (Hcomplete _ _ E).
  - intros Hheader%run_Ok Hk.
    destruct (parseDeclSIL_after_header p _ Hheader) as [Hnobody _].
    apply (Hcomplete _ _ (Hnobody Hk)).
  - destruct ((parseDeclSILHeader ;; parseDeclSILBody)
                (newState (setInSILBody true p))) as [r1 s1] eqn:E.
    destruct (Hparts _ _ eq_refl) as [_ Hr].
    destruct r1; destruct_and?; lia.
  - destruct ((parseDeclSILHeader ;; parseDeclSILBody)
                (newState (setInSILBody true p))) as [r1 s1] eqn:E.
    destruct (Hparts _ _ eq_refl) as [_ Hr].
    destruct r1; destruct_and?; congruence.
  - intros HparseType. by apply parseDeclSIL_terminates.
Qed.

End Declaration.


(** C3, as stated, fails: in [sil @f : $T { bb0: %0 = branch bb1 }] the
    header parses and the opening brace is there, the block [bb0] is
    entered, the instruction fails on its opcode, and the declaration
    returns with that one diagnostic and without a call of
    [diagnoseProblems]. *)
Lemma diagnoseProblems_skipped_after_block_failure :
  (headerOf (demoDecl declWithUnknownOpcode)).1 = Ok tt ∧
  getKind (Tok (P (headerOf (demoDecl declWithUnknownOpcode)).2)) = tok_l_brace ∧
  (parseDemoDecl declWithUnknownOpcode).1 = Error ∧
  Diags (P (parseDemoDecl declWithUnknownOpcode).2)
    = [(24, expected_sil_instr_opcode)] ∧
  lookupBB (parseDemoDecl declWithUnknownOpcode).2 "bb0" = Some 1%positive ∧
  NumDiagnoseProblems (parseDemoDecl declWithUnknownOpcode).2 = 0.
Proof. repeat (split; [reflexivity|]). reflexivity. Qed.

Lemma demo_parseType_runs D p :
  runs remaining (parseType (Frontend := demoFrontend) D) p.
Proof.
  unfold runs. change (parseType D p) with
    (if is_ tok_identifier (Tok p)
     then (consumeToken ;; ret (getText (Tok p))) p
     else (diagnose (getLoc (Tok p)) D ;; fail) p).
  destruct (is_ tok_identifier (Tok p)); [|done].
  unfold bind.
  destruct (consumeToken_cases p) as (p' & -> & H1 & _). exact H1.
Qed.

Lemma diagnoseProblems_after_complete_parse_witness :
  ((parseDemoDecl declWithUnknownOpcode).1 = Error ∧
   NumDiagnoseProblems (parseDemoDecl declWithUnknownOpcode).2 = 0) ∧
  ((parseDemoDecl declWithTwoInstructions).1 = Ok tt ∧
   NumDiagnoseProblems (parseDemoDecl declWithTwoInstructions).2 = 1) ∧
  (parseDemoDecl declWithBogusAttribute).1 ≠ OutOfFuel.
Proof.
  split; [|split].
  - destruct (diagnoseProblems_only_after_complete_parse
                (FE := demoFrontend) (AR := bumpArena) (DO := elementsOrder)
                (demoDecl declWithUnknownOpcode)) as (Hfail & _).
    destruct (Hfail eq_refl eq_refl eq_refl) as (Hr & Hc & _).
    exact (conj Hr Hc).
  - destruct (diagnoseProblems_only_after_complete_parse
                (FE := demoFrontend) (AR := bumpArena) (DO := elementsOrder)
                (demoDecl declWithTwoInstructions)) as (_ & Hok & _).
    destruct (Hok eq_refl eq_refl eq_refl) as (Hc & _ & Hr).
    split; [|exact Hc]. apply Hr. split; reflexivity.
  - destruct (diagnoseProblems_only_after_complete_parse
                (FE := demoFrontend) (AR := bumpArena) (DO := elementsOrder)
                (demoDecl declWithBogusAttribute)) as (_ & _ & _ & _ & _ & Hends).
    exact (Hends demo_parseType_runs).
Defined.

(** ** Invariants of the block resolver *)

Section ResolverInvariants.
Context {SILType Decls : Type} `{AR : Arena}.
#[local] Abbreviation RState := (SILParserFunctionState SILType Decls).
#[local] Abbreviation action := (action SILType Decls).

Lemma newState_tablesAgree (p : Parser SILType Decls) : tablesAgree (newState p).
Proof. split; intros *; simpl; by rewrite lookup_empty. Qed.

Lemma getBBForDefinition_no_null (s : RState) Name Loc :
  (∀ N, BlocksByName s !! N ≠ Some None) →
  ∀ N, BlocksByName (getBBForDefinition Name Loc s).2 !! N ≠ Some None.
Proof.
  intros Hs N. unfold getBBForDefinition, bind, subscript, erase.
  destruct (BlocksByName s !! Name) as [[BB|]|] eqn:E; simpl.
  - destruct (UndefinedBlocks s !! BB); simpl; apply Hs.
  - by destruct (Hs Name).
  - rewrite insert_insert_eq. rewrite lookup_insert.
    case_decide; [done|apply Hs].
Qed.

Lemma getBBForReference_no_null (s : RState) Name Loc :
  (∀ N, BlocksByName s !! N ≠ Some None) →
  ∀ N, BlocksByName (getBBForReference Name Loc s).2 !! N ≠ Some None.
Proof.
  intros Hs N. unfold getBBForReference, bind, subscript.
  destruct (BlocksByName s !! Name) as [[BB|]|] eqn:E; simpl.
  - apply Hs.
  - by destruct (Hs Name).
  - rewrite insert_insert_eq. rewrite lookup_insert.
    case_decide; [done|apply Hs].
Qed.

Lemma perform_tablesAgree (a : action) (s : RState) :
  keepsBlocks a → consistent s → tablesAgree s → tablesAgree (perform a s).
Proof.
  intros Hk Hc [Hnull Hpend]. destruct a as [N Loc|N Loc|f]; simpl.
  - split; [by apply getBBForDefinition_no_null|].
    destruct (lookupBB s N) as [BB'|] eqn:HN.
    + destruct (UndefinedBlocks s !! BB') as [E'|] eqn:Hu'.
      * rewrite (getBBForDefinition_pending s N Loc BB' E') by done. simpl.
        intros BB L0 N0 HU. apply lookup_delete_Some in HU as [_ HU]. eauto.
      * rewrite (getBBForDefinition_redefinition s N Loc BB') by done. eauto.
    + destruct (getBBForDefinition_fresh s N Loc HN)
        as (s' & -> & Hnew & Hother & HU & _). simpl.
      intros BB L0 N0 HU0. rewrite HU in HU0. apply Hpend in HU0.
      rewrite Hother; [done|]. intros ->. congruence.
  - split; [by apply getBBForReference_no_null|].
    destruct (lookupBB s N) as [BB'|] eqn:HN.
    + rewrite (getBBForReference_known s N Loc BB') by done. eauto.
    + destruct (getBBForReference_forward s N Loc HN)
        as (s' & -> & Hnew & Hother & HU & _). simpl.
      intros BB L0 N0 HU0. rewrite HU in HU0.
      apply lookup_insert_Some in HU0 as [[<- [= <- <-]]|[_ HU0]]; [done|].
      apply Hpend in HU0. rewrite Hother; [done|]. intros ->. congruence.
  - split; eauto.
Qed.

(** X1. Over any course of resolver calls and parser activity from the
    start of a function parse the tables stay consistent and agree. *)
Theorem resolver_tables_invariant (p : Parser SILType Decls)
    (acts : list action) :
  Forall keepsBlocks acts →
  consistent (performAll acts (newState p)) ∧
  tablesAgree (performAll acts (newState p)).
Proof.
  intros Hk.
  assert (∀ s : RState, consistent s → tablesAgree s →
            consistent (performAll acts s) ∧ tablesAgree (performAll acts s))
    as Hgen.
  { induction Hk as [|a acts Ha _ IH]; intros s Hc Ht; [done|]. simpl.
    apply IH; [by apply perform_consistent|by apply perform_tablesAgree]. }
  apply Hgen; [apply newState_consistent|apply newState_tablesAgree].
Qed.

(** X2. A second reference to a name that is still pending gives the same
    block, changes nothing, and the entry keeps the location of the first
    reference. *)
Theorem later_reference_keeps_first_location
    (s : RState) (Name : Identifier) (Loc1 Loc2 : SourceLoc)
    (acts : list action) :
  consistent s →
  lookupBB s Name = None →
  Forall keepsBlocks acts →
  Forall (λ a, ¬ defines Name a) acts →
  ∃ BB s1,
    getBBForReference Name Loc1 s = (Ok BB, s1) ∧
    getBBForReference Name Loc2 (performAll acts s1)
      = (Ok BB, performAll acts s1) ∧
    UndefinedBlocks (performAll acts s1) !! BB = Some (Loc1, Name).
Proof.
  intros Hs Hnone Hk Hnd.
  destruct (getBBForReference_forward s Name Loc1 Hnone)
    as (s1 & Hret & Hnew & Hother & HU & Hheap & _).
  set (BB := allocate (dom (Blocks (SILMod s)))) in *.
  assert (consistent s1) as Hs1 by (eapply consistent_register; eauto).
  destruct (performAll_keeps_pending acts s1 Name BB (Loc1, Name))
    as [Hl2 Hu2]; try done.
  { rewrite HU. apply lookup_insert_eq. }
  exists BB, s1. split; [done|]. split; [|done].
  by apply getBBForReference_known.
Qed.
End ResolverInvariants.

(** ** Definitions after a definition *)

Section Defined.
Context {SILType Decls : Type} `{AR : Arena}.
#[local] Abbreviation RState := (SILParserFunctionState SILType Decls).
#[local] Abbreviation action := (action SILType Decls).

Lemma perform_keeps_defined (a : action) (s : RState) Name :
  keepsBlocks a → consistent s → isDefined s Name → isDefined (perform a s) Name.
Proof.
  intros Hk Hs (BB & Hl & Hu). exists BB.
  split; [by apply perform_keeps_named|].
  destruct a as [N Loc|N Loc|f]; simpl; [| |done].
  - destruct (lookupBB s N) as [BB'|] eqn:HN.
    + destruct (UndefinedBlocks s !! BB') as [E'|] eqn:Hu'.
      * rewrite (getBBForDefinition_pending s N Loc BB' E') by done. simpl.
        apply lookup_delete_None. by right.
      * by rewrite (getBBForDefinition_redefinition s N Loc BB').
    + destruct (getBBForDefinition_fresh s N Loc HN)
        as (s' & -> & _ & _ & HU & _). simpl. by rewrite HU.
  - destruct (lookupBB s N) as [BB'|] eqn:HN.
    + by rewrite (getBBForReference_known s N Loc BB').
    + destruct (getBBForReference_forward s N Loc HN)
        as (s' & -> & _ & _ & HU & _). simpl. rewrite HU.
      rewrite lookup_insert_ne; [done|]. intros Heq.
      apply (named_live s Hs) in Hl. rewrite <- Heq in Hl.
      by apply allocate_fresh in Hl.
Qed.

Lemma getBBForDefinition_defines (s : RState) Name Loc :
  consistent s → tablesAgree s →
  isDefined (getBBForDefinition Name Loc s).2 Name.
Proof.
  intros Hs [_ Hpend]. destruct (lookupBB s Name) as [BB|] eqn:Hl.
  - exists BB. destruct (UndefinedBlocks s !! BB) as [E|] eqn:Hu.
    + rewrite (getBBForDefinition_pending s Name Loc BB E) by done. simpl.
      split; [done|]. apply lookup_delete_eq.
    + by rewrite (getBBForDefinition_redefinition s Name Loc BB).
  - destruct (getBBForDefinition_fresh s Name Loc Hl)
      as (s' & -> & Hnew & _ & HU & _).
    eexists. split; [exact Hnew|]. simpl. rewrite HU.
    destruct (UndefinedBlocks s !! _) as [[L0 N0]|] eqn:E; [|done].
    apply Hpend, (named_live s Hs) in E. by apply allocate_fresh in E.
Qed.

(** X3. Once a name has been defined, every further definition of it, at
    any later point of the function parse, is a redefinition. *)
Theorem every_later_definition_is_a_redefinition
    (s : RState) (Name : Identifier) (Loc1 Loc2 : SourceLoc)
    (acts : list action) :
  consistent s → tablesAgree s →
  Forall keepsBlocks acts →
  ∃ New,
    (getBBForDefinition Name Loc2
       (performAll acts (getBBForDefinition Name Loc1 s).2)).1 = Ok New ∧
    lookupBB (performAll acts (getBBForDefinition Name Loc1 s).2) Name ≠ Some New ∧
    Diags (P (getBBForDefinition Name Loc2
                (performAll acts (getBBForDefinition Name Loc1 s).2)).2)
    = Diags (P (performAll acts (getBBForDefinition Name Loc1 s).2))
      ++ [(Loc2, basicblock_redefinition Name)] ∧
    HadError (getBBForDefinition Name Loc2
                (performAll acts (getBBForDefinition Name Loc1 s).2)).2 = true.
Proof.
  intros Hs Ht Hk.
  set (s1 := (getBBForDefinition Name Loc1 s).2).
  assert (consistent s1) as Hs1 by by apply getBBForDefinition_consistent.
  assert (isDefined s1 Name) as Hd1 by by apply getBBForDefinition_defines.
  assert (consistent (performAll acts s1) ∧ isDefined (performAll acts s1) Name)
    as [Hs2 (BB & Hl & Hu)].
  { clearbody s1. clear Hs Ht. revert s1 Hs1 Hd1.
    induction Hk as [|a acts Ha _ IH]; intros s1 Hs1 Hd1; [done|]. simpl.
    apply IH; [by apply perform_consistent|by apply perform_keeps_defined]. }
  pose proof (allocate_fresh (dom (Blocks (SILMod (performAll acts s1)))))
    as Hfresh.
  pose proof (named_live _ Hs2 Name BB Hl) as Hlive.
  rewrite (getBBForDefinition_redefinition _ Name Loc2 BB Hl Hu).
  eexists. split; [reflexivity|]. split; [|done].
  rewrite Hl. intros [= ->]. by apply Hfresh.
Qed.
End Defined.

(** ** The block of a redefinition *)

Section Disconnected.
Context {SILType Decls : Type} `{AR : Arena}.
#[local] Abbreviation RState := (SILParserFunctionState SILType Decls).

Lemma getBBForDefinition_unnamed (s : RState) Name Loc BB :
  unnamed s BB →
  unnamed (getBBForDefinition Name Loc s).2 BB ∧
  (getBBForDefinition Name Loc s).1 ≠ Ok BB.
Proof.
  intros [Hlive Hno].
  pose proof (allocate_fresh (dom (Blocks (SILMod s)))) as Hfresh.
  assert (allocate (dom (Blocks (SILMod s))) ≠ BB) as Hne by (by intros <-).
  destruct (lookupBB s Name) as [BB'|] eqn:Hl.
  - destruct (UndefinedBlocks s !! BB') as [E|] eqn:Hu.
    + rewrite (getBBForDefinition_pending s Name Loc BB' E) by done.
      simpl. split; [by split|]. intros [= ->]. by apply (Hno Name).
    + rewrite (getBBForDefinition_redefinition s Name Loc BB') by done.
      simpl. split; [|congruence]. split.
      * unfold SILMod. simpl. rewrite dom_insert. set_solver.
      * done.
  - destruct (getBBForDefinition_fresh s Name Loc Hl)
      as (s' & -> & Hn & Hothers & _ & HB & _).
    simpl. split; [|congruence]. split.
    + rewrite HB, dom_insert. set_solver.
    + intros N. destruct (decide (N = Name)) as [->|HN].
      * rewrite Hn. congruence.
      * rewrite Hothers by done. apply Hno.
Qed.

Lemma getBBForReference_unnamed (s : RState) Name Loc BB :
  unnamed s BB →
  unnamed (getBBForReference Name Loc s).2 BB ∧
  (getBBForReference Name Loc s).1 ≠ Ok BB.
Proof.
  intros [Hlive Hno].
  pose proof (allocate_fresh (dom (Blocks (SILMod s)))) as Hfresh.
  assert (allocate (dom (Blocks (SILMod s))) ≠ BB) as Hne by (by intros <-).
  destruct (lookupBB s Name) as [BB'|] eqn:Hl.
  - rewrite (getBBForReference_known s Name Loc BB') by done.
    simpl. split; [by split|]. intros [= ->]. by apply (Hno Name).
  - destruct (getBBForReference_forward s Name Loc Hl)
      as (s' & -> & Hn & Hothers & _ & HB & _).
    simpl. split; [|congruence]. split.
    + rewrite HB, dom_insert. set_solver.
    + intros N. destruct (decide (N = Name)) as [->|HN].
      * rewrite Hn. congruence.
      * rewrite Hothers by done. apply Hno.
Qed.

Lemma perform_unnamed (a : action SILType Decls) (s : RState) BB :
  keepsBlocks a → unnamed s BB → unnamed (perform a s) BB.
Proof.
  intros Hk Hu. destruct a as [Name Loc|Name Loc|f]; simpl.
  - by apply getBBForDefinition_unnamed.
  - by apply getBBForReference_unnamed.
  - destruct Hu as [Hlive Hno]. split; [|done].
    simpl in Hk. unfold SILMod. simpl. by apply (Hk (P s)).
Qed.

Lemma performAll_unnamed (acts : list (action SILType Decls)) (s : RState) BB :
  Forall keepsBlocks acts → unnamed s BB → unnamed (performAll acts s) BB.
Proof.
  intros Hk. revert s. induction Hk as [|a acts Ha _ IH]; intros s Hu; [done|].
  simpl. apply IH. by apply perform_unnamed.
Qed.

(** X4. The block made for a redefinition stays out of reach.  Whatever is
    defined and referred to afterwards, no name ever stands for it and no
    later definition or reference returns it. *)
Theorem redefinition_block_is_never_returned_again
    (s : RState) (Name : Identifier) (Loc : SourceLoc) (BB : SILBasicBlock)
    (acts : list (action SILType Decls)) :
  consistent s →
  lookupBB s Name = Some BB →
  UndefinedBlocks s !! BB = None →
  Forall keepsBlocks acts →
  ∃ New s1,
    getBBForDefinition Name Loc s = (Ok New, s1) ∧
    (∀ N, lookupBB (performAll acts s1) N ≠ Some New) ∧
    (∀ N L, (getBBForDefinition N L (performAll acts s1)).1 ≠ Ok New) ∧
    (∀ N L, (getBBForReference N L (performAll acts s1)).1 ≠ Ok New).
Proof.
  intros Hc Hl Hu Hk.
  pose proof (getBBForDefinition_redefinition s Name Loc BB Hl Hu) as Hdef.
  cbv zeta in Hdef.
  set (New := allocate (dom (Blocks (SILMod s)))) in *.
  eexists New, _. split; [exact Hdef|].
  match type of Hdef with _ = (_, ?t) => set (s1 := t) in * end.
  assert (unnamed s1 New) as Hun.
  { split.
    - unfold s1, SILMod. simpl. rewrite dom_insert. set_solver.
    - intros N HN. apply (allocate_fresh (dom (Blocks (SILMod s)))).
      by apply (named_live s Hc N). }
  pose proof (performAll_unnamed acts s1 New Hk Hun) as Hlater.
  split; [apply Hlater|]. split.
  - intros N L. by apply getBBForDefinition_unnamed.
  - intros N L. by apply getBBForReference_unnamed.
Qed.
End Disconnected.

(** ** What [diagnoseProblems] reports *)

Section DiagnoseAll.
Context {SILType Decls : Type} `{DO : DenseMapOrder}.
#[local] Abbreviation RState := (SILParserFunctionState SILType Decls).

(** The iterator meets every entry of the table once. *)
Lemma entries_Permutation (U : gmap SILBasicBlock (SourceLoc * Identifier)) :
  entries U ≡ₚ map_to_list U.
Proof.
  unfold entries.
  assert (elements (dom U) ≡ₚ (map_to_list U).*1) as Hkeys.
  { apply list.NoDup_Permutation.
    - apply NoDup_elements.
    - apply NoDup_fst_map_to_list.
    - intros BB. rewrite elem_of_elements, elem_of_dom, list_elem_of_fmap.
      split.
      + intros [E HE]. exists (BB, E). split; [done|].
        by apply elem_of_map_to_list.
      + intros ([BB' E] & -> & HE). apply elem_of_map_to_list in HE. eauto. }
  rewrite buckets_perm, Hkeys.
  assert (∀ l : list (SILBasicBlock * (SourceLoc * Identifier)),
            (∀ BB E, (BB, E) ∈ l → U !! BB = Some E) →
            omap (λ BB, (λ E, (BB, E)) <$> U !! BB) l.*1 = l) as Hall.
  { induction l as [|[BB E] l IH]; intros Hl; [done|]. simpl.
    rewrite (Hl BB E) by left. simpl. f_equal. apply IH.
    intros BB' E' Hin. apply Hl. by right. }
  rewrite Hall; [done|]. intros BB E. apply elem_of_map_to_list.
Qed.

(** X5. [diagnoseProblems] reports every pending block once, with the
    name and the location of its first reference, behind the diagnostics
    already there; it leaves both tables as they are, and it fails exactly
    if an error was recorded before or something was pending. *)
Theorem diagnoseProblems_reports_each_pending_block (s : RState) :
  ∃ Reported,
    Diags (P (diagnoseProblems s).2) = Diags (P s) ++ Reported ∧
    Reported ≡ₚ
      map (λ Entry, (Entry.2.1, undefined_basicblock_use Entry.2.2))
          (map_to_list (UndefinedBlocks s)) ∧
    length Reported = size (UndefinedBlocks s) ∧
    UndefinedBlocks (diagnoseProblems s).2 = UndefinedBlocks s ∧
    BlocksByName (diagnoseProblems s).2 = BlocksByName s ∧
    HadError (diagnoseProblems s).2
      = (HadError s || bool_decide (UndefinedBlocks s ≠ ∅)) ∧
    ((diagnoseProblems s).1 = Error ↔ HadError (diagnoseProblems s).2 = true) ∧
    ((diagnoseProblems s).1 = Ok tt ↔ HadError (diagnoseProblems s).2 = false).
Proof.
  destruct (decide (UndefinedBlocks s = ∅)) as [He|Hne].
  - exists []. rewrite diagnoseProblems_none by done. rewrite He.
    rewrite map_to_list_empty, map_size_empty, app_nil_r.
    rewrite bool_decide_eq_false_2 by (intros Hc; by apply Hc).
    rewrite orb_false_r. simpl.
    repeat (split; [done|]). by destruct (HadError s).
  - eexists. rewrite diagnoseProblems_pending by done. simpl.
    split; [reflexivity|]. split; [by rewrite entries_Permutation|].
    split.
    { rewrite length_map, entries_Permutation. apply length_map_to_list. }
    rewrite bool_decide_eq_true_2, orb_true_r by done. done.
Qed.
End DiagnoseAll.

(** ** Postconditions of the parsing functions *)

Section Ensures.
Context {S : Type} (Q : S → result unit → S → Prop).
Hypothesis Q_refl : ∀ s r, r ≠ Error → Q s r s.
Hypothesis Q_trans : ∀ s s1 s2 r, Q s (Ok tt) s1 → Q s1 r s2 → Q s r s2.
Hypothesis Q_forgive : ∀ s s', Q s Error s' → Q s (Ok tt) s'.

Lemma ensures_ret {A} (a : A) : ensures Q (ret a).
Proof using Q_refl. intros s. by apply Q_refl. Qed.
Lemma ensures_abort {A} : ensures Q (@abort S A).
Proof using Q_refl. intros s. by apply Q_refl. Qed.
Lemma ensures_out_of_fuel {A} : ensures Q (@out_of_fuel S A).
Proof using Q_refl. intros s. by apply Q_refl. Qed.
Lemma ensures_gets {A} (g : S → A) : ensures Q (gets g).
Proof using Q_refl. intros s. by apply Q_refl. Qed.

Lemma ensures_bind {A B} (c : M S A) (k : A → M S B) :
  ensures Q c → (∀ a, ensures Q (k a)) → ensures Q (bind c k).
Proof using Q_trans.
  intros Hc Hk s. unfold bind. specialize (Hc s).
  destruct (c s) as [[a| | |] s1]; simpl in *; try done.
  eapply Q_trans; [exact Hc|apply Hk].
Qed.

Lemma ensures_ignoreResult {A} (c : M S A) :
  ensures Q c → ensures Q (ignoreResult c).
Proof using Q_forgive.
  intros Hc s. unfold ignoreResult. specialize (Hc s).
  destruct (c s) as [[a| | |] s1]; simpl in *; try done. by apply Q_forgive.
Qed.
End Ensures.

Section EnsuresParsing.
Context `{FE : Frontend} `{AR : Arena}.
#[local] Abbreviation Parser' := (Parser SILType Decls).
#[local] Abbreviation State' := (SILParserFunctionState SILType Decls).
Context (Q : State' → result unit → State' → Prop).
Hypothesis Q_refl : ∀ s r, r ≠ Error → Q s r s.
Hypothesis Q_trans : ∀ s s1 s2 r, Q s (Ok tt) s1 → Q s1 r s2 → Q s r s2.
Hypothesis Q_forgive : ∀ s s', Q s Error s' → Q s (Ok tt) s'.
Hypothesis Q_consume : ∀ s T Rest, Q s (Ok tt) (setP (setToken T Rest (P s)) s).
Hypothesis Q_report : ∀ s Loc D r,
  syntaxDiag D = true → Q s r (setP (addDiags [(Loc, D)] (P s)) s).
Hypothesis Q_parseType : ∀ D, syntaxDiag D = true → ensures Q (inP (parseType D)).
Hypothesis Q_scope : ∀ Ty, ensures Q (inP (typeCheckingScope Ty)).
Hypothesis Q_definition : ∀ Name Loc, ensures Q (getBBForDefinition Name Loc).
Hypothesis Q_function : ∀ Linkage Name Ty,
  ensures Q (newSILFunction Linkage Name Ty).
Hypothesis Q_setF : ∀ Fn, ensures Q (modify (setF Fn)).

Lemma ensures_consumeToken : ensures Q (inP consumeToken).
Proof using Q_consume.
  intros s. unfold inP, zoom, consumeToken. destruct (lex _ _). apply Q_consume.
Qed.

Lemma ensures_consumeTokenOfKind K : ensures Q (inP (consumeTokenOfKind K)).
Proof using Q_consume Q_refl.
  intros s. unfold inP, zoom, consumeTokenOfKind.
  destruct (is_ K (Tok (P s))).
  - apply ensures_consumeToken.
  - simpl. destruct s. by apply Q_refl.
Qed.

Lemma ensures_consumeIf K : ensures Q (inP (consumeIf K)).
Proof using Q_consume Q_refl.
  intros s. unfold inP, zoom, consumeIf, bind, consumeToken.
  destruct (is_ K (Tok (P s))).
  - destruct (lex _ _). apply Q_consume.
  - simpl. destruct s. by apply Q_refl.
Qed.

Lemma ensures_diagnose Loc D :
  syntaxDiag D = true → ensures Q (inP (diagnose Loc D)).
Proof using Q_report. intros HD s. by apply Q_report. Qed.

Lemma ensures_diagnose_fail {A} Loc D :
  syntaxDiag D = true → ensures Q (inP (diagnose Loc D) ;; @fail _ A).
Proof using Q_report. intros HD s. by apply Q_report. Qed.

Lemma ensures_parseToken K D :
  syntaxDiag D = true → ensures Q (inP (parseToken K D)).
Proof using Q_consume Q_report.
  intros HD s. unfold inP, zoom, parseToken.
  destruct (is_ K (Tok (P s))).
  - apply ensures_consumeToken.
  - by apply Q_report.
Qed.

Lemma ensures_parseIdentifier D :
  syntaxDiag D = true → ensures Q (inP (parseIdentifier D)).
Proof using Q_consume Q_report.
  intros HD s. unfold inP, zoom, parseIdentifier, bind, consumeToken.
  destruct (is_ _ (Tok (P s))).
  - destruct (lex _ _). apply Q_consume.
  - by apply Q_report.
Qed.

Lemma ensures_parseMatchingToken K D Loc :
  syntaxDiag D = true → ensures Q (inP (parseMatchingToken K D Loc)).
Proof using Q_consume Q_report Q_trans.
  intros HD s. unfold inP, zoom, parseMatchingToken.
  destruct (is_ K (Tok (P s))).
  - apply ensures_consumeToken.
  - eapply Q_trans; [exact (Q_report s (getLoc (Tok (P s))) D (Ok tt) HD)|].
    exact (Q_report _ Loc (note_opening K) Error eq_refl).
Qed.

Lemma ensures_parseSILLinkage : ensures Q (inP parseSILLinkage).
Proof using Q_consume Q_report Q_refl.
  intros s. unfold inP, zoom. rewrite parseSILLinkage_unfold.
  destruct (consumeToken_peek (P s)) as [Hc _].
  repeat case_decide; simpl.
  - unfold consumeToken in *. destruct (lex _ _). apply Q_consume.
  - unfold consumeToken in *. destruct (lex _ _). apply Q_consume.
  - by apply Q_report.
  - destruct s. by apply Q_refl.
Qed.

Ltac ensures_branch :=
  match goal with
  | |- ensures _ (if ?c then _ else _) => destruct c
  | |- ensures _ (match ?x with _ => _ end) => destruct x
  end.

Ltac ensures_basic :=
  first [ apply ensures_ret; assumption
        | apply ensures_abort; assumption
        | apply ensures_out_of_fuel; assumption
        | apply ensures_gets; assumption
        | apply ensures_diagnose_fail; reflexivity
        | apply ensures_consumeToken
        | apply ensures_consumeTokenOfKind
        | apply ensures_consumeIf
        | apply ensures_parseToken; reflexivity
        | apply ensures_parseIdentifier; reflexivity
        | apply ensures_parseMatchingToken; reflexivity
        | apply ensures_diagnose; reflexivity ].

Ltac ensures_step tac :=
  first [ ensures_basic | tac
        | apply ensures_bind; [assumption| |intros ?]
        | ensures_branch ].

Ltac ensures_simple :=
  repeat first [ ensures_basic
               | apply ensures_bind; [assumption| |intros ?]
               | ensures_branch ].

Lemma ensures_parseSILTypeAttributes fuel IsSRet UncurryLevel :
  ensures Q (parseSILTypeAttributes fuel IsSRet UncurryLevel).
Proof using Q_refl Q_trans Q_consume Q_report.
  revert IsSRet UncurryLevel. induction fuel as [|fuel IH]; intros IsSRet U.
  - by apply ensures_out_of_fuel.
  - cbn [parseSILTypeAttributes]. unfold curTok.
    repeat ensures_step ltac:(apply IH).
Qed.

Lemma ensures_parseSILType : ensures Q parseSILType.
Proof using Q_refl Q_trans Q_consume Q_report Q_parseType Q_scope.
  unfold parseSILType, curTok.
  repeat ensures_step
    ltac:(first [ apply ensures_parseSILTypeAttributes
                | apply Q_parseType; reflexivity | apply Q_scope ]).
Qed.

Lemma ensures_parseTypedValueRef : ensures Q parseTypedValueRef.
Proof using Q_refl Q_trans Q_consume Q_report Q_parseType Q_scope.
  unfold parseTypedValueRef.
  repeat ensures_step ltac:(apply ensures_parseSILType).
Qed.

Lemma ensures_parseSILOpcode : ensures Q parseSILOpcode.
Proof using Q_refl Q_trans Q_consume Q_report.
  unfold parseSILOpcode, curTok. ensures_simple.
Qed.

Lemma ensures_parseTupleOperands fuel : ensures Q (parseTupleOperands fuel).
Proof using Q_refl Q_trans Q_consume Q_report Q_parseType Q_scope.
  induction fuel as [|fuel IH]; [by apply ensures_out_of_fuel|].
  cbn [parseTupleOperands]. unfold curTok.
  repeat ensures_step
    ltac:(first [apply ensures_parseTypedValueRef | apply IH]).
Qed.

Lemma ensures_parseSILInstruction BB : ensures Q (parseSILInstruction BB).
Proof using Q_refl Q_trans Q_consume Q_report Q_parseType Q_scope.
  unfold parseSILInstruction, curTok.
  repeat ensures_step
    ltac:(first [ apply ensures_parseSILOpcode
                | apply ensures_parseTupleOperands
                | apply ensures_parseTypedValueRef ]).
Qed.

Lemma ensures_parseInstructions fuel BB :
  ensures Q (parseInstructions fuel BB).
Proof using Q_refl Q_trans Q_consume Q_report Q_parseType Q_scope.
  induction fuel as [|fuel IH]; [by apply ensures_out_of_fuel|].
  cbn [parseInstructions]. unfold curTok.
  repeat ensures_step
    ltac:(first [apply ensures_parseSILInstruction | apply IH]).
Qed.

Lemma ensures_parseSILBasicBlock : ensures Q parseSILBasicBlock.
Proof using Q_refl Q_trans Q_consume Q_report Q_parseType Q_scope Q_definition.
  unfold parseSILBasicBlock.
  repeat ensures_step
    ltac:(first [ apply Q_definition | apply ensures_parseInstructions ]).
Qed.

Lemma ensures_parseBasicBlocks fuel : ensures Q (parseBasicBlocks fuel).
Proof using Q_refl Q_trans Q_consume Q_report Q_parseType Q_scope Q_definition.
  induction fuel as [|fuel IH]; [by apply ensures_out_of_fuel|].
  cbn [parseBasicBlocks]. unfold curTok.
  repeat ensures_step
    ltac:(first [apply ensures_parseSILBasicBlock | apply IH]).
Qed.

Lemma ensures_parseDeclSILHeader : ensures Q parseDeclSILHeader.
Proof using Q_refl Q_trans Q_consume Q_report Q_parseType Q_scope Q_function
  Q_setF.
  unfold parseDeclSILHeader.
  repeat ensures_step
    ltac:(first [ apply ensures_parseSILType | apply ensures_parseSILLinkage
                | apply Q_function | apply Q_setF ]).
Qed.

Lemma ensures_parseDeclSILBody : ensures Q parseDeclSILBody.
Proof using Q_refl Q_trans Q_forgive Q_consume Q_report Q_parseType Q_scope
  Q_definition.
  unfold parseDeclSILBody.
  repeat ensures_step
    ltac:(first [ apply ensures_parseBasicBlocks
                | apply ensures_ignoreResult; [assumption|] ]).
Qed.

(** The declaration before [diagnoseProblems]. *)
Lemma ensures_declaration_parts :
  ensures Q (parseDeclSILHeader ;; parseDeclSILBody).
Proof using Q_refl Q_trans Q_forgive Q_consume Q_report Q_parseType Q_scope
  Q_definition Q_function Q_setF.
  apply ensures_bind; [assumption|apply ensures_parseDeclSILHeader|].
  intros _. apply ensures_parseDeclSILBody.
Qed.
End EnsuresParsing.

(** ** Errors and names over a declaration *)

Section TablesGrow.
Context `{FE : Frontend} `{AR : Arena} `{DO : DenseMapOrder}.
#[local] Abbreviation Parser' := (Parser SILType Decls).
#[local] Abbreviation State' := (SILParserFunctionState SILType Decls).

Lemma tablesGrow_refl (s : State') : tablesGrow s s.
Proof. by repeat split. Qed.

Lemma tablesGrow_trans (s s1 s2 : State') :
  tablesGrow s s1 → tablesGrow s1 s2 → tablesGrow s s2.
Proof. intros (?&?&?&?) (?&?&?&?). repeat split; eauto. Qed.

Lemma tablesGrow_setP (s : State') p : tablesGrow s (setP p s).
Proof. by repeat split. Qed.

Lemma tablesGrow_getBBForDefinition (s : State') Name Loc :
  tablesGrow s (getBBForDefinition Name Loc s).2.
Proof.
  split; [|split; [|split]].
  - intros HE. unfold getBBForDefinition, bind, subscript, erase.
    destruct (BlocksByName s !! Name) as [[BB|]|]; simpl; try done.
    by destruct (UndefinedBlocks s !! BB).
  - intros N BB. apply (perform_keeps_named (Define Name Loc)).
  - intros HU. destruct (lookupBB s Name) as [BB|] eqn:Hl.
    + rewrite (getBBForDefinition_redefinition s Name Loc BB); [done..|].
      by rewrite HU.
    + destruct (getBBForDefinition_fresh s Name Loc Hl)
        as (s' & -> & _ & _ & HU' & _). simpl. by rewrite HU'.
  - apply getBBForDefinition_no_null.
Qed.

Lemma ensures_tablesGrow {A} (c : M State' A) :
  (∀ Q : State' → result unit → State' → Prop,
     (∀ s r, r ≠ Error → Q s r s) →
     (∀ s s1 s2 r, Q s (Ok tt) s1 → Q s1 r s2 → Q s r s2) →
     (∀ s s', Q s Error s' → Q s (Ok tt) s') →
     (∀ s T Rest, Q s (Ok tt) (setP (setToken T Rest (P s)) s)) →
     (∀ s Loc D r, syntaxDiag D = true →
                   Q s r (setP (addDiags [(Loc, D)] (P s)) s)) →
     (∀ D, syntaxDiag D = true → ensures Q (inP (parseType D))) →
     (∀ Ty, ensures Q (inP (typeCheckingScope Ty))) →
     (∀ Name Loc, ensures Q (getBBForDefinition Name Loc)) →
     (∀ Linkage Name Ty, ensures Q (newSILFunction Linkage Name Ty)) →
     (∀ Fn, ensures Q (modify (setF Fn))) →
     ensures Q c) →
  ∀ s, tablesGrow s (c s).2.
Proof.
  intros Hc s.
  apply (Hc (λ s _ s', tablesGrow s s')); clear s.
  - intros. apply tablesGrow_refl.
  - intros * H1 H2. by eapply tablesGrow_trans.
  - done.
  - intros. apply tablesGrow_setP.
  - intros. apply tablesGrow_setP.
  - intros D _ s. unfold inP, zoom. destruct (parseType D (P s)).
    apply tablesGrow_setP.
  - intros Ty s. unfold inP, zoom. destruct (typeCheckingScope Ty (P s)).
    apply tablesGrow_setP.
  - intros N L s. apply tablesGrow_getBBForDefinition.
  - intros lk nm ty s. apply tablesGrow_setP.
  - intros Fn s. by repeat split.
Qed.

(** X6. No parsing function clears the error flag, gives a name another
    block, or makes a block pending. *)
Theorem parsing_keeps_errors_and_names (fuel : nat) (s : State') :
  tablesGrow s (parseSILBasicBlock s).2 ∧
  tablesGrow s (parseBasicBlocks fuel s).2 ∧
  tablesGrow s (parseDeclSILBody s).2 ∧
  tablesGrow s (parseDeclSILHeader s).2.
Proof.
  split; [|split; [|split]].
  - apply ensures_tablesGrow. intros. by apply ensures_parseSILBasicBlock.
  - apply ensures_tablesGrow. intros. by apply ensures_parseBasicBlocks.
  - apply ensures_tablesGrow. intros. by apply ensures_parseDeclSILBody.
  - apply ensures_tablesGrow. intros. by apply ensures_parseDeclSILHeader.
Qed.

Lemma parseDeclSIL_by_body (p : Parser') :
  parseDeclSIL p =
    (let '(r, s) :=
       match bodyOf p with
       | (Ok _, s1) => diagnoseProblems s1
       | (Error, s1) => (Error, s1)
       | (Abort, s1) => (Abort, s1)
       | (OutOfFuel, s1) => (OutOfFuel, s1)
       end in
     (r, setP (setInSILBody false (P s)) s)).
Proof.
  unfold parseDeclSIL, bodyOf, declStart. rewrite bind_assoc.
  unfold bind at 1.
  by destruct ((parseDeclSILHeader ;; parseDeclSILBody) _) as [[]].
Qed.

Lemma bodyOf_tablesGrow (p : Parser') : tablesGrow (declStart p) (bodyOf p).2.
Proof.
  unfold bodyOf.
  apply (ensures_tablesGrow (parseDeclSILHeader ;; parseDeclSILBody)).
  intros. by apply ensures_declaration_parts.
Qed.

(** How a declaration ends: with no block pending, [diagnoseProblems]
    adds nothing and returns the error flag. *)
Lemma parseDeclSIL_outcome (p : Parser') :
  UndefinedBlocks (bodyOf p).2 = ∅ ∧
  UndefinedBlocks (parseDeclSIL p).2 = ∅ ∧
  Diags (P (parseDeclSIL p).2) = Diags (P (bodyOf p).2) ∧
  (∀ HasBody, (bodyOf p).1 = Ok HasBody →
     ((parseDeclSIL p).1 = Error ↔ HadError (bodyOf p).2 = true) ∧
     ((parseDeclSIL p).1 = Ok tt ↔ HadError (bodyOf p).2 = false)).
Proof.
  destruct (bodyOf_tablesGrow p) as (_ & _ & Hempty & _).
  specialize (Hempty eq_refl).
  split; [done|]. rewrite parseDeclSIL_by_body.
  destruct (bodyOf p) as [r1 s1]. cbn [fst snd] in *.
  destruct r1 as [HasBody| | |]; try by repeat split.
  rewrite diagnoseProblems_none by done.
  repeat split; try done; cbn [fst snd] in *;
    intros; simplify_eq; by destruct (HadError s1).
Qed.

(** X7. Nothing in a declaration parse refers to a block, so no block is
    ever pending: [diagnoseProblems] finds nothing to report, and a
    declaration that was parsed to its end fails exactly if the error flag
    was set on the way. *)
Theorem declaration_never_has_pending_blocks (p : Parser') :
  UndefinedBlocks (bodyOf p).2 = ∅ ∧
  UndefinedBlocks (parseDeclSIL p).2 = ∅ ∧
  Diags (P (parseDeclSIL p).2) = Diags (P (bodyOf p).2) ∧
  (∀ HasBody, (bodyOf p).1 = Ok HasBody →
     ((parseDeclSIL p).1 = Error ↔ HadError (bodyOf p).2 = true) ∧
     ((parseDeclSIL p).1 = Ok tt ↔ HadError (bodyOf p).2 = false)).
Proof. exact (parseDeclSIL_outcome p). Qed.
End TablesGrow.

(** ** Diagnostics over a declaration *)

Section Recorded.
Context `{FE : Frontend} `{AR : Arena} `{DO : DenseMapOrder}.
#[local] Abbreviation Parser' := (Parser SILType Decls).
#[local] Abbreviation State' := (SILParserFunctionState SILType Decls).

Lemma recorded_refl (s : State') r : r ≠ Error → recorded s r s.
Proof.
  intros Hr. exists []. rewrite app_nil_r, orb_false_r. done.
Qed.

Lemma recorded_same (s s' : State') r :
  Diags (P s') = Diags (P s) → HadError s' = HadError s → r ≠ Error →
  recorded s r s'.
Proof.
  intros Hd HE Hr. exists []. by rewrite app_nil_r, orb_false_r.
Qed.

Lemma recorded_trans (s s1 s2 : State') r :
  recorded s (Ok tt) s1 → recorded s1 r s2 → recorded s r s2.
Proof.
  intros (ds1 & H1 & HE1 & _) (ds2 & H2 & HE2 & Hr).
  exists (ds1 ++ ds2). rewrite H2, H1, HE2, HE1, existsb_app, app_assoc, orb_assoc.
  repeat split. intros ->. specialize (Hr eq_refl). by destruct ds1, ds2.
Qed.

Lemma recorded_forgive (s s' : State') :
  recorded s Error s' → recorded s (Ok tt) s'.
Proof. intros (ds & H1 & HE & _). by exists ds. Qed.

Lemma recorded_report (s : State') Loc D r :
  syntaxDiag D = true → recorded s r (setP (addDiags [(Loc, D)] (P s)) s).
Proof.
  intros HD. exists [(Loc, D)]. split; [done|]. split; [|done].
  simpl. unfold isRedefinition. simpl.
  destruct D; try done; by rewrite !orb_false_r.
Qed.

Lemma recorded_getBBForDefinition (s : State') Name Loc :
  recorded s (outcome (getBBForDefinition Name Loc s).1)
           (getBBForDefinition Name Loc s).2.
Proof.
  destruct (lookupBB s Name) as [BB|] eqn:Hl.
  - destruct (UndefinedBlocks s !! BB) as [E|] eqn:Hu.
    + rewrite (getBBForDefinition_pending s Name Loc BB E) by done.
      exists []. simpl. by rewrite app_nil_r, orb_false_r.
    + rewrite (getBBForDefinition_redefinition s Name Loc BB) by done.
      exists [(Loc, basicblock_redefinition Name)]. simpl.
      by rewrite orb_true_r.
  - destruct (getBBForDefinition_fresh s Name Loc Hl)
      as (s' & -> & _ & _ & _ & _ & Hd & HE).
    exists []. simpl. by rewrite Hd, HE, app_nil_r, orb_false_r.
Qed.

Lemma ensures_recorded {A} (c : M State' A) :
  frontendReports →
  (∀ Q : State' → result unit → State' → Prop,
     (∀ s r, r ≠ Error → Q s r s) →
     (∀ s s1 s2 r, Q s (Ok tt) s1 → Q s1 r s2 → Q s r s2) →
     (∀ s s', Q s Error s' → Q s (Ok tt) s') →
     (∀ s T Rest, Q s (Ok tt) (setP (setToken T Rest (P s)) s)) →
     (∀ s Loc D r, syntaxDiag D = true →
                   Q s r (setP (addDiags [(Loc, D)] (P s)) s)) →
     (∀ D, syntaxDiag D = true → ensures Q (inP (parseType D))) →
     (∀ Ty, ensures Q (inP (typeCheckingScope Ty))) →
     (∀ Name Loc, ensures Q (getBBForDefinition Name Loc)) →
     (∀ Linkage Name Ty, ensures Q (newSILFunction Linkage Name Ty)) →
     (∀ Fn, ensures Q (modify (setF Fn))) →
     ensures Q c) →
  ensures recorded c.
Proof.
  intros [HpT HpC] Hc. apply Hc.
  - apply recorded_refl.
  - apply recorded_trans.
  - apply recorded_forgive.
  - intros. by apply recorded_same.
  - apply recorded_report.
  - intros D HD s. unfold inP, zoom.
    destruct (HpT D (P s) HD) as (ds & Hd & Hno & Hr).
    destruct (parseType D (P s)) as [r p']. simpl in *.
    exists ds. rewrite Hno, orb_false_r. repeat split; [done|].
    intros Hrr. apply Hr. by destruct r.
  - intros Ty s. unfold inP, zoom, typeCheckingScope.
    case_bool_decide; [|by apply recorded_same].
    destruct (HpC (setASTStage Parsed (TU (P s))) Ty) as [Hno Hr].
    cbn [TU setTU].
    destruct (performTypeLocChecking _ Ty) as [[[Err Ty'] tu] ds].
    simpl in *. exists ds. rewrite Hno, orb_false_r.
    destruct Err; simpl; repeat split; auto.
  - intros N L s. apply recorded_getBBForDefinition.
  - intros lk nm ty s. by apply recorded_same.
  - intros Fn s. by apply recorded_same.
Qed.

Lemma declaration_recorded (p : Parser') :
  frontendReports →
  recorded (declStart p) (outcome (bodyOf p).1) (bodyOf p).2.
Proof.
  intros Hfe. unfold bodyOf.
  apply (ensures_recorded (parseDeclSILHeader ;; parseDeclSILBody) Hfe).
  intros. by apply ensures_declaration_parts.
Qed.

(** X8. Diagnostics are only ever added, and a declaration does not fail
    silently: when [parseDeclSIL] returns [true] it has reported
    something. *)
Theorem every_failure_is_reported (p : Parser') :
  frontendReports →
  ∃ ds, Diags (P (parseDeclSIL p).2) = Diags p ++ ds ∧
        ((parseDeclSIL p).1 = Error → ds ≠ []).
Proof.
  intros Hfe. destruct (declaration_recorded p Hfe) as (ds & Hd & HE & Hr).
  destruct (parseDeclSIL_outcome p) as (_ & _ & Hsame & Hres).
  exists ds. rewrite Hsame. split; [done|]. intros Hfail.
  destruct (bodyOf p).1 as [HasBody| | |] eqn:Hb.
  - destruct (Hres HasBody eq_refl) as [Hiff _]. apply Hiff in Hfail.
    rewrite HE in Hfail. simpl in Hfail. by destruct ds.
  - by apply Hr.
  - rewrite parseDeclSIL_by_body in Hfail.
    destruct (bodyOf p) as [r1 s1]. by simplify_eq/=.
  - rewrite parseDeclSIL_by_body in Hfail.
    destruct (bodyOf p) as [r1 s1]. by simplify_eq/=.
Qed.

(** X9. A declaration that was parsed to its end fails if and only if a
    block name was defined twice. *)
Theorem complete_declaration_fails_iff_redefinition (p : Parser')
    (HasBody : bool) :
  frontendReports →
  (bodyOf p).1 = Ok HasBody →
  ∃ ds, Diags (P (parseDeclSIL p).2) = Diags p ++ ds ∧
        ((parseDeclSIL p).1 = Error ↔
           ∃ Loc Name, (Loc, basicblock_redefinition Name) ∈ ds).
Proof.
  intros Hfe Hb. destruct (declaration_recorded p Hfe) as (ds & Hd & HE & _).
  destruct (parseDeclSIL_outcome p) as (_ & _ & Hsame & Hres).
  destruct (Hres HasBody Hb) as [Hiff _].
  exists ds. rewrite Hsame. split; [done|]. rewrite Hiff, HE. simpl.
  rewrite existsb_exists. split.
  - intros ([Loc D] & Hin & Hd'). unfold isRedefinition in Hd'. simpl in Hd'.
    destruct D; try done. exists Loc, Name. by apply list_elem_of_In.
  - intros (Loc & Name & Hin). exists (Loc, basicblock_redefinition Name).
    split; [by apply list_elem_of_In|done].
Qed.
End Recorded.

Lemma demoFrontend_reports : frontendReports (FE := demoFrontend).
Proof.
  split.
  - intros D p HD.
    change (parseType D p) with
      (if is_ tok_identifier (Tok p)
       then (consumeToken ;; ret (getText (Tok p))) p
       else (diagnose (getLoc (Tok p)) D ;; fail) p).
    destruct (is_ tok_identifier (Tok p)) eqn:Hk.
    + exists []. rewrite app_nil_r. unfold bind, consumeToken.
      by destruct (lex (L p) (EofLoc p)).
    + exists [(getLoc (Tok p), D)]. repeat split; [|done].
      unfold isRedefinition. simpl. by destruct D.
  - intros tu Ty. simpl. by case_decide.
Qed.

(** ** What a declaration adds to the module *)

Section Module.
Context `{FE : Frontend} `{AR : Arena} `{DO : DenseMapOrder}.
#[local] Abbreviation Parser' := (Parser SILType Decls).
#[local] Abbreviation State' := (SILParserFunctionState SILType Decls).

Lemma blocksAdded_same (s s' : State') :
  F s' = F s → SILMod s' = SILMod s → blocksAdded s s'.
Proof.
  intros HF HM. unfold blocksAdded. rewrite HF, HM.
  repeat split; [done|]. intros BB d H1 H2. congruence.
Qed.

Lemma blocksAdded_trans (s s1 s2 : State') :
  blocksAdded s s1 → blocksAdded s1 s2 → blocksAdded s s2.
Proof.
  intros (HF1 & HN1 & Hk1 & Hn1) (HF2 & HN2 & Hk2 & Hn2).
  split; [congruence|]. split; [congruence|]. split; [by auto|].
  intros BB d Hd Hnone.
  destruct (Blocks (SILMod s1) !! BB) as [d1|] eqn:H1.
  - rewrite (Hk2 _ _ H1) in Hd. simplify_eq. by apply (Hn1 BB).
  - rewrite <- HF1. by apply (Hn2 BB).
Qed.

Lemma blocksAdded_insert (s s' : State') :
  F s' = F s →
  Functions (SILMod s') = Functions (SILMod s) →
  Blocks (SILMod s') =
    <[allocate (dom (Blocks (SILMod s))) := mkBlock (F s) []]>
      (Blocks (SILMod s)) →
  blocksAdded s s'.
Proof.
  intros HF HN HB.
  pose proof (allocate_fresh (dom (Blocks (SILMod s)))) as Hfresh.
  apply not_elem_of_dom in Hfresh.
  split; [done|]. split; [done|]. rewrite HB. split.
  - intros BB d Hd. rewrite lookup_insert_ne; [done|]. congruence.
  - intros BB d Hd Hnone.
    destruct (decide (allocate (dom (Blocks (SILMod s))) = BB)) as [<-|Hne].
    + rewrite lookup_insert_eq in Hd. by simplify_eq.
    + rewrite lookup_insert_ne in Hd by done. congruence.
Qed.

Lemma blocksAdded_getBBForDefinition (s : State') Name Loc :
  blocksAdded s (getBBForDefinition Name Loc s).2.
Proof.
  unfold getBBForDefinition, bind, subscript, erase.
  destruct (BlocksByName s !! Name) as [[BB|]|]; simpl.
  - destruct (UndefinedBlocks s !! BB); simpl.
    + by apply blocksAdded_same.
    + by apply blocksAdded_insert.
  - by apply blocksAdded_insert.
  - by apply blocksAdded_insert.
Qed.

Lemma typeCheckingScope_SIL Ty (p : Parser') :
  SIL (typeCheckingScope Ty p).2 = SIL p.
Proof.
  unfold typeCheckingScope. case_bool_decide; [|done]. cbn [TU setTU].
  destruct (performTypeLocChecking _ Ty) as [[[Err Ty'] tu] ds].
  by destruct Err.
Qed.

Lemma blocksAdded_inP {A} (c : M Parser' A) (s : State') :
  SIL (c (P s)).2 = SIL (P s) → blocksAdded s (inP c s).2.
Proof.
  intros Hc. apply blocksAdded_same; unfold inP, zoom; destruct (c (P s)); done.
Qed.

Lemma blocksAdded_body (s : State') :
  frontendKeepsModule →
  blocksAdded s (parseSILBasicBlock s).2 ∧
  blocksAdded s (parseDeclSILBody s).2.
Proof.
  intros Hfe'.
  set (Q := λ (s : State') (r : result unit) (s' : State'), blocksAdded s s').
  assert (Hrefl : ∀ s r, r ≠ Error → Q s r s)
    by (intros; by apply blocksAdded_same).
  assert (Htrans : ∀ s s1 s2 r, Q s (Ok tt) s1 → Q s1 r s2 → Q s r s2)
    by (intros ? ? ? ?; apply blocksAdded_trans).
  assert (Hforgive : ∀ s s', Q s Error s' → Q s (Ok tt) s') by done.
  assert (Hconsume : ∀ s T Rest, Q s (Ok tt) (setP (setToken T Rest (P s)) s))
    by (intros; by apply blocksAdded_same).
  assert (Hreport : ∀ s Loc D r, syntaxDiag D = true →
                      Q s r (setP (addDiags [(Loc, D)] (P s)) s))
    by (intros; by apply blocksAdded_same).
  assert (HpT : ∀ D, syntaxDiag D = true → ensures Q (inP (parseType D))).
  { intros D _ s0. apply blocksAdded_inP, Hfe'. }
  assert (Hscope : ∀ Ty, ensures Q (inP (typeCheckingScope Ty))).
  { intros Ty s0. apply blocksAdded_inP, typeCheckingScope_SIL. }
  assert (Hdef : ∀ Name Loc, ensures Q (getBBForDefinition Name Loc)).
  { intros Name Loc s0. apply blocksAdded_getBBForDefinition. }
  split.
  - by apply (ensures_parseSILBasicBlock Q).
  - by apply (ensures_parseDeclSILBody Q).
Qed.

(** X10. Parsing a basic block or the body of a declaration adds blocks
    to the module and does nothing else to it: the blocks that were there
    stay as they were, those that came have no instructions, and no
    function is added.  The block passed to [parseSILInstruction] is never
    written to. *)
Theorem body_only_adds_empty_blocks (s : State') :
  frontendKeepsModule →
  blocksAdded s (parseSILBasicBlock s).2 ∧
  blocksAdded s (parseDeclSILBody s).2.
Proof. apply blocksAdded_body. Qed.

(** The module and the function of the state, which the header leaves
    alone until it creates the function. *)
Lemma keepsModule_inP {A} (c : M Parser' A) :
  preserves SIL c → preserves (λ s : State', (SILMod s, F s)) (inP c).
Proof.
  intros Hc s. unfold inP, zoom, SILMod. specialize (Hc (P s)).
  destruct (c (P s)). simpl in *. by rewrite Hc.
Qed.

Lemma keepsModule_parseSILType :
  frontendKeepsModule →
  preserves (λ s : State', (SILMod s, F s)) parseSILType.
Proof.
  intros Hfe. apply preserves_parseSILType.
  - intros A c Hc. apply keepsModule_inP. by apply Hc.
  - intros D. apply keepsModule_inP. intros p. apply Hfe.
  - intros Ty. apply keepsModule_inP. intros p. apply typeCheckingScope_SIL.
Qed.

Lemma parseDeclSILHeader_function (s : State') :
  frontendKeepsModule →
  match parseDeclSILHeader s with
  | (Ok _, s') =>
      ∃ Linkage Name Ty,
        SILMod s' = mkModule (Blocks (SILMod s))
                      (Functions (SILMod s) ++ [mkFunction Linkage Name Ty]) ∧
        F s' = Some (length (Functions (SILMod s)))
  | (_, s') => SILMod s' = SILMod s ∧ F s' = F s
  end.
Proof.
  intros Hfe. unfold parseDeclSILHeader.
  set (g := λ s : State', (SILMod s, F s)).
  assert (Hg : ∀ s1 s2 : State', g s1 = g s2 → SILMod s1 = SILMod s2 ∧ F s1 = F s2)
    by (intros ? ? [= -> ->]; done).
  assert (Htok : ∀ A (c : M Parser' A),
            (∀ Y (h : Parser' → Y),
               (∀ T Rest p, h (setToken T Rest p) = h p) →
               (∀ ds p, h (addDiags ds p) = h p) → preserves h c) →
            preserves g (inP c)).
  { intros A c Hc. apply keepsModule_inP. by apply Hc. }
  assert (H1 : preserves g (inP (consumeTokenOfKind tok_kw_sil))).
  { apply Htok. intros. by apply preserves_consumeTokenOfKind. }
  assert (H2 : preserves g (inP parseSILLinkage)).
  { apply Htok. intros. by apply preserves_parseSILLinkage. }
  assert (H3 : ∀ K D, preserves g (inP (parseToken K D))).
  { intros. apply Htok. intros. by apply preserves_parseToken. }
  assert (H4 : ∀ D, preserves g (inP (parseIdentifier D))).
  { intros. apply Htok. intros. by apply preserves_parseIdentifier. }
  pose proof (keepsModule_parseSILType Hfe) as H5. fold g in H5.
  unfold bind.
  specialize (H1 s).
  destruct (inP (consumeTokenOfKind tok_kw_sil) s) as [[?| | |] s1];
    simpl in H1; try (by apply Hg).
  specialize (H2 s1).
  destruct (inP parseSILLinkage s1) as [[Linkage| | |] s2];
    simpl in H2; try (apply Hg; congruence).
  pose proof (H3 tok_sil_at_sign expected_sil_function_name s2) as H3a.
  destruct (inP (parseToken tok_sil_at_sign _) s2) as [[?| | |] s3];
    simpl in H3a; try (apply Hg; congruence).
  specialize (H4 expected_sil_function_name s3).
  destruct (inP (parseIdentifier _) s3) as [[Name| | |] s4];
    simpl in H4; try (apply Hg; congruence).
  pose proof (H3 tok_colon expected_sil_type s4) as H3b.
  destruct (inP (parseToken tok_colon _) s4) as [[?| | |] s5];
    simpl in H3b; try (apply Hg; congruence).
  specialize (H5 s5).
  destruct (parseSILType s5) as [[Ty| | |] s6];
    simpl in H5; try (apply Hg; congruence).
  assert (g s6 = g s) as [HM HF]%Hg by congruence.
  exists Linkage, Name.1, Ty. simpl. unfold SILMod in *. simpl.
  by rewrite HM.
Qed.

(** [diagnoseProblems] and the end of the declaration leave the function,
    the module and the table of names as the body left them. *)
Lemma parseDeclSIL_end (p : Parser') :
  F (parseDeclSIL p).2 = F (bodyOf p).2 ∧
  SILMod (parseDeclSIL p).2 = SILMod (bodyOf p).2 ∧
  BlocksByName (parseDeclSIL p).2 = BlocksByName (bodyOf p).2.
Proof.
  rewrite parseDeclSIL_by_body. destruct (bodyOf p) as [[?| | |] s1]; try done.
    simpl. unfold diagnoseProblems, bind, modify, gets, returnHadError. simpl.
    assert (Hloop : ∀ (l : list (SILBasicBlock * (SourceLoc * Identifier)))
                      (t : State'),
              F (forEach l (λ Entry,
                   inP (diagnose Entry.2.1 (undefined_basicblock_use Entry.2.2))) t).2
                = F t ∧
              SILMod (forEach l (λ Entry,
                   inP (diagnose Entry.2.1 (undefined_basicblock_use Entry.2.2))) t).2
                = SILMod t ∧
              BlocksByName (forEach l (λ Entry,
                   inP (diagnose Entry.2.1 (undefined_basicblock_use Entry.2.2))) t).2
                = BlocksByName t ∧
              (forEach l (λ Entry,
                   inP (diagnose Entry.2.1 (undefined_basicblock_use Entry.2.2))) t).1
                = Ok tt).
    { induction l as [|E l IH]; intros t; [done|]. simpl. unfold bind. simpl.
      destruct (IH (setP (addDiags [(E.2.1, undefined_basicblock_use E.2.2)] (P t)) t))
        as (-> & -> & -> & Hr). done. }
    case_bool_decide; simpl.
    - match goal with |- context [forEach ?l ?f ?t] =>
        destruct (Hloop l t) as (HF & HM & HN & Hr);
        destruct (forEach l f t) as [r t'] end.
      simpl in *. subst r. unfold SILMod in *. simpl in *. done.
    - by destruct (HadError s1). 
Qed.

(** X11. A declaration whose header is parsed leaves exactly one new
    function in the module, also when its body fails to parse; one whose
    header is not parsed leaves the module as it was.  The blocks that
    the declaration adds are blocks of the new function, and are
    empty. *)
Theorem declaration_adds_one_function (p : Parser') :
  frontendKeepsModule →
  let s' := (parseDeclSIL p).2 in
  let n := length (Functions (SIL p)) in
  ((headerOf p).1 = Ok tt →
     F s' = Some n ∧
     ∃ Linkage Name Ty,
       Functions (SILMod s') = Functions (SIL p) ++ [mkFunction Linkage Name Ty]) ∧
  ((headerOf p).1 ≠ Ok tt → F s' = None ∧ SILMod s' = SIL p) ∧
  (∀ BB d, Blocks (SIL p) !! BB = Some d → Blocks (SILMod s') !! BB = Some d) ∧
  (∀ BB d, Blocks (SILMod s') !! BB = Some d → Blocks (SIL p) !! BB = None →
           d = mkBlock (Some n) []).
Proof.
  intros Hfe. cbv zeta.
  destruct (parseDeclSIL_end p) as (-> & -> & _).
  unfold bodyOf, headerOf. unfold bind at 1 2 3 4 5 6.
  pose proof (parseDeclSILHeader_function (declStart p) Hfe) as Hh.
  destruct (parseDeclSILHeader (declStart p)) as [[[]| | |] sH]; simpl in *.
  - destruct Hh as (Linkage & Name & Ty & HM & HF).
    destruct (blocksAdded_body sH Hfe) as [_ (HF' & HN' & Hk & Hn)].
    rewrite HM in *. simpl in *. rewrite HF in *.
    split; [|split; [|split]].
    + intros _. split; [done|]. exists Linkage, Name, Ty. by rewrite HN'.
    + done.
    + intros BB d Hd. by apply Hk.
    + intros BB d Hd Hnone. by apply (Hn BB).
  - destruct Hh as [HM HF]. rewrite HM. change (SILMod (declStart p)) with (SIL p).
    split; [done|]. split; [done|]. split; [done|]. congruence.
  - destruct Hh as [HM HF]. rewrite HM. change (SILMod (declStart p)) with (SIL p).
    split; [done|]. split; [done|]. split; [done|]. congruence.
  - destruct Hh as [HM HF]. rewrite HM. change (SILMod (declStart p)) with (SIL p).
    split; [done|]. split; [done|]. split; [done|]. congruence.
Qed.
End Module.

(** ** The block table at the end of a declaration *)

Section TableAtTheEnd.
Context `{FE : Frontend} `{AR : Arena} `{DO : DenseMapOrder}.
#[local] Abbreviation Parser' := (Parser SILType Decls).
#[local] Abbreviation State' := (SILParserFunctionState SILType Decls).

Lemma consistent_same (s s' : State') :
  BlocksByName s' = BlocksByName s → SILMod s' = SILMod s →
  consistent s → consistent s'.
Proof.
  intros HN HM [Hlive Hinj]. split; unfold lookupBB in *; rewrite HN.
  - rewrite HM. apply Hlive.
  - apply Hinj.
Qed.

Lemma bodyOf_consistent (p : Parser') :
  frontendKeepsModule → consistent (bodyOf p).2.
Proof.
  intros Hfe.
  set (Q := λ (s : State') (r : result unit) (s' : State'),
              consistent s → consistent s').
  assert (ensures Q (parseDeclSILHeader ;; parseDeclSILBody)) as H.
  { apply ensures_declaration_parts; unfold Q.
    - done.
    - by auto.
    - done.
    - intros s T Rest. by apply consistent_same.
    - intros s Loc D r _. by apply consistent_same.
    - intros D _ s. unfold inP, zoom. specialize (Hfe D (P s)).
      destruct (parseType D (P s)) as [r p']. simpl in *.
      apply consistent_same; [done|]. by unfold SILMod.
    - intros Ty s. unfold inP, zoom.
      pose proof (typeCheckingScope_SIL Ty (P s)) as HS.
      destruct (typeCheckingScope Ty (P s)) as [r p']. simpl in *.
      apply consistent_same; [done|]. by unfold SILMod.
    - intros Name Loc s. apply getBBForDefinition_consistent.
    - intros Linkage Name Ty s [Hlive Hinj]. by split.
    - intros Fn s [Hlive Hinj]. by split. }
  apply (H (declStart p)), newState_consistent.
Qed.

(** X12. At the end of a declaration parse the table of block names is in
    order: every name stands for a live block of the module, no two names
    for the same block, no name for a null pointer, and no block is
    pending. *)
Theorem declaration_leaves_block_table_in_order (p : Parser') :
  frontendKeepsModule →
  consistent (parseDeclSIL p).2 ∧
  tablesAgree (parseDeclSIL p).2 ∧
  UndefinedBlocks (parseDeclSIL p).2 = ∅.
Proof.
  intros Hfe.
  destruct (parseDeclSIL_end p) as (_ & HM & HN).
  destruct (parseDeclSIL_outcome p) as (_ & Hpend & _).
  destruct (bodyOf_tablesGrow p) as (_ & _ & _ & Hnull).
  split; [|split; [|done]].
  - by apply (consistent_same (bodyOf p).2), bodyOf_consistent.
  - split.
    + rewrite HN. apply Hnull. intros Name. simpl. by rewrite lookup_empty.
    + intros BB Loc Name. by rewrite Hpend, lookup_empty.
Qed.
End TableAtTheEnd.

(** ** The closing brace *)

Section ClosingBrace.
Context `{FE : Frontend} `{AR : Arena} `{DO : DenseMapOrder}.
#[local] Abbreviation Parser' := (Parser SILType Decls).
#[local] Abbreviation State' := (SILParserFunctionState SILType Decls).

(** The list of basic blocks ends at a closing brace or at the end of the
    file, and nowhere else. *)
Lemma parseBasicBlocks_exit fuel (s s' : State') :
  parseBasicBlocks fuel s = (Ok tt, s') →
  getKind (Tok (P s')) = tok_r_brace ∨ getKind (Tok (P s')) = tok_eof.
Proof.
  revert s. induction fuel as [|fuel IH]; intros s; [done|].
  simpl. unfold bind at 1.
  destruct (parseSILBasicBlock s) as [[[]| | |] s1]; try done.
  unfold bind at 1. unfold curTok, gets.
  destruct (isNot tok_r_brace (Tok (P s1)) && isNot tok_eof (Tok (P s1))) eqn:Hk.
  - apply IH.
  - intros [= <-]. unfold isNot, is_ in Hk.
    repeat case_bool_decide; simpl in Hk; try done; by auto.
Qed.

(** X13. The closing brace of a body is asked for but not required.  When
    the list of basic blocks ends at the end of the file, the missing
    brace is reported, with a note at the opening brace, and the result of
    the declaration is what it would have been with the brace. *)
Theorem missing_closing_brace_is_only_reported (p : Parser') :
  (headerOf p).1 = Ok tt →
  getKind (Tok (P (headerOf p).2)) = tok_l_brace →
  (blocksOf p).1 = Ok tt →
  let sB := (blocksOf p).2 in
  (getKind (Tok (P sB)) = tok_r_brace ∨ getKind (Tok (P sB)) = tok_eof) ∧
  (parseDeclSIL p).1 = (if HadError sB then Error else Ok tt) ∧
  Diags (P (parseDeclSIL p).2) =
    Diags (P sB) ++
    (if is_ tok_r_brace (Tok (P sB)) then []
     else [(getLoc (Tok (P sB)), expected_sil_rbrace);
           (getLoc (Tok (P (headerOf p).2)), note_opening tok_r_brace)]).
Proof.
  intros Hh Hk Hb. cbv zeta. unfold blocksOf, headerOf in *.
  apply run_Ok in Hh. apply run_Ok in Hb. split.
  { by eapply parseBasicBlocks_exit. }
  set (sH := (parseDeclSILHeader (declStart p)).2) in *.
  set (sB := (parseBasicBlocks _ _).2) in *.
  clearbody sB sH.
  assert (∃ pC, bodyOf p = (Ok true, setP pC sB) ∧
                Diags pC = Diags (P sB) ++
                  (if is_ tok_r_brace (Tok (P sB)) then []
                   else [(getLoc (Tok (P sB)), expected_sil_rbrace);
                         (getLoc (Tok (P sH)), note_opening tok_r_brace)]))
    as (pC & Hbody & HpC).
  { unfold bodyOf. rewrite (bind_Ok _ _ _ _ _ Hh).
    rewrite parseDeclSILBody_braced by done.
    unfold bind at 1. rewrite Hb.
    unfold bind, ignoreResult, inP, zoom, parseMatchingToken.
    destruct (is_ tok_r_brace (Tok (P sB))) eqn:Hr.
    - destruct (consumeToken_peek (P sB)) as [Hc _]. rewrite Hc.
      eexists. split; [reflexivity|]. rewrite app_nil_r.
      unfold consumeToken. by destruct (lex _ _).
    - eexists. split; [reflexivity|]. simpl. by rewrite <- app_assoc. }
  pose proof (bodyOf_tablesGrow p) as (_ & _ & Hpend & _).
  specialize (Hpend eq_refl). rewrite Hbody in Hpend.
  rewrite parseDeclSIL_by_body, Hbody.
  rewrite diagnoseProblems_none by done. by simpl.
Qed.
End ClosingBrace.

(** ** Termination and progress *)

Section Progress.
Context `{FE : Frontend} `{AR : Arena} `{DO : DenseMapOrder}.
#[local] Abbreviation Parser' := (Parser SILType Decls).
#[local] Abbreviation State' := (SILParserFunctionState SILType Decls).

Lemma advances_parseDeclSILHeader (s : State') :
  (∀ D (p : Parser'), runs remaining (parseType D) p) →
  advances unread parseDeclSILHeader s.
Proof.
  intros HpT. unfold parseDeclSILHeader.
  apply advances_bind_l; [by apply advances_inP_consumeTokenOfKind|].
  intros _ s1 _ _.
  repeat runs_step
    ltac:(first [ by apply runs_parseSILType | apply runs_inP_parseSILLinkage
                | by apply runs_modify ]).
Qed.

(** X14. With a type parser that ends and does not put tokens back, every
    loop of the parser ends, and an instruction, a basic block and a
    declaration that are parsed successfully have each consumed input. *)
Theorem parsing_ends_and_consumes_input :
  (∀ D (p : Parser'), runs remaining (parseType D) p) →
  (∀ BB (s : State'), advances unread (parseSILInstruction BB) s) ∧
  (∀ s : State', advances unread parseSILBasicBlock s) ∧
  (∀ p : Parser',
     (parseDeclSIL p).1 ≠ OutOfFuel ∧
     ((parseDeclSIL p).1 = Ok tt →
      remaining (P (parseDeclSIL p).2) < remaining p)).
Proof.
  intros HpT. split; [|split].
  - intros BB s. by apply advances_parseSILInstruction.
  - intros s. by apply advances_parseSILBasicBlock.
  - intros p.
    assert (advances unread
              (parseDeclSILHeader ;; parseDeclSILBody ;; diagnoseProblems)
              (newState (setInSILBody true p))) as H.
    { apply advances_bind_l; [by apply advances_parseDeclSILHeader|].
      intros _ s1 _ _.
      repeat runs_step
        ltac:(first [ by apply runs_parseDeclSILBody
                    | apply runs_diagnoseProblems ]). }
    unfold parseDeclSIL, advances in *.
    destruct ((parseDeclSILHeader ;; parseDeclSILBody ;; diagnoseProblems) _)
      as [[[]| | |] s]; simpl; by first [done | split].
Qed.
End Progress.

(** ** Labels *)

Section BlockLabel.
Context `{FE : Frontend} `{AR : Arena} `{DO : DenseMapOrder}.
#[local] Abbreviation Parser' := (Parser SILType Decls).
#[local] Abbreviation State' := (SILParserFunctionState SILType Decls).

Lemma getBBForDefinition_Tok Name Loc (s : State') :
  Tok (P (getBBForDefinition Name Loc s).2) = Tok (P s).
Proof.
  unfold getBBForDefinition, bind, subscript, erase.
  destruct (BlocksByName s !! Name) as [[BB|]|]; simpl; try done.
  by destruct (UndefinedBlocks s !! BB).
Qed.

(** X15. The block of a label is defined before its first instruction is
    looked at.  A label that is not followed by an instruction at the
    start of a line makes the basic block fail with the diagnostic of
    [parseSILInstruction] at that token, which is not consumed; the
    definition of the name has taken place all the same. *)
Theorem label_is_defined_before_instructions_are_parsed (s : State') :
  getKind (Tok (P s)) = tok_identifier →
  getKind (peekToken (P s)) = tok_colon →
  let p2 := (consumeToken (consumeToken (P s)).2).2 in
  let sD := (getBBForDefinition (getText (Tok (P s))) (getLoc (Tok (P s)))
               (setP p2 s)).2 in
  getKind (Tok p2) ≠ tok_sil_local_name ∨ isAtStartOfLine (Tok p2) = false →
  parseSILBasicBlock s =
    (Error,
     setP (addDiags
             [(getLoc (Tok p2),
               if is_ tok_sil_local_name (Tok p2)
               then expected_sil_instr_start_of_line
               else expected_sil_instr_name)] (P sD)) sD).
Proof.
  intros Hk Hpk p2 sD Hbad.
  destruct (consumeToken_peek (P s)) as (Hc & HTok & _).
  destruct (consumeToken_peek (consumeToken (P s)).2) as (Hc2 & _).
  unfold parseSILBasicBlock.
  unfold bind at 1. unfold inP at 1, zoom, parseIdentifier.
  rewrite (is_true _ _ Hk). unfold bind at 1. rewrite Hc. unfold ret at 1.
  cbn [fst snd].
  unfold bind at 1. unfold inP at 1, zoom, parseToken. rewrite P_setP, HTok.
  rewrite (is_true _ _ Hpk), Hc2, setP_setP. cbn [fst snd].
  fold p2. unfold bind at 1.
  pose proof (getBBForDefinition_Tok (getText (Tok (P s))) (getLoc (Tok (P s)))
                (setP p2 s)) as HT.
  fold sD in HT. rewrite P_setP in HT.
  assert (∃ BB, getBBForDefinition (getText (Tok (P s))) (getLoc (Tok (P s)))
                  (setP p2 s) = (Ok BB, sD)) as [BB Hdef'].
  { unfold sD. destruct (getBBForDefinition _ _ (setP p2 s)) as [r sD'] eqn:Hdef.
    simpl. assert (∃ BB, r = Ok BB) as [BB ->]; [|by eexists].
  { destruct (lookupBB (setP p2 s) (getText (Tok (P s)))) as [B|] eqn:Hl.
    - destruct (UndefinedBlocks (setP p2 s) !! B) as [E|] eqn:Hu.
      + rewrite (getBBForDefinition_pending _ _ _ B E) in Hdef by done.
        simplify_eq. by eexists.
      + rewrite (getBBForDefinition_redefinition _ _ _ B) in Hdef by done.
        simplify_eq. by eexists.
    - destruct (getBBForDefinition_fresh _ _ (getLoc (Tok (P s))) Hl)
        as (s' & Heq & _). rewrite Heq in Hdef. simplify_eq. by eexists. } }
  rewrite Hdef'.
  unfold bind at 1. unfold gets at 1. cbn [parseInstructions].
  unfold bind at 1. unfold parseSILInstruction, curTok.
  unfold bind at 1. unfold gets at 1. rewrite HT.
  unfold isNot. destruct (is_ tok_sil_local_name (Tok p2)) eqn:Hloc; cbn [negb].
  - destruct Hbad as [Hbad| ->].
    + unfold is_ in Hloc. by case_bool_decide.
    + reflexivity.
  - reflexivity.
Qed.
End BlockLabel.

(** ** Types without attributes *)

Section PlainType.
Context `{FE : Frontend} `{AR : Arena} `{DO : DenseMapOrder}.
#[local] Abbreviation Parser' := (Parser SILType Decls).
#[local] Abbreviation State' := (SILParserFunctionState SILType Decls).

(** X16. A type without attribute list.  The address marker is an operator
    token [*] in front of the [$]; the type that is lowered is the one the
    type checker returns, the uncurry level is 0, and the address modifier
    is applied to the lowered type. *)
Theorem parseSILType_without_attributes (s : State') (Star : bool)
    (Ty Ty' : TypeLoc) (tu : TranslationUnit Decls) (ds : list Diagnostic) :
  let p0 := P s in
  getKind (Tok p0) ≠ tok_l_square →
  isAnyOperator (Tok p0) && bool_decide (getText (Tok p0) = "*") = Star →
  let p1 := if Star then (consumeToken p0).2 else p0 in
  getKind (Tok p1) = tok_sil_dollar →
  let p2 := (parseType expected_sil_type (consumeToken p1).2).2 in
  (parseType expected_sil_type (consumeToken p1).2).1 = Ok Ty →
  ASTStage (TU p2) = Parsing →
  performTypeLocChecking (setASTStage Parsed (TU p2)) Ty = (false, Ty', tu, ds) →
  (parseSILType s).1 =
    Ok (if Star then getAddressType (getLoweredType Ty' 0)
        else getLoweredType Ty' 0) ∧
  Diags (P (parseSILType s).2) = Diags p2 ++ ds.
Proof.
  intros p0 Hk HStar p1 Hdollar p2 HTy Hstage Hcheck. subst p0.
  apply run_Ok in HTy. fold p2 in HTy.
  assert (∃ s', parseSILType s =
                  (Ok (if Star then getAddressType (getLoweredType Ty' 0)
                       else getLoweredType Ty' 0), s') ∧
                Diags (P s') = Diags p2 ++ ds) as (s' & -> & Hd); [|done].
  unfold parseSILType. unfold bind at 1. unfold gets at 1.
  rewrite (is_false _ _ Hk). cbn [andb].
  unfold bind at 1. unfold ret at 1.
  unfold bind at 1. unfold curTok at 1, gets at 1.
  rewrite HStar.
  assert (∀ (k : bool → M State' SILType),
            bind (if Star then inP consumeToken ;; ret true else ret false) k s
            = k Star (setP p1 s)) as Hstar.
  { intros k. unfold p1. destruct Star; [|by destruct s].
    unfold bind at 1. unfold bind at 1. unfold inP, zoom.
    destruct (consumeToken_peek (P s)) as [-> _]. done. }
  rewrite Hstar.
  destruct (consumeToken_peek p1) as [Hc _].
  unfold bind at 1. unfold inP at 1, zoom, parseToken. rewrite P_setP.
  rewrite (is_true _ _ Hdollar), Hc, setP_setP. cbn [fst snd].
  unfold bind at 1. unfold inP at 1, zoom. rewrite P_setP, HTy, setP_setP.
  destruct (typeCheckingScope_effect Ty p2 Hstage)
    as (Err & Ty1 & tu1 & ds1 & Hcheck1 & Hscope).
  rewrite Hcheck in Hcheck1. simplify_eq.
  unfold bind at 1. unfold inP at 1, zoom. rewrite P_setP, Hscope, setP_setP.
  eexists. split; [reflexivity|]. done.
Qed.
End PlainType.

(** ** Operands *)

Section Operands.
Context `{FE : Frontend} `{AR : Arena} `{DO : DenseMapOrder}.
#[local] Abbreviation Parser' := (Parser SILType Decls).
#[local] Abbreviation State' := (SILParserFunctionState SILType Decls).

Lemma parseSILType_not_a_type (s : State') :
  getKind (Tok (P s)) ≠ tok_l_square →
  getKind (Tok (P s)) ≠ tok_sil_dollar →
  isAnyOperator (Tok (P s)) && bool_decide (getText (Tok (P s)) = "*") = false →
  parseSILType s =
    (Error, setP (addDiags [(getLoc (Tok (P s)), expected_sil_type)] (P s)) s).
Proof.
  intros Hsq Hdollar Hstar.
  unfold parseSILType. unfold bind at 1. unfold gets at 1.
  rewrite (is_false _ _ Hsq). cbn [andb].
  unfold bind at 1. unfold ret at 1.
  unfold bind at 1. unfold curTok at 1, gets at 1.
  rewrite Hstar. unfold bind at 1. unfold ret at 1.
  unfold bind at 1. unfold inP at 1, zoom, parseToken.
  by rewrite (is_false _ _ Hdollar).
Qed.

(** X17. An operand has to start a type.  Where a typed value is expected,
    in the operand list of [tuple] and behind [return], a token that is
    not [[], [$] or the operator [*] is refused with [expected_sil_type] at
    that token, and nothing is consumed; in an operand list this is what
    the end of the file in place of the closing parenthesis gives. *)
Theorem operand_must_start_a_type (fuel : nat) (s : State') :
  getKind (Tok (P s)) ≠ tok_l_square →
  getKind (Tok (P s)) ≠ tok_sil_dollar →
  isAnyOperator (Tok (P s)) && bool_decide (getText (Tok (P s)) = "*") = false →
  parseTypedValueRef s =
    (Error, setP (addDiags [(getLoc (Tok (P s)), expected_sil_type)] (P s)) s) ∧
  (getKind (Tok (P s)) ≠ tok_r_paren →
   parseTupleOperands (S fuel) s =
     (Error, setP (addDiags [(getLoc (Tok (P s)), expected_sil_type)] (P s)) s)).
Proof.
  intros Hsq Hdollar Hstar.
  assert (parseTypedValueRef s =
    (Error, setP (addDiags [(getLoc (Tok (P s)), expected_sil_type)] (P s)) s))
    as Href.
  { unfold parseTypedValueRef. unfold bind at 1.
    by rewrite parseSILType_not_a_type. }
  split; [done|]. intros Hparen.
  cbn [parseTupleOperands]. unfold bind at 1. unfold curTok at 1, gets at 1.
  rewrite (isNot_true _ _ Hparen). unfold bind at 1. by rewrite Href.
Qed.
End Operands.

(** ** The further properties at work on the demo inputs *)

Lemma demoFrontend_keepsModule : frontendKeepsModule (FE := demoFrontend).
Proof.
  intros D p.
  change (parseType D p) with
    (if is_ tok_identifier (Tok p)
     then (consumeToken ;; ret (getText (Tok p))) p
     else (diagnose (getLoc (Tok p)) D ;; fail) p).
  destruct (is_ tok_identifier (Tok p)); [|done].
  unfold bind, consumeToken. by destruct (lex (L p) (EofLoc p)).
Qed.

Lemma resolver_tables_invariant_witness :
  consistent (performAll (AR := bumpArena)
                [Define "bb0" 1; Refer "bb1" 2; ParserStep (addDiags [])]
                demoState) ∧
  tablesAgree (performAll (AR := bumpArena)
                 [Define "bb0" 1; Refer "bb1" 2; ParserStep (addDiags [])]
                 demoState).
Proof.
  apply (resolver_tables_invariant (AR := bumpArena) (demoParser eofToken [])
           [Define "bb0" 1; Refer "bb1" 2; ParserStep (addDiags [])]).
  repeat constructor. intros p. reflexivity.
Defined.

Lemma later_reference_keeps_first_location_witness :
  ∃ BB s1,
    getBBForReference (AR := bumpArena) "bb1" 3 demoState = (Ok BB, s1) ∧
    getBBForReference (AR := bumpArena) "bb1" 7
      (performAll (AR := bumpArena) [Define "bb0" 1; Refer "bb2" 5] s1)
      = (Ok BB, performAll (AR := bumpArena) [Define "bb0" 1; Refer "bb2" 5] s1) ∧
    UndefinedBlocks (performAll (AR := bumpArena)
                       [Define "bb0" 1; Refer "bb2" 5] s1) !! BB
      = Some (3, "bb1").
Proof.
  apply (later_reference_keeps_first_location (AR := bumpArena)
           demoState "bb1" 3 7 [Define "bb0" 1; Refer "bb2" 5]).
  - apply newState_consistent.
  - reflexivity.
  - repeat constructor.
  - repeat constructor; simpl; [discriminate|tauto].
Defined.

Lemma every_later_definition_is_a_redefinition_witness :
  ∃ New,
    (getBBForDefinition (AR := bumpArena) "bb0" 9
       (performAll (AR := bumpArena) [Refer "bb1" 4]
          (getBBForDefinition (AR := bumpArena) "bb0" 1 demoState).2)).1
      = Ok New ∧
    HadError
      (getBBForDefinition (AR := bumpArena) "bb0" 9
         (performAll (AR := bumpArena) [Refer "bb1" 4]
            (getBBForDefinition (AR := bumpArena) "bb0" 1 demoState).2)).2
      = true.
Proof.
  destruct (every_later_definition_is_a_redefinition (AR := bumpArena)
              demoState "bb0" 1 9 [Refer "bb1" 4])
    as (New & H1 & _ & _ & H2).
  - apply newState_consistent.
  - apply newState_tablesAgree.
  - repeat constructor.
  - exists New. exact (conj H1 H2).
Defined.

Lemma redefinition_block_is_never_returned_again_witness :
  ∃ New s1,
    getBBForDefinition (AR := bumpArena) "bb0" 2
      (getBBForDefinition (AR := bumpArena) "bb0" 1 demoState).2 = (Ok New, s1) ∧
    (getBBForReference (AR := bumpArena) "bb0" 5
       (performAll (AR := bumpArena) [Refer "bb1" 3] s1)).1 ≠ Ok New.
Proof.
  destruct (redefinition_block_is_never_returned_again (AR := bumpArena)
              (getBBForDefinition (AR := bumpArena) "bb0" 1 demoState).2
              "bb0" 2 1%positive [Refer "bb1" 3])
    as (New & s1 & H1 & _ & _ & H2).
  - apply getBBForDefinition_consistent, newState_consistent.
  - reflexivity.
  - reflexivity.
  - repeat constructor.
  - exists New, s1. exact (conj H1 (H2 "bb0" 5)).
Defined.

Lemma declaration_never_has_pending_blocks_witness :
  (parseDemoDecl declWithTwoInstructions).1 = Ok tt ∧
  (parseDemoDecl declWithRedefinition).1 = Error.
Proof.
  split.
  - destruct (declaration_never_has_pending_blocks
                (FE := demoFrontend) (AR := bumpArena) (DO := elementsOrder)
                (demoDecl declWithTwoInstructions)) as (_ & _ & _ & H).
    destruct (H true eq_refl) as [_ Hok]. apply Hok. reflexivity.
  - destruct (declaration_never_has_pending_blocks
                (FE := demoFrontend) (AR := bumpArena) (DO := elementsOrder)
                (demoDecl declWithRedefinition)) as (_ & _ & _ & H).
    destruct (H true eq_refl) as [Hfail _]. apply Hfail. reflexivity.
Defined.

Lemma every_failure_is_reported_witness :
  ∃ ds, Diags (P (parseDemoDecl declWithUnknownOpcode).2)
          = Diags (demoDecl declWithUnknownOpcode) ++ ds ∧
        ((parseDemoDecl declWithUnknownOpcode).1 = Error → ds ≠ []).
Proof.
  exact (every_failure_is_reported
           (FE := demoFrontend) (AR := bumpArena) (DO := elementsOrder)
           (demoDecl declWithUnknownOpcode) demoFrontend_reports).
Defined.

Lemma complete_declaration_fails_iff_redefinition_witness :
  ∃ ds, Diags (P (parseDemoDecl declWithRedefinition).2)
          = Diags (demoDecl declWithRedefinition) ++ ds ∧
        ((parseDemoDecl declWithRedefinition).1 = Error ↔
           ∃ Loc Name, (Loc, basicblock_redefinition Name) ∈ ds).
Proof.
  exact (complete_declaration_fails_iff_redefinition
           (FE := demoFrontend) (AR := bumpArena) (DO := elementsOrder)
           (demoDecl declWithRedefinition) true demoFrontend_reports eq_refl).
Defined.

Lemma body_only_adds_empty_blocks_witness :
  blocksAdded demoLabelWithoutInstruction
    (parseSILBasicBlock (FE := demoFrontend) (AR := bumpArena)
       demoLabelWithoutInstruction).2 ∧
  blocksAdded demoLabelWithoutInstruction
    (parseDeclSILBody (FE := demoFrontend) (AR := bumpArena)
       demoLabelWithoutInstruction).2.
Proof.
  exact (body_only_adds_empty_blocks (FE := demoFrontend) (AR := bumpArena)
           demoLabelWithoutInstruction demoFrontend_keepsModule).
Defined.

Lemma declaration_adds_one_function_witness :
  (parseDemoDecl declWithUnknownOpcode).1 = Error ∧
  F (parseDemoDecl declWithUnknownOpcode).2 = Some 0 ∧
  ∃ Linkage Name Ty,
    Functions (SILMod (parseDemoDecl declWithUnknownOpcode).2)
      = [mkFunction Linkage Name Ty].
Proof.
  destruct (declaration_adds_one_function
              (FE := demoFrontend) (AR := bumpArena) (DO := elementsOrder)
              (demoDecl declWithUnknownOpcode) demoFrontend_keepsModule)
    as (Hmade & _).
  destruct (Hmade eq_refl) as [HF Hfns].
  split; [reflexivity|]. split; [exact HF|exact Hfns].
Defined.

Lemma declaration_leaves_block_table_in_order_witness :
  consistent (parseDemoDecl declWithRedefinition).2 ∧
  tablesAgree (parseDemoDecl declWithRedefinition).2 ∧
  UndefinedBlocks (parseDemoDecl declWithRedefinition).2 = ∅.
Proof.
  exact (declaration_leaves_block_table_in_order
           (FE := demoFrontend) (AR := bumpArena) (DO := elementsOrder)
           (demoDecl declWithRedefinition) demoFrontend_keepsModule).
Defined.

Lemma missing_closing_brace_is_only_reported_witness :
  (parseDemoDecl declWithoutClosingBrace).1 = Ok tt ∧
  Diags (P (parseDemoDecl declWithoutClosingBrace).2)
    = [(1000, expected_sil_rbrace); (12, note_opening tok_r_brace)].
Proof.
  destruct (missing_closing_brace_is_only_reported
              (FE := demoFrontend) (AR := bumpArena) (DO := elementsOrder)
              (demoDecl declWithoutClosingBrace) eq_refl eq_refl eq_refl)
    as (_ & Hr & Hd).
  split; [exact Hr|exact Hd].
Defined.

Lemma parsing_ends_and_consumes_input_witness :
  (parseDemoDecl declWithTwoInstructions).1 ≠ OutOfFuel ∧
  remaining (P (parseDemoDecl declWithTwoInstructions).2)
    < remaining (demoDecl declWithTwoInstructions).
Proof.
  destruct (parsing_ends_and_consumes_input
              (FE := demoFrontend) (AR := bumpArena) (DO := elementsOrder)
              demo_parseType_runs) as (_ & _ & H).
  destruct (H (demoDecl declWithTwoInstructions)) as [Hends Hless].
  split; [exact Hends|]. apply Hless. reflexivity.
Defined.

Lemma label_is_defined_before_instructions_are_parsed_witness :
  (parseSILBasicBlock (FE := demoFrontend) (AR := bumpArena)
     demoLabelWithoutInstruction).1 = Error ∧
  Diags (P (parseSILBasicBlock (FE := demoFrontend) (AR := bumpArena)
              demoLabelWithoutInstruction).2)
    = [(19, expected_sil_instr_name)] ∧
  lookupBB (parseSILBasicBlock (FE := demoFrontend) (AR := bumpArena)
              demoLabelWithoutInstruction).2 "bb0" = Some 1%positive.
Proof.
  rewrite (label_is_defined_before_instructions_are_parsed
             (FE := demoFrontend) (AR := bumpArena)
             demoLabelWithoutInstruction eq_refl eq_refl).
  - split; [reflexivity|]. split; reflexivity.
  - left. discriminate.
Defined.

Lemma parseSILType_without_attributes_witness :
  (parseSILType (FE := demoFrontend) demoAddressType).1 = Ok ("T", 0, true).
Proof.
  destruct (parseSILType_without_attributes (FE := demoFrontend)
              demoAddressType true "T" "T" (mkTU Parsed tt) []
              ltac:(discriminate) eq_refl eq_refl eq_refl eq_refl eq_refl)
    as [Hr _].
  exact Hr.
Defined.

Lemma operand_must_start_a_type_witness :
  parseTupleOperands (FE := demoFrontend) 1 demoState
    = (Error,
       setP (addDiags [(1000, expected_sil_type)] (P demoState)) demoState).
Proof.
  destruct (operand_must_start_a_type (FE := demoFrontend)
              0 demoState) as [_ H].
  - discriminate.
  - discriminate.
  - reflexivity.
  - apply H. discriminate.
Defined.
